(* ===== verification/_CoqProject ===== *)
-Q . S2P
Prelude.v
GoInt.v
Decimal.v
Config.v
Sql.v
Store.v
QueueView.v
Binding.v
Cache.v
Handlers.v
Paths.v
Discovery.v
System.v
Wire.v
Concurrency.v
