(* ===== verification/Prelude.v ===== *)
(** * Verification of the video conversion queue backend

    The program ([src/backend/main.go], one Go file of 316 lines) is an HTTP
    service that tracks video files through a queue kept in one PostgreSQL
    table, [videos]. Its parts and how they interact:

    - the _record store_: the table, created by [initDB] and read and
      written only through the SQL statements the handlers send;
    - the _membership cache_ [processedPaths], a Go map from path to bool
      rebuilt from the table at start-up ([refreshProcessedPathsCache]) and
      extended after every successful insert;
    - the _queue view_ [getQueue]: validates the page parameters, computes
      an offset, builds a [WHERE] clause from the status filter by string
      formatting, asks for the count and for one ordered page, scans the
      rows ([scanVideoRows]) and groups them into three buckets;
    - _enqueue_ [addToQueue]: inserts a row with status ["pending"], marks
      the path in the cache, answers with the request;
    - the _status transition_ [updateVideoStatus]: one [UPDATE] by id;
    - _discovery_ [getUnprocessedVideos]: walks [./videos] and reports the
      [.mp4] files whose path the cache does not hold;
    - [main]: start-up (the connection string built from the
      environment, [initDB]), the CORS middleware and the four routes, each
      request served in a goroutine of its own;
    - the framework between the wire and the handlers: binding of the
      query string and of the JSON body to the structs of the program,
      encoding of the replies.

    ** Files

    - [Prelude] (this file): the type [result] of Go's [(value, err)]
      returns with its bind notation, the type [response] of what a handler
      writes with [c.JSON], the tactics ([result_inv], [break_hyps]) and the
      hint databases ([vq], [str]) of the development, and the lemmas on
      strings, sorted lists and windows of lists ([window], [windowZ]: SQL's
      [LIMIT] and [OFFSET]) that the components share.
    - [GoInt]: Go's [int] as [Z] with the 64-bit wrap-around written out
      ([wrap], [int_add], [int_sub], [int_mul], [int_div]), when an
      operation is exact, and the ceiling-division lemmas.
    - [Decimal]: integers as decimal text, the digit loop of
      [strconv.FormatInt] ([format_digits], by well-founded recursion) and
      [strconv.ParseInt] with its syntax and range errors.
    - [Config]: the connection string [dbURL] (lines 43-54) and the option
      scanner of the driver that reads it back ([parseOpts]).
    - [Sql]: the query texts of [getQueue] (lines 171-194) as strings, how
      PostgreSQL reads the [WHERE] clause ([lex_literal], [interp_where]):
      as a filter on the status, as an unterminated constant, or as a
      constant followed by more SQL; and how it reads the numbers of the
      [LIMIT] clause ([read_limit]).
    - [Store]: the struct [Video] (lines 16-23), a [row] of the table with
      its two nullable columns (lines 63-70), the database [DB] as the
      handlers see it (reachable or not, table present or not), one function
      per statement ([exec_create_table], [exec_create_indexes],
      [exec_insert], [exec_update_status], [query_paths], [query_count],
      [query_page]) and the class [QueryEngine]: what the program is
      promised about [ORDER BY] (a sorted permutation), with merge sort as
      an instance to evaluate with.
    - [QueueView]: [getQueue] (lines 153-233) and [scanVideoRows] (lines
      235-247), definition by definition ([validate], [offset_of],
      [scan_row], [group_step], [group_videos], [page_count]), the
      specification [spec_body] of a response, and the theorems of the
      queue view.
    - [Binding]: [ShouldBindQuery] on the pairs of a query with the
      defaults of the form tags (lines 33-37), JSON values ([json]),
      [ShouldBindJSON] into [Video] (lines 16-23) and into the status
      struct (lines 275-277), and the encoders of the bodies the handlers
      write ([Video_to_json], [QueueBody_to_json], ...).
    - [Cache]: the map [processedPaths] (line 39) as [gmap string bool] with
      [cache_get], [cache_add] and [refreshProcessedPathsCache] (lines
      89-106), specified by the set [known] of the paths that read [true].
    - [Handlers]: the server state [Server] (the two package variables),
      [initDB] (lines 41-87), [addToQueue] (lines 249-271) and
      [updateVideoStatus] (lines 273-292) as functions from a state and a
      bound request to the next state and the response, and the invariant
      [server_inv] of the state.
    - [Paths]: the functions of [path/filepath] that discovery calls, on
      Unix paths: [Ext], [Base], [Clean], [Join], written after the loops
      of the Go library, with what they return on the paths a walk builds
      ([clean_rel]: valid names joined by separators).
    - [Discovery]: the file system as a tree of [node]s (regular file,
      other non-directory, directory, directory that cannot be read, entry
      whose [Lstat] fails), [Lstat], [Stat], [Walk] with its callback
      protocol ([SkipDir], [SkipAll], errors), the callback [walkFn] (lines
      114-122), [getFileSize] (lines 145-151) and [getUnprocessedVideos]
      (lines 108-143); the specification [spec_unprocessed] over the set
      [discovered] of the tree.
    - [System]: the router ([route], lines 310-313), a [request] as the
      framework hands it over, [handle] (one request served by its
      handler), the [world] (server state and file system), [main] (lines
      294-316) and runs: [step], [run], [reachable], with [change], the
      relation of what one step can do to the server.
    - [Wire]: one HTTP request from the wire to the wire ([serve], lines
      299-313): the redirection of a trailing slash, the CORS middleware
      ([applyCors]) under the configuration of lines 302-305 ([config]),
      binding ([receive]), the handler, and the encoded reply ([respond]).
    - [Concurrency]: the handlers split at their accesses to the shared
      state ([thread], [thread_step]), the Go map with its
      write-in-progress flag ([shared]), the process with its goroutines
      under a scheduler ([sched_step], [sched_run]) and the invariant
      [shared_inv] of a process that has not died.

    A handler takes the request as the framework bound it: [Some] of the
    struct, or [None] when [ShouldBindQuery] or [ShouldBindJSON] failed, in
    which case the handler answers 400 and touches nothing. A response is
    the status code with the body ([StatusOK body]) or with the error
    ([StatusInternalServerError e]). Files [Binding] and [Wire] say which
    requests bind to which values and what is written for a response.

    ** What the theorems show

    - _Queue view_ ([QueueView]). [getQueue_refines_spec]: on a reachable
      table the response is exactly [spec_body], the window
      [[offset, offset + pageSize)] of the selected rows in the order of the
      query, grouped, with the exact total and the page count rounded up.
      [getQueue_pages_tile]: the pages 1 to [pages] concatenate to the
      selected rows, each once. [getQueue_sorted], [getQueue_buckets],
      [getQueue_filtered]: order, bucket membership and filter of every 200
      response, for every engine and every table. [getQueue_hidden_rows]:
      rows of unrecognised status or with a NULL are counted and shown
      nowhere. [validate_bounds], [page_count_is_ceiling],
      [getQueue_beyond_last_page]: the parameters and the page count.
      [getQueue_store_error], [getQueue_errors]: every 500 and its cause.
    - _Overflow_. [offset_of_no_overflow]: up to page [max_safe_page] the
      offset is exact; [getQueue_page_wraps] and [getQueue_negative_offset]:
      beyond it the product wraps and the handler serves another page or
      fails.
    - _SQL text_ ([Sql]). [whereClause_faithful_iff]: the clause means
      "status equals the filter" exactly for filters without a single quote;
      [whereClause_injection]: with one, the rest of the filter is read as
      SQL. [limitClause_roundtrip]: the numbers read in the [LIMIT] clause
      are the numbers the handler wrote.
    - _Text at the borders_ ([Decimal], [Config], [Binding]).
      [ParseInt_FormatInt_in_int], [parse_digits_value]: parsing reads back
      what formatting writes and agrees with the reference reading of a
      digit string. [dbURL_roundtrip], [dbURL_empty_value]: the driver
      reads the values of the environment in the connection string when
      they are plain, and the next pair as the password when the password
      is empty. [ShouldBindJSON_roundtrip], [ShouldBindQuery_roundtrip]:
      binding reads back what is encoded; [ShouldBindQuery_versions]: the
      two behaviours of the form binder are the same to the handler.
    - _The wire_ ([Wire]). [serve_bad_request]: 400 exactly when binding
      fails, with the state unchanged. [serve_encoded]: requests that carry
      encodings are served as the handlers serve the values.
      [null_body_is_enqueued]: [null] and [{}] bind the zero video, which
      is stored. [unrouted_methods], [trailing_slash_redirected]: what
      becomes of requests without a route.
    - _Cache_ ([Cache]). [refresh_fidelity], [refresh_fails_open],
      [cache_add_spec]: the map implements a set of paths, the refresh
      computes the set of stored paths and is empty on failure.
    - _Writes_ ([Handlers]). [addToQueue_stores_pending]: one new row,
      status ["pending"], path cached. [addToQueue_echoes_request],
      [addToQueue_duplicate_id], [addToQueue_duplicate_path],
      [updateVideoStatus_unknown_id], [updateVideoStatus_sets_status]: what
      each handler does on the inputs the specification singles out.
      [initDB_spec]: the state after start-up.
    - _Order_ ([Store]). [order_by_deterministic]: with distinct paths the
      order of a page is the same for every engine.
    - _Paths_ ([Paths]). [Ext_dir_name], [Base_dir_name], [Join_entry]: on the
      path of an entry, the extension and the base are those of the name of
      the entry, and joining does not rewrite the directory.
    - _Discovery_ ([Discovery]). [getUnprocessedVideos_refines_spec]: on a
      tree that can be read the response is [spec_unprocessed], the [.mp4]
      leaves in lexical order without the cached paths, each with the base
      of its path as id and its size. [discovered_iff]: which paths these
      are. [getUnprocessedVideos_outcome]: 200 exactly when the walk meets
      no error, 500 with the first error otherwise. [walkFn_spec],
      [getUnprocessedVideos_videos], [getUnprocessedVideos_sizes]: the
      callback and the fields of every reported video.
    - _Runs_ ([System]). [dedup_invariant]: once a video is enqueued with
      success no later discovery of the run lists its path;
      [reachable_consistent]: in every state reachable from start-up ids
      are unique and the cache holds exactly the stored paths.
      [table_append_only], [polite_run_pages_tile]: rows are never removed,
      and after requests that send recognised statuses the pages of the
      queue tile the table. [enqueued_video_listed],
      [taken_id_blocks_enqueue]: a reported video can be enqueued and is
      listed, unless a file of the same name in another directory took its
      id.
    - _Concurrency_ ([Concurrency]). [thread_alone_is_handler]: a goroutine
      that runs alone is the atomic handler. [round_robin_terminates]:
      every turn does nothing or takes work off the process, and round
      robin brings every goroutine to its end. [schedule_invariant]: under
      every schedule the process dies or keeps unique ids and a cache that
      claims only stored paths, exact again when all goroutines have
      finished. [unsynchronised_map_is_fatal],
      [discovery_races_with_enqueue], [snapshot_gap]: schedules that end
      the process, report a stored path, and show more videos than the
      total.

    ** Bounds and assumptions

    - Go's [int] and [int64] are 64 bits wide (the program is built for
      amd64/arm64); all arithmetic of [getQueue] goes through [wrap].
      [table_fits] says that the number of rows plus 100 is at most
      [int_max], which any table that exists satisfies and which makes the
      count and the page count exact; [max_safe_page] is [int_max / 100 + 1],
      the largest page whose offset is exact for every page size.
    - Strings are compared byte-wise ([String.le]), the order of
      PostgreSQL's [C] collation; under another collation [path] is ordered
      differently but the theorems, which use only that the order is total,
      read the same.
    - String constants are read with [standard_conforming_strings] on (the
      default): a backslash is an ordinary character, a doubled quote is an
      escaped quote.
    - [run_select] is [None] for a clause outside the SQL the development
      reads (a filter with text after the closing quote); every theorem on a
      response states when the clause is inside.
    - Paths are Unix paths; the names of the entries of a directory are
      non-empty, free of separators and neither ["."] nor [".."]
      ([valid_name], [names_ok]), as a file system gives them. The tree
      does not change during one walk; between requests it changes freely
      ([Changed] of file [System]). Symbolic links are entries that are not
      directories: [Walk] uses [Lstat] and does not follow them.
    - In [System] a handler runs as one atomic step and the server is the
      only writer of the table. In [Concurrency] a statement is atomic in
      the database, a map write takes two steps, and the walk is one step
      because it touches no shared state.
    - Texts are strings of bytes; blanks and letters are those of ASCII.
      The form binder is modelled in both behaviours it has had for an
      empty parameter ([empty_default]); the text of an error message is a
      parameter ([message]) of file [Wire].
    - Fuel is used twice. [run_alone] is given the number of steps of a
      goroutine; [steps_left] computes how many it needs (at most 3, plus
      one per path found for a discovery), [thread_alone_is_handler] shows
      that this is enough, and [work], the sum over the goroutines, bounds
      every schedule. [parse_pairs] is given one unit more than the text
      has characters, since every pair takes at least its [=];
      [parseOpts_fuel] shows that the fuel is never used up.
      [format_digits] is defined by well-founded recursion on the binary
      logarithm of its argument. Every other definition is structurally
      recursive or a fold.

    ** Not modelled

    The text of query strings and of JSON documents (percent-decoding, the
    JSON scanner, string escapes, UTF-8): a request reaches the model as
    the pairs of its query and as a JSON value. The texts of error
    messages. The defaults the driver adds to the options of a connection
    string, and the pool of [database/sql]. Logging and the recovery
    middleware of [gin.Default()]. Methods outside the six the program
    names. Volume names and separators of Windows paths. Data races other
    than those on the map, which the write-in-progress flag stands for. *)

From Stdlib Require Export ZArith Lia.
From stdpp Require Export base tactics option list strings gmap sorting.

(** ** Results of fallible operations

    Go functions that return [(value, err)] are modelled as functions into
    [result E A]: [Ok v] for [err == nil], [Err e] otherwise. *)

Inductive result (E A : Type) : Type :=
| Ok (a : A)
| Err (e : E).

Arguments Ok {E A} a.
Arguments Err {E A} e.

Definition rbind {E A B} (m : result E A) (f : A → result E B) : result E B :=
  match m with
  | Ok a => f a
  | Err e => Err e
  end.

Definition rmap {E A B} (g : A → B) (m : result E A) : result E B :=
  match m with
  | Ok a => Ok (g a)
  | Err e => Err e
  end.

(** Sequencing of fallible steps, in a scope of its own: [x <- m ;; k] runs
    [k] on the value of [m] and stops at the first error. *)
Declare Scope result_scope.
Delimit Scope result_scope with result.
Notation "x <- m ;; k" := (rbind m (λ x, k))
  (at level 100, m at next level, right associativity) : result_scope.
Notation "m ;;; k" := (rbind m (λ _, k))
  (at level 100, right associativity) : result_scope.
#[global] Open Scope result_scope.

Definition is_ok {E A} (m : result E A) : bool :=
  match m with Ok _ => true | Err _ => false end.

#[export] Instance result_eq_dec {E A} `{EqDecision E, EqDecision A} :
  EqDecision (result E A).
Proof. solve_decision. Defined.

(** ** Hint database and tactics of the development *)

Create HintDb vq discriminated.
Create Rewrite HintDb vq.

(** [result_inv] turns hypotheses about binds that succeeded into their
    components, and closes goals whose hypotheses equate [Ok] with [Err]. *)
Ltac result_inv :=
  repeat match goal with
  | H : Ok _ = Ok _ |- _ => injection H as H; try subst
  | H : Err _ = Err _ |- _ => injection H as H; try subst
  | H : Ok _ = Err _ |- _ => discriminate H
  | H : Err _ = Ok _ |- _ => discriminate H
  | H : rbind ?m _ = _ |- _ =>
      let E := fresh "E" in destruct m eqn:E; simpl in H
  | H : rmap _ ?m = _ |- _ =>
      let E := fresh "E" in destruct m eqn:E; simpl in H
  end.

(** [break_hyps] destructs the existentials, conjunctions and disjunctions
    among the hypotheses and simplifies the resulting equations. *)
Ltac break_hyps :=
  repeat match goal with
  | H : ∃ _, _ |- _ => destruct H
  | H : _ ∧ _ |- _ => destruct H
  | H : _ ∨ _ |- _ => destruct H
  end; simplify_eq/=.

Section result_lemmas.
Context {E A B : Type}.
Implicit Types (m : result E A) (f : A → result E B).

Lemma result_bind_Ok m f b :
  rbind m f = Ok b ↔ ∃ a, m = Ok a ∧ f a = Ok b.
Proof. destruct m; simpl; split; intros; break_hyps; eauto. Qed.

Lemma result_bind_Err m f e :
  rbind m f = Err e ↔ m = Err e ∨ ∃ a, m = Ok a ∧ f a = Err e.
Proof. destruct m; simpl; split; intros; break_hyps; eauto. Qed.

Lemma result_fmap_Ok m (g : A → B) b :
  rmap g m = Ok b ↔ ∃ a, m = Ok a ∧ b = g a.
Proof. destruct m; simpl; split; intros; break_hyps; eauto. Qed.

Lemma is_ok_true m : is_ok m = true ↔ ∃ a, m = Ok a.
Proof. destruct m; simpl; split; intros; break_hyps; eauto. Qed.
End result_lemmas.

(** ** Strings

    stdpp keeps [simpl] from unfolding string concatenation; these equations
    are its computation rules, collected in the rewrite database [str]. *)

Lemma string_app_nil_l (s : string) : "" +:+ s = s.
Proof. reflexivity. Qed.

Lemma string_app_cons a (s t : string) : String a s +:+ t = String a (s +:+ t).
Proof. reflexivity. Qed.

Lemma string_app_nil_r (s : string) : s +:+ "" = s.
Proof. induction s as [|a s IH]; [done|]. by rewrite string_app_cons, IH. Qed.

Lemma string_app_assoc (s1 s2 s3 : string) :
  (s1 +:+ s2) +:+ s3 = s1 +:+ (s2 +:+ s3).
Proof. induction s1 as [|a s1 IH]; [done|]. by rewrite !string_app_cons, IH. Qed.

Lemma string_app_length (s t : string) :
  String.length (s +:+ t) = String.length s + String.length t.
Proof. induction s as [|a s IH]; [done|]. rewrite string_app_cons. simpl. by rewrite IH. Qed.

Create Rewrite HintDb str.

#[export] Hint Rewrite string_app_nil_l string_app_cons string_app_nil_r
  string_app_assoc string_app_length : str.

(** ** Responses of the HTTP handlers

    A handler ends by one call of [c.JSON(code, body)]. The three codes the
    program uses are the constructors; the body of an error response is the
    error's text, kept here as the error value itself. *)

Inductive response (E A : Type) : Type :=
| StatusOK (body : A)
| StatusBadRequest
| StatusInternalServerError (e : E).

Arguments StatusOK {E A} body.
Arguments StatusBadRequest {E A}.
Arguments StatusInternalServerError {E A} e.

Definition status_code {E A} (r : response E A) : Z :=
  match r with
  | StatusOK _ => 200
  | StatusBadRequest => 400
  | StatusInternalServerError _ => 500
  end.

(** ** Windows of a list: [LIMIT] and [OFFSET] *)

Definition window {A} (limit offset : nat) (l : list A) : list A :=
  take limit (drop offset l).

Section window.
Context {A : Type}.
Implicit Types (l : list A) (size limit offset n : nat).

Lemma window_length limit offset l :
  length (window limit offset l) = limit `min` (length l - offset).
Proof. unfold window. rewrite length_take, length_drop. reflexivity. Qed.

Lemma window_beyond limit offset l :
  length l ≤ offset → window limit offset l = [].
Proof. intros. unfold window. rewrite drop_ge by done. apply take_nil. Qed.

Lemma window_drop limit offset k l :
  window limit (k + offset) l = window limit offset (drop k l).
Proof. unfold window. by rewrite drop_drop. Qed.

Lemma window_sublist limit offset l : window limit offset l `sublist_of` l.
Proof. unfold window. etrans; [apply sublist_take | apply sublist_drop]. Qed.

(** The windows of width [size] at offsets [0], [size], [2 * size], ...
    tile the list: [n] of them, laid end to end, are its first [n * size]
    elements. *)
Lemma window_concat_take size n l :
  concat ((λ i, window size (i * size) l) <$> seq 0 n) = take (n * size) l.
Proof.
  revert l. induction n as [|n IH]; intros l; [done|].
  rewrite <-cons_seq, <-fmap_S_seq, fmap_cons, <-list_fmap_compose. simpl.
  rewrite (list_fmap_ext _ (λ i, window size (i * size) (drop size l)) (seq 0 n)).
  - rewrite IH. unfold window. simpl. apply take_take_drop.
  - intros _ i _. simpl. by rewrite <-window_drop.
Qed.

Lemma window_concat size n l :
  length l ≤ n * size →
  concat ((λ i, window size (i * size) l) <$> seq 0 n) = l.
Proof. intros. rewrite window_concat_take. by apply take_ge. Qed.
End window.

(** The same window with the bounds as integers, by recursion on the list:
    it evaluates on offsets far beyond the length of the list. *)

Fixpoint dropZ {A} (n : Z) (l : list A) : list A :=
  match l with
  | [] => []
  | x :: l' => if decide (n ≤ 0)%Z then l else dropZ (n - 1) l'
  end.

Fixpoint takeZ {A} (n : Z) (l : list A) : list A :=
  match l with
  | [] => []
  | x :: l' => if decide (n ≤ 0)%Z then [] else x :: takeZ (n - 1) l'
  end.

Definition windowZ {A} (limit offset : Z) (l : list A) : list A :=
  takeZ limit (dropZ offset l).

Lemma dropZ_drop {A} (n : Z) (l : list A) : dropZ n l = drop (Z.to_nat n) l.
Proof.
  revert n. induction l as [|x l IH]; intros n; simpl; [by rewrite drop_nil|].
  case_decide.
  - by replace (Z.to_nat n) with 0%nat by lia.
  - rewrite IH. by replace (Z.to_nat n) with (S (Z.to_nat (n - 1))) by lia.
Qed.

Lemma takeZ_take {A} (n : Z) (l : list A) : takeZ n l = take (Z.to_nat n) l.
Proof.
  revert n. induction l as [|x l IH]; intros n; simpl; [by rewrite take_nil|].
  case_decide.
  - by replace (Z.to_nat n) with 0%nat by lia.
  - rewrite IH. by replace (Z.to_nat n) with (S (Z.to_nat (n - 1))) by lia.
Qed.

Lemma windowZ_window {A} (limit offset : Z) (l : list A) :
  windowZ limit offset l = window (Z.to_nat limit) (Z.to_nat offset) l.
Proof. unfold windowZ, window. by rewrite takeZ_take, dropZ_drop. Qed.

(** ** Sorted lists *)

Section sorted.
Context {A : Type} (R : relation A).
Implicit Types (l : list A).

Lemma StronglySorted_sublist l1 l2 :
  l1 `sublist_of` l2 → StronglySorted R l2 → StronglySorted R l1.
Proof.
  induction 1 as [|x l1 l2 Hsub IH|x l1 l2 Hsub IH]; intros Hs; [done|..].
  - apply StronglySorted_inv in Hs as [Hs Hx]. constructor; [by apply IH|].
    eapply Forall_forall. intros y Hy. eapply Forall_forall in Hx; [done|].
    by eapply elem_of_sublist.
  - apply StronglySorted_inv in Hs as [Hs _]. by apply IH.
Qed.

Lemma StronglySorted_window limit offset l :
  StronglySorted R l → StronglySorted R (window limit offset l).
Proof. apply StronglySorted_sublist, window_sublist. Qed.

Lemma StronglySorted_filter (P : A → Prop) `{∀ x, Decision (P x)} l :
  StronglySorted R l → StronglySorted R (filter P l).
Proof. apply StronglySorted_sublist, sublist_filter. Qed.
End sorted.

Lemma length_omap_le {A B} (f : A → option B) (l : list A) :
  length (omap f l) ≤ length l.
Proof.
  induction l as [|x l IH]; [done|].
  change (omap f (x :: l)) with (from_option (λ y, y :: omap f l) (omap f l) (f x)).
  destruct (f x); simpl; lia.
Qed.

(** [omap] keeps a list sorted when what it keeps is related as its source. *)
Lemma StronglySorted_omap {A B} (RA : relation A) (RB : relation B)
    (f : A → option B) (l : list A) :
  (∀ x y x' y', f x = Some x' → f y = Some y' → RA x y → RB x' y') →
  StronglySorted RA l → StronglySorted RB (omap f l).
Proof.
  intros Hf. induction 1 as [|x l Hl IH Hx]; simpl; [constructor|].
  destruct (f x) as [x'|] eqn:Ex; [|done]. constructor; [done|].
  apply Forall_forall. intros y' (y & Hy & Ey)%list_elem_of_omap.
  eapply Hf; [done..|]. by eapply Forall_forall in Hx.
Qed.

Lemma filter_none {A} (P : A → Prop) `{∀ x, Decision (P x)} (l : list A) :
  Forall (λ x, ¬ P x) l → filter P l = [].
Proof.
  induction 1 as [|x l Hx _ IH]; [done|]. rewrite filter_cons.
  by rewrite decide_False.
Qed.

Lemma filter_all {A} (P : A → Prop) `{∀ x, Decision (P x)} (l : list A) :
  Forall P l → filter P l = l.
Proof.
  induction 1 as [|x l Hx _ IH]; [done|]. rewrite filter_cons.
  rewrite decide_True by done. by f_equal.
Qed.

(** A list sorted by an integer key splits at any value of the key into the
    elements up to it followed by the elements above it. *)
Lemma sorted_split_at {A} (key : A → Z) (c : Z) (l : list A) :
  StronglySorted (λ x y, key x ≤ key y)%Z l →
  l = filter (λ x, key x ≤ c)%Z l ++ filter (λ x, c < key x)%Z l.
Proof.
  induction 1 as [|x l Hl IH Hx]; [done|].
  rewrite !filter_cons. destruct (decide (key x ≤ c)%Z) as [Hc|Hc].
  - rewrite decide_False by lia. simpl. by f_equal.
  - rewrite decide_True by lia.
    assert (filter (λ x, key x ≤ c)%Z l = []) as Hnil.
    { apply filter_none. eapply Forall_impl; [done|]. simpl. lia. }
    rewrite Hnil in *. simpl in *. by f_equal.
Qed.

(** Changing the order of a sorted list for one that agrees with it on the
    elements of the list. *)
Lemma StronglySorted_impl_on {A} (R R' : relation A) (P : A → Prop) (l : list A) :
  (∀ x y, P x → P y → R x y → R' x y) → Forall P l →
  StronglySorted R l → StronglySorted R' l.
Proof.
  intros HR HP. induction 1 as [|x l Hl IH Hx]; [constructor|].
  apply Forall_cons in HP as [Px HP]. constructor; [by apply IH|].
  rewrite Forall_forall in *. eauto.
Qed.

Lemma StronglySorted_app_l {A} (R : relation A) (l1 l2 : list A) :
  StronglySorted R (l1 ++ l2) → StronglySorted R l1.
Proof. apply StronglySorted_sublist, sublist_inserts_r. reflexivity. Qed.

Lemma fmap_concat {A B} (f : A → B) (ls : list (list A)) :
  f <$> concat ls = concat ((λ l : list A, f <$> l) <$> ls).
Proof. induction ls as [|l ls IH]; simpl; [done|]. by rewrite fmap_app, IH. Qed.

Lemma Forall_window {A} (P : A → Prop) limit offset (l : list A) :
  Forall P l → Forall P (window limit offset l).
Proof.
  rewrite !Forall_forall. intros Hl x Hx. apply Hl.
  eapply elem_of_sublist; [done|apply window_sublist].
Qed.

Lemma filter_concat {A} (P : A → Prop) `{∀ x, Decision (P x)} (ls : list (list A)) :
  filter P (concat ls) = concat ((λ l : list A, filter P l) <$> ls).
Proof. induction ls as [|l ls IH]; simpl; [done|]. by rewrite filter_app, IH. Qed.

Lemma elem_of_concat {A} (x : A) (ls : list (list A)) :
  x ∈ concat ls ↔ ∃ l, l ∈ ls ∧ x ∈ l.
Proof.
  induction ls as [|l ls IH]; simpl.
  - split; [by intros ?%elem_of_nil|by intros (? & ?%elem_of_nil & _)].
  - rewrite elem_of_app, IH. setoid_rewrite elem_of_cons. naive_solver.
Qed.

Lemma forallb_Forall {A} (f : A → bool) (l : list A) :
  forallb f l = true ↔ Forall (λ x, f x = true) l.
Proof.
  induction l as [|x l IH]; simpl; [by split|].
  rewrite andb_true_iff, IH, Forall_cons. done.
Qed.
