(* ===== verification/GoInt.v ===== *)
(** * Go's [int] on a 64-bit platform

    [src/backend/main.go] computes the page offset and the page count on
    values of Go type [int]. On the platforms the server is built for, [int]
    is a 64-bit two's complement integer: addition, subtraction and
    multiplication wrap around silently, and [/] truncates toward zero.
    An [int] is modelled as a [Z] in the range [int_min .. int_max]; every
    operation is the mathematical one followed by [wrap]. *)

From S2P Require Import Prelude.

#[local] Open Scope Z_scope.

Definition int_min : Z := - 2 ^ 63.
Definition int_max : Z := 2 ^ 63 - 1.

Definition in_int (z : Z) : Prop := int_min ≤ z ≤ int_max.

#[export] Instance in_int_dec z : Decision (in_int z).
Proof. unfold in_int. apply _. Defined.

(** Reduction to the signed 64-bit range. *)
Definition wrap (z : Z) : Z := (z + 2 ^ 63) `mod` 2 ^ 64 - 2 ^ 63.

Definition int_add (a b : Z) : Z := wrap (a + b).
Definition int_sub (a b : Z) : Z := wrap (a - b).
Definition int_mul (a b : Z) : Z := wrap (a * b).
(** Go's [/] on integers truncates toward zero (the divisor is never zero
    where the program divides). *)
Definition int_div (a b : Z) : Z := wrap (a `quot` b).

(** [int_lia] decides linear goals over the operations of this file: it
    exposes the bounds as numerals and gives [lia] the equations of the
    divisions. *)
Ltac int_lia :=
  unfold in_int, int_add, int_sub, int_mul, int_div, wrap, int_min, int_max in *;
  Z.div_mod_to_equations; lia.

Lemma wrap_in_int z : in_int (wrap z).
Proof. int_lia. Qed.

Lemma wrap_id z : in_int z → wrap z = z.
Proof. int_lia. Qed.

Lemma wrap_id_iff z : wrap z = z ↔ in_int z.
Proof. split; [intros <-; apply wrap_in_int | apply wrap_id]. Qed.

Lemma wrap_congr z : (wrap z - z) `mod` 2 ^ 64 = 0.
Proof. int_lia. Qed.

(** ** Operations that do not overflow are the mathematical ones *)

Lemma int_add_exact a b : in_int (a + b) → int_add a b = a + b.
Proof. apply wrap_id. Qed.

Lemma int_sub_exact a b : in_int (a - b) → int_sub a b = a - b.
Proof. apply wrap_id. Qed.

Lemma int_mul_exact a b : in_int (a * b) → int_mul a b = a * b.
Proof. apply wrap_id. Qed.

Lemma int_div_exact a b : 0 ≤ a → in_int a → 0 < b → int_div a b = a / b.
Proof.
  intros Ha Hr Hb. unfold int_div. rewrite Z.quot_div_nonneg by lia.
  apply wrap_id. unfold in_int, int_min, int_max in *.
  pose proof (Z.div_le_upper_bound a b a ltac:(lia) ltac:(nia)).
  pose proof (Z.div_pos a b ltac:(lia) ltac:(lia)). lia.
Qed.

Lemma int_mul_overflow_iff a b : int_mul a b = a * b ↔ in_int (a * b).
Proof. apply wrap_id_iff. Qed.

(** ** Rounding a quotient up

    [(t + s - 1) / s] is the least [n] with [t ≤ n * s]. *)

Lemma ceil_div_spec t s n :
  0 < s → ((t + s - 1) / s = n ↔ (n - 1) * s < t ≤ n * s).
Proof.
  intros Hs. split.
  - intros <-. pose proof (Z.div_mod (t + s - 1) s ltac:(lia)).
    pose proof (Z.mod_pos_bound (t + s - 1) s Hs). nia.
  - intros [H1 H2]. symmetry. apply (Z.div_unique _ _ _ (t + s - 1 - s * n)); lia.
Qed.

Lemma ceil_div_nonneg t s : 0 ≤ t → 0 < s → 0 ≤ (t + s - 1) / s.
Proof. intros. apply Z.div_pos; lia. Qed.

Lemma ceil_div_zero_iff t s : 0 ≤ t → 0 < s → ((t + s - 1) / s = 0 ↔ t = 0).
Proof. intros. rewrite ceil_div_spec by done. lia. Qed.

(** ** Intermediate overflow cancels

    The operations are the ring operations modulo [2 ^ 64]: a sum or
    difference whose mathematical value fits is exact even when a partial
    result wrapped. *)

Lemma wrap_wrap_l a b : wrap (wrap a + b) = wrap (a + b).
Proof.
  unfold wrap. f_equal.
  replace (a + b + 2 ^ 63) with ((a + 2 ^ 63) + b) by lia.
  rewrite <-(Z.add_mod_idemp_l (a + 2 ^ 63)) by done.
  f_equal. lia.
Qed.

Lemma int_sub_add a b c : int_sub (int_add a b) c = wrap (a + b - c).
Proof. unfold int_sub, int_add. apply (wrap_wrap_l (a + b) (- c)). Qed.

Lemma wrap_mul_l a b : wrap (wrap a * b) = wrap (a * b).
Proof.
  unfold wrap. f_equal.
  rewrite <-(Z.add_mod_idemp_l ((_ - _) * b)), <-(Z.add_mod_idemp_l (a * b)) by done.
  f_equal. f_equal. rewrite Z.mul_sub_distr_r.
  rewrite <-Zminus_mod_idemp_l, <-Zmult_mod_idemp_l, Z.mod_mod by done.
  rewrite Zmult_mod_idemp_l, Zminus_mod_idemp_l. f_equal. lia.
Qed.

Lemma wrap_period a k : wrap (a + k * 2 ^ 64) = wrap a.
Proof.
  unfold wrap. f_equal.
  replace (a + k * 2 ^ 64 + 2 ^ 63) with (a + 2 ^ 63 + k * 2 ^ 64) by lia.
  by rewrite Z.mod_add.
Qed.

Lemma int_mul_sub a b c : int_mul (int_sub a b) c = wrap ((a - b) * c).
Proof. unfold int_mul, int_sub. apply wrap_mul_l. Qed.
