(* ===== verification/Decimal.v ===== *)
(** * Integers as decimal text: Go's [strconv]

    The program turns integers into text and text into integers at its
    borders. [getQueue] writes the page size and the offset into the query
    with [fmt.Sprintf(" LIMIT %d OFFSET %d", ...)] ([src/backend/main.go],
    line 194), and the framework fills the fields [Page] and [PageSize] of
    [PaginationParams] (lines 33-37) from the query string with
    [strconv.ParseInt].

    This file models both directions on 64-bit integers, following the loops
    of the Go library: [format_digits] is the digit loop of
    [strconv.formatBits] (divide by ten until one digit is left),
    [parse_digits] the loop of [strconv.ParseUint] with its overflow test.
    The digit loop is not structurally recursive; it is defined by
    well-founded recursion on the binary logarithm of its argument.

    The lemmas: parsing reads back what formatting writes
    ([ParseInt_FormatInt_in_int]); parsing is the reference reading of a
    digit string ([digits_value]) restricted to the range of [int64]
    ([parse_digits_value], [ParseInt_range]); the text of a 64-bit number
    has at most twenty digits ([format_uint_length_max]). *)

From Equations Require Import Equations.
From Stdlib Require Import Ascii.
From S2P Require Import Prelude GoInt.

#[local] Open Scope Z_scope.

(** ** Digits *)

Definition digit_char (d : Z) : ascii := ascii_of_nat (48 + Z.to_nat d).

Definition digit_value (c : ascii) : option Z :=
  let n := Z.of_nat (nat_of_ascii c) in
  if decide (48 ≤ n ≤ 57) then Some (n - 48) else None.

(** ** Formatting *)

(** The digit loop of [formatBits]: the digits of [u] from the least
    significant one, each written before those already in [acc]. *)
Equations? format_digits (u : Z) (acc : string) : string
  by wf (Z.to_nat (Z.log2 u)) lt :=
format_digits u acc with decide (10 ≤ u) => {
  | left _ =>
      format_digits (u `div` 10) (String (digit_char (u `mod` 10)) acc);
  | right _ => String (digit_char u) acc }.
Proof.
  apply Z2Nat.inj_lt; [apply Z.log2_nonneg..|].
  apply Z.log2_lt_pow2; [Z.div_mod_to_equations; lia|].
  destruct (Z.log2_spec u) as [_ Hu]; [lia|].
  rewrite Z.pow_succ_r in Hu by apply Z.log2_nonneg.
  Z.div_mod_to_equations; lia.
Qed.

(** [strconv.FormatUint(u, 10)]. *)
Definition format_uint (u : Z) : string := format_digits u "".

(** [strconv.FormatInt(i, 10)], which is what the verb [%d] prints. *)
Definition FormatInt (i : Z) : string :=
  if decide (i < 0) then String "-" (format_uint (- i)) else format_uint i.

(** ** Parsing *)

Inductive num_error : Type :=
| ErrSyntax   (* strconv.ErrSyntax: not a number *)
| ErrRange.   (* strconv.ErrRange: a number out of range *)

#[export] Instance num_error_eq_dec : EqDecision num_error.
Proof. solve_decision. Defined.

(** The loop of [ParseUint]: the value read so far is [n]; the loop ends
    at the first character that is no digit and at the first digit that
    takes the value out of 64 bits. *)
Fixpoint parse_digits (n : Z) (s : string) : result num_error Z :=
  match s with
  | EmptyString => Ok n
  | String c s' =>
      match digit_value c with
      | None => Err ErrSyntax
      | Some d =>
          if decide (2 ^ 64 ≤ n * 10 + d) then Err ErrRange
          else parse_digits (n * 10 + d) s'
      end
  end.

(** [strconv.ParseUint(s, 10, 64)]. *)
Definition ParseUint (s : string) : result num_error Z :=
  if decide (s = "") then Err ErrSyntax else parse_digits 0 s.

(** [strconv.ParseInt(s, 10, 64)]: an optional sign, then [ParseUint], then
    the range of [int64]. *)
Definition ParseInt (s : string) : result num_error Z :=
  match s with
  | EmptyString => Err ErrSyntax
  | String c s' =>
      let neg := bool_decide (c = "-"%char) in
      let digits := if decide (c = "+"%char ∨ c = "-"%char) then s' else s in
      un <- ParseUint digits ;;
      if neg then (if decide (2 ^ 63 < un) then Err ErrRange else Ok (- un))
      else (if decide (2 ^ 63 ≤ un) then Err ErrRange else Ok un)
  end.

(** ** Reference reading of a digit string *)

(** The number a string of digits denotes, without a bound. *)
Fixpoint digits_value (n : Z) (s : string) : option Z :=
  match s with
  | EmptyString => Some n
  | String c s' => d ← digit_value c; digits_value (n * 10 + d) s'
  end.

(** A string of digits. *)
Fixpoint digits_only (s : string) : bool :=
  match s with
  | EmptyString => true
  | String c s' => bool_decide (is_Some (digit_value c)) && digits_only s'
  end.

(** ** Digits *)

Lemma digit_value_char d : 0 ≤ d < 10 → digit_value (digit_char d) = Some d.
Proof.
  intros Hd.
  assert (d = 0 ∨ d = 1 ∨ d = 2 ∨ d = 3 ∨ d = 4 ∨ d = 5 ∨ d = 6 ∨ d = 7
          ∨ d = 8 ∨ d = 9) as Hcases by lia.
  destruct_or!; by subst.
Qed.

Lemma digit_value_Some c d :
  digit_value c = Some d → 0 ≤ d < 10 ∧ digit_char d = c.
Proof.
  unfold digit_value, digit_char. intros Hc. case_decide; simplify_eq.
  split; [lia|].
  replace (48 + Z.to_nat (Z.of_nat (nat_of_ascii c) - 48))%nat
    with (nat_of_ascii c) by lia.
  apply ascii_nat_embedding.
Qed.

Lemma digit_value_sign c : c = "+"%char ∨ c = "-"%char → digit_value c = None.
Proof. by intros [-> | ->]. Qed.

(** ** The digit loop *)

Lemma format_digits_eq u acc :
  format_digits u acc
  = if decide (10 ≤ u)
    then format_digits (u `div` 10) (String (digit_char (u `mod` 10)) acc)
    else String (digit_char u) acc.
Proof. rewrite format_digits_equation_1. by destruct (decide (10 ≤ u)). Qed.

(** Induction along the loop: a property of [u] and the digits still to
    write follows from the property after one more turn. *)
Lemma digit_loop_ind (P : Z → Prop) :
  (∀ u, 0 ≤ u < 10 → P u) →
  (∀ u, 10 ≤ u → P (u `div` 10) → P u) →
  ∀ u, 0 ≤ u → P u.
Proof.
  intros Hbase Hstep u Hu. pattern u.
  apply Zlt_0_ind; [|done]; clear u Hu. intros u IH Hu.
  destruct (decide (10 ≤ u)); [|apply Hbase; lia].
  apply Hstep; [done|]. apply IH; Z.div_mod_to_equations; lia.
Qed.

(** The text of a number begins with a digit. *)
Lemma format_digits_head u acc :
  0 ≤ u → ∃ c s, format_digits u acc = String c s ∧ is_Some (digit_value c).
Proof.
  intros Hu. revert acc. pattern u. apply digit_loop_ind; [| |done]; clear u Hu.
  - intros u Hu acc. rewrite format_digits_eq, decide_False by lia.
    eexists _, _. split; [done|]. by rewrite digit_value_char.
  - intros u Hu IH acc. rewrite format_digits_eq, decide_True by done.
    apply IH.
Qed.

Lemma format_uint_nonempty u : 0 ≤ u → format_uint u ≠ "".
Proof.
  intros Hu E. destruct (format_digits_head u "" Hu) as (c & s & Hc & _).
  unfold format_uint in E. congruence.
Qed.

(** ** Parsing reads back what formatting writes *)

Lemma parse_digits_step n d s :
  0 ≤ d < 10 → n * 10 + d < 2 ^ 64 →
  parse_digits n (String (digit_char d) s) = parse_digits (n * 10 + d) s.
Proof.
  intros Hd Hn. cbn [parse_digits]. rewrite digit_value_char by done.
  by rewrite decide_False by lia.
Qed.

Lemma parse_format_digits u acc :
  0 ≤ u < 2 ^ 64 → parse_digits 0 (format_digits u acc) = parse_digits u acc.
Proof.
  intros [Hu Hmax]. revert acc Hmax. pattern u.
  apply digit_loop_ind; [| |done]; clear u Hu.
  - intros u Hu acc Hmax. rewrite format_digits_eq, decide_False by lia.
    by rewrite parse_digits_step by lia.
  - intros u Hu IH acc Hmax. rewrite format_digits_eq, decide_True by done.
    rewrite IH by (Z.div_mod_to_equations; lia).
    rewrite parse_digits_step by (Z.div_mod_to_equations; lia).
    f_equal. Z.div_mod_to_equations; lia.
Qed.

Lemma ParseUint_format_uint u :
  0 ≤ u < 2 ^ 64 → ParseUint (format_uint u) = Ok u.
Proof.
  intros Hu. unfold ParseUint.
  rewrite decide_False by (apply format_uint_nonempty; lia).
  unfold format_uint. by rewrite parse_format_digits.
Qed.

(** [ParseInt] on a text without a sign is [ParseUint] and the range. *)
Lemma ParseInt_unsigned s :
  (∃ c rest, s = String c rest ∧ is_Some (digit_value c)) →
  ParseInt s
  = (un <- ParseUint s ;;
     if decide (2 ^ 63 ≤ un) then Err ErrRange else Ok un).
Proof.
  intros (c & rest & -> & Hc). cbn [ParseInt].
  assert (¬ (c = "+"%char ∨ c = "-"%char)) as Hsign.
  { intros Hs%digit_value_sign. rewrite Hs in Hc. by destruct Hc. }
  rewrite decide_False by done. rewrite bool_decide_false by tauto. done.
Qed.

Lemma ParseInt_FormatInt_in_int i : in_int i → ParseInt (FormatInt i) = Ok i.
Proof.
  unfold in_int, int_min, int_max, FormatInt. intros Hi. case_decide.
  - cbn [ParseInt]. rewrite decide_True by (by right).
    rewrite bool_decide_true by done.
    rewrite ParseUint_format_uint by lia. simpl.
    rewrite decide_False by lia. f_equal. lia.
  - rewrite ParseInt_unsigned by (apply format_digits_head; lia).
    rewrite ParseUint_format_uint by lia. simpl.
    by rewrite decide_False by lia.
Qed.

(** ** Parsing against the reference reading *)

Lemma digits_value_mono n s v : 0 ≤ n → digits_value n s = Some v → n ≤ v.
Proof.
  revert n. induction s as [|c s IH]; intros n Hn Hv; simplify_eq/=; [done|].
  destruct (digit_value c) as [d|] eqn:Hd; simplify_eq/=.
  apply digit_value_Some in Hd as [Hd _]. apply IH in Hv; lia.
Qed.

(** On a string of digits the loop of [ParseUint] computes the reference
    value when that value fits 64 bits, and reports a range error when it
    does not. *)
Lemma parse_digits_value n s v :
  0 ≤ n < 2 ^ 64 → digits_value n s = Some v →
  parse_digits n s = if decide (v < 2 ^ 64) then Ok v else Err ErrRange.
Proof.
  revert n. induction s as [|c s IH]; intros n Hn Hv; simplify_eq/=.
  { by rewrite decide_True by lia. }
  destruct (digit_value c) as [d|] eqn:Hd; simplify_eq/=.
  pose proof Hd as [Hd' _]%digit_value_Some.
  destruct (decide (2 ^ 64 ≤ n * 10 + d)) as [Hov|Hov]; [|apply IH; [lia|done]].
  apply digits_value_mono in Hv; [|lia]. by rewrite decide_False by lia.
Qed.

Lemma parse_digits_Ok n s v :
  parse_digits n s = Ok v → digits_value n s = Some v.
Proof.
  revert n. induction s as [|c s IH]; intros n Hp; simplify_eq/=; [done|].
  destruct (digit_value c) as [d|]; simplify_eq/=.
  case_decide; simplify_eq. by apply IH.
Qed.

Lemma parse_digits_range n s v :
  0 ≤ n < 2 ^ 64 → parse_digits n s = Ok v → 0 ≤ v < 2 ^ 64.
Proof.
  intros Hn Hp. pose proof (parse_digits_Ok _ _ _ Hp) as Hv.
  rewrite (parse_digits_value n s v) in Hp by done.
  case_decide; simplify_eq. apply digits_value_mono in Hv; lia.
Qed.

Lemma ParseInt_range s i : ParseInt s = Ok i → in_int i.
Proof.
  unfold in_int, int_min, int_max. destruct s as [|c s]; [done|].
  cbn [ParseInt]. unfold ParseUint.
  destruct (decide (_ = "")); [done|].
  destruct (parse_digits 0 _) as [un|e] eqn:Hp; [|done].
  apply parse_digits_range in Hp; [|lia]. simpl.
  destruct (bool_decide _); intros; repeat case_decide; simplify_eq; lia.
Qed.

Lemma digits_value_format u acc :
  0 ≤ u → digits_value 0 (format_digits u acc) = digits_value u acc.
Proof.
  intros Hu. revert acc. pattern u. apply digit_loop_ind; [| |done]; clear u Hu.
  - intros u Hu acc. rewrite format_digits_eq, decide_False by lia.
    cbn [digits_value]. by rewrite digit_value_char.
  - intros u Hu IH acc. rewrite format_digits_eq, decide_True by done.
    rewrite IH. cbn [digits_value].
    rewrite digit_value_char by (Z.div_mod_to_equations; lia). simpl.
    f_equal. Z.div_mod_to_equations; lia.
Qed.

Lemma digits_value_format_uint u : 0 ≤ u → digits_value 0 (format_uint u) = Some u.
Proof. intros Hu. unfold format_uint. by rewrite digits_value_format. Qed.

Lemma digits_only_format u acc :
  0 ≤ u → digits_only acc = true → digits_only (format_digits u acc) = true.
Proof.
  intros Hu. revert acc. pattern u. apply digit_loop_ind; [| |done]; clear u Hu.
  - intros u Hu acc Hacc. rewrite format_digits_eq, decide_False by lia.
    cbn [digits_only]. rewrite digit_value_char by done.
    by rewrite bool_decide_true.
  - intros u Hu IH acc Hacc. rewrite format_digits_eq, decide_True by done.
    apply IH. cbn [digits_only].
    rewrite digit_value_char by (Z.div_mod_to_equations; lia).
    by rewrite bool_decide_true.
Qed.

Lemma digits_only_format_uint u : 0 ≤ u → digits_only (format_uint u) = true.
Proof. intros Hu. by apply digits_only_format. Qed.

(** ** The length of the text *)

Lemma format_digits_length (k : nat) u acc :
  0 ≤ u < 10 ^ Z.of_nat (S k) →
  (String.length (format_digits u acc) ≤ S k + String.length acc)%nat.
Proof.
  revert u acc. induction k as [|k IH]; intros u acc Hu;
    rewrite format_digits_eq.
  - rewrite decide_False by (change (10 ^ Z.of_nat 1) with 10 in Hu; lia).
    simpl. lia.
  - case_decide; [|simpl; lia].
    etransitivity; [apply IH|simpl; lia].
    rewrite Nat2Z.inj_succ, Z.pow_succ_r in Hu by lia.
    Z.div_mod_to_equations; lia.
Qed.

Lemma format_uint_length_max u :
  0 ≤ u < 2 ^ 64 → (String.length (format_uint u) ≤ 20)%nat.
Proof.
  intros Hu. unfold format_uint.
  etransitivity; [apply (format_digits_length 19); simpl; lia|simpl; lia].
Qed.

#[export] Hint Rewrite ParseUint_format_uint ParseInt_FormatInt_in_int
  using (unfold in_int, int_min, int_max in *; lia) : str.

(** ** Examples *)

Example FormatInt_examples :
  FormatInt 0 = "0" ∧ FormatInt 10 = "10" ∧ FormatInt (-7) = "-7"
  ∧ FormatInt int_max = "9223372036854775807"
  ∧ FormatInt int_min = "-9223372036854775808".
Proof. by vm_compute. Qed.

Example ParseInt_examples :
  ParseInt "42" = Ok 42 ∧ ParseInt "+42" = Ok 42 ∧ ParseInt "-0" = Ok 0
  ∧ ParseInt "007" = Ok 7 ∧ ParseInt "" = Err ErrSyntax
  ∧ ParseInt "-" = Err ErrSyntax ∧ ParseInt "4 2" = Err ErrSyntax
  ∧ ParseInt "1e3" = Err ErrSyntax ∧ ParseInt "0x10" = Err ErrSyntax
  ∧ ParseInt "9223372036854775807" = Ok int_max
  ∧ ParseInt "9223372036854775808" = Err ErrRange
  ∧ ParseInt "-9223372036854775808" = Ok int_min
  ∧ ParseInt "99999999999999999999x" = Err ErrRange.
Proof. by vm_compute. Qed.
