(* ===== verification/Config.v ===== *)
(** * The connection string

    [initDB] ([src/backend/main.go], lines 43-54) builds the data source
    name of the database from five environment variables with
    [fmt.Sprintf("host=%s port=%s user=%s password=%s dbname=%s
    sslmode=disable", ...)] and hands it to the driver. The values are
    written as they are, unquoted; [os.Getenv] gives the empty string for a
    variable that is not set.

    This file models the text ([dbURL]) and how the driver reads it back
    ([parseOpts], after the option scanner of [lib/pq], which follows
    [libpq]): pairs [key=value] separated by blanks, blanks allowed after
    the [=], a value either quoted or running to the next blank, a
    backslash taking the next character literally.

    The loop of the scanner is not structurally recursive; [parse_pairs]
    takes fuel, [parseOpts] gives it one unit more than the text has
    characters, and [parseOpts_fuel] shows that this is never used up.
    [dbURL_roundtrip] shows that values without blanks, quotes and
    backslashes are read back as they were written; [dbURL_empty_value]
    that a password that is empty or not set makes the driver read the
    next pair as its value. *)

From Stdlib Require Import Ascii.
From S2P Require Import Prelude.

(** ** The text built by the program *)

(** [os.Getenv]. *)
Definition environment : Type := string → string.

(** The data source name (lines 43-54). *)
Definition dbURL (getenv : environment) : string :=
  "host=" +:+ getenv "DB_HOST" +:+ " port=" +:+ getenv "DB_PORT"
  +:+ " user=" +:+ getenv "DB_USER" +:+ " password=" +:+ getenv "DB_PASSWORD"
  +:+ " dbname=" +:+ getenv "DB_NAME" +:+ " sslmode=disable".

(** ** The driver's view *)

Inductive dsn_error : Type :=
| MissingEquals        (* missing "=" after the key *)
| MissingCharacter     (* missing character after backslash *)
| Unterminated         (* unterminated quoted string *)
| OutOfFuel.           (* the bound of the model, never met *)

#[export] Instance dsn_error_eq_dec : EqDecision dsn_error.
Proof. solve_decision. Defined.

(** The blanks of ASCII. *)
Definition is_space (c : ascii) : bool :=
  let n := nat_of_ascii c in
  ((9 <=? n) && (n <=? 13) || (n =? 32))%nat.

Definition backslash : ascii := ascii_of_nat 92.
Definition apostrophe : ascii := ascii_of_nat 39.
Definition equals : ascii := "="%char.

Fixpoint skip_spaces (s : string) : string :=
  match s with
  | String c s' => if is_space c then skip_spaces s' else s
  | EmptyString => EmptyString
  end.

(** The key: the text up to a blank or an [=], and the text from there. *)
Fixpoint scan_key (s : string) : string * string :=
  match s with
  | String c s' =>
      if is_space c || bool_decide (c = equals) then (EmptyString, s)
      else prod_map (String c) id (scan_key s')
  | EmptyString => (EmptyString, EmptyString)
  end.

(** A value that is not quoted: the text up to the next blank, which is
    consumed. *)
Fixpoint scan_plain (s : string) : result dsn_error (string * string) :=
  match s with
  | EmptyString => Ok (EmptyString, EmptyString)
  | String c s' =>
      if is_space c then Ok (EmptyString, s')
      else if decide (c = backslash) then
        match s' with
        | EmptyString => Err MissingCharacter
        | String c' s'' => rmap (prod_map (String c') id) (scan_plain s'')
        end
      else rmap (prod_map (String c) id) (scan_plain s')
  end.

(** A quoted value, after its opening quote. *)
Fixpoint scan_quoted (s : string) : result dsn_error (string * string) :=
  match s with
  | EmptyString => Err Unterminated
  | String c s' =>
      if decide (c = apostrophe) then Ok (EmptyString, s')
      else if decide (c = backslash) then
        match s' with
        | EmptyString => Err Unterminated
        | String c' s'' => rmap (prod_map (String c') id) (scan_quoted s'')
        end
      else rmap (prod_map (String c) id) (scan_quoted s')
  end.

(** The loop of [parseOpts]: one pair per turn, stored after those read
    before it. *)
Fixpoint parse_pairs (fuel : nat) (s : string) (o : list (string * string)) :
    result dsn_error (list (string * string)) :=
  match fuel with
  | O => Err OutOfFuel
  | S fuel' =>
      match skip_spaces s with
      | EmptyString => Ok o
      | s1 =>
          let '(key, s2) := scan_key s1 in
          match skip_spaces s2 with
          | String c s3 =>
              if decide (c = equals) then
                match skip_spaces s3 with
                | EmptyString => Ok (o ++ [(key, EmptyString)])
                | String c' s4 as s5 =>
                    match (if decide (c' = apostrophe) then scan_quoted s4
                           else scan_plain s5) with
                    | Err e => Err e
                    | Ok (value, s6) => parse_pairs fuel' s6 (o ++ [(key, value)])
                    end
                end
              else Err MissingEquals
          | EmptyString => Err MissingEquals
          end
      end
  end.

Definition parseOpts (s : string) : result dsn_error (list (string * string)) :=
  parse_pairs (S (String.length s)) s [].

(** The value of an option: the last one stored under its key. *)
Definition option_value (o : list (string * string)) (key : string) :
    option string :=
  last (filter (λ kv, kv.1 = key) o).*2.

(** ** Reference definitions *)

(** A key as the program writes them: no blank and no [=]. *)
Fixpoint plain_key (s : string) : bool :=
  match s with
  | EmptyString => true
  | String c s' =>
      negb (is_space c) && bool_decide (c ≠ equals) && plain_key s'
  end.

(** Text without a blank and without a backslash. *)
Fixpoint plain_text (s : string) : bool :=
  match s with
  | EmptyString => true
  | String c s' =>
      negb (is_space c) && bool_decide (c ≠ backslash) && plain_text s'
  end.

(** A value that is read back as it is written: not empty, not starting
    with a quote, without blanks and backslashes. *)
Definition plain_value (s : string) : bool :=
  match s with
  | EmptyString => false
  | String c _ => bool_decide (c ≠ apostrophe) && plain_text s
  end.

(** Only blanks. *)
Definition blank (s : string) : Prop := skip_spaces s = "".

(** An environment for the examples. *)
Definition demo_env (name : string) : string :=
  if decide (name = "DB_HOST") then "localhost"
  else if decide (name = "DB_PORT") then "5432"
  else if decide (name = "DB_USER") then "postgres"
  else if decide (name = "DB_PASSWORD") then "secret"
  else if decide (name = "DB_NAME") then "videoqueue"
  else "".

(** The same without a password. *)
Definition demo_env_no_password (name : string) : string :=
  if decide (name = "DB_PASSWORD") then "" else demo_env name.

(** ** The scanner *)

Lemma skip_spaces_app_blank gap s : blank gap → skip_spaces (gap +:+ s) = skip_spaces s.
Proof.
  unfold blank. induction gap as [|c gap IH]; [done|].
  rewrite string_app_cons. simpl. destruct (is_space c); [done|]. discriminate.
Qed.

Lemma skip_spaces_plain c s : is_space c = false → skip_spaces (String c s) = String c s.
Proof. intros Hc. simpl. by rewrite Hc. Qed.

Lemma scan_key_plain key c rest :
  plain_key key = true → is_space c || bool_decide (c = equals) = true →
  scan_key (key +:+ String c rest) = (key, String c rest).
Proof.
  intros Hk Hc. induction key as [|k key IH].
  - rewrite string_app_nil_l. simpl. by rewrite Hc.
  - simpl in Hk. apply andb_prop in Hk as [[Hs He]%andb_prop Hk].
    rewrite string_app_cons. cbn [scan_key].
    apply negb_true_iff in Hs. rewrite Hs.
    rewrite bool_decide_false by (by apply bool_decide_eq_true in He).
    simpl. by rewrite IH.
Qed.

Lemma scan_plain_text v :
  plain_text v = true → scan_plain v = Ok (v, "").
Proof.
  induction v as [|c v IH]; [done|]. simpl.
  intros [[Hs Hb]%andb_prop Hv]%andb_prop.
  apply negb_true_iff in Hs. rewrite Hs.
  rewrite decide_False by (by apply bool_decide_eq_true in Hb).
  by rewrite IH.
Qed.

Lemma scan_plain_text_app v c rest :
  plain_text v = true → is_space c = true →
  scan_plain (v +:+ String c rest) = Ok (v, rest).
Proof.
  intros Hv Hc. induction v as [|k v IH].
  - rewrite string_app_nil_l. simpl. by rewrite Hc.
  - simpl in Hv. apply andb_prop in Hv as [[Hs Hb]%andb_prop Hv].
    rewrite string_app_cons. cbn [scan_plain].
    apply negb_true_iff in Hs. rewrite Hs.
    rewrite decide_False by (by apply bool_decide_eq_true in Hb).
    by rewrite IH.
Qed.

(** The first character of a plain value is no blank and no quote. *)
Lemma plain_value_head v :
  plain_value v = true →
  ∃ c v', v = String c v' ∧ is_space c = false ∧ c ≠ apostrophe
          ∧ plain_text v = true.
Proof.
  destruct v as [|c v']; [done|]. cbn [plain_value].
  intros [Hq Hv]%andb_prop. exists c, v'. split_and!; [done| |..|done].
  - simpl in Hv. apply andb_prop in Hv as [[Hs _]%andb_prop _].
    by apply negb_true_iff.
  - by apply bool_decide_eq_true in Hq.
Qed.

(** ** One turn of the loop *)

Section pairs.
Implicit Types (o : list (string * string)) (key v gap rest : string).

(** A pair followed by a blank: the pair is stored and the loop goes on
    after the blank. *)
Lemma parse_pairs_pair fuel key gap v rest o :
  plain_key key = true → key ≠ "" → blank gap → plain_value v = true →
  parse_pairs (S fuel) (key +:+ "=" +:+ gap +:+ v +:+ " " +:+ rest) o
  = parse_pairs fuel rest (o ++ [(key, v)]).
Proof.
  intros Hk Hne Hg (c & v' & -> & Hs & Hq & Hv)%plain_value_head.
  destruct key as [|k key]; [done|]. clear Hne.
  pose proof Hk as [[Hks _]%andb_prop _]%andb_prop.
  apply negb_true_iff in Hks.
  cbn [parse_pairs]. rewrite string_app_cons, skip_spaces_plain by done.
  rewrite <-string_app_cons.
  change ("=" +:+ ?s) with (String equals s).
  rewrite scan_key_plain by done.
  rewrite skip_spaces_plain by done. rewrite decide_True by done.
  rewrite skip_spaces_app_blank by done.
  rewrite string_app_cons, skip_spaces_plain by done.
  rewrite decide_False by done. rewrite <-string_app_cons.
  change (" " +:+ rest) with (String " " rest).
  by rewrite scan_plain_text_app.
Qed.

(** The last pair of the text. *)
Lemma parse_pairs_last fuel key v o :
  plain_key key = true → key ≠ "" → plain_value v = true →
  parse_pairs (S (S fuel)) (key +:+ "=" +:+ v) o = Ok (o ++ [(key, v)]).
Proof.
  intros Hk Hne (c & v' & -> & Hs & Hq & Hv)%plain_value_head.
  destruct key as [|k key]; [done|]. clear Hne.
  pose proof Hk as [[Hks _]%andb_prop _]%andb_prop.
  apply negb_true_iff in Hks.
  cbn [parse_pairs]. rewrite string_app_cons, skip_spaces_plain by done.
  rewrite <-string_app_cons.
  change ("=" +:+ ?s) with (String equals s).
  rewrite scan_key_plain by done.
  rewrite skip_spaces_plain by done. rewrite decide_True by done.
  rewrite skip_spaces_plain by done.
  rewrite decide_False by done. by rewrite scan_plain_text.
Qed.

End pairs.

(** ** The fuel is enough *)

(** Induction on the length of a text, for the scanners that take two
    characters at a time. *)
Lemma string_length_ind (P : string → Prop) :
  (∀ s, (∀ s', String.length s' < String.length s → P s') → P s) → ∀ s, P s.
Proof.
  intros Hind s.
  apply (well_founded_induction (well_founded_ltof _ String.length)).
  exact Hind.
Qed.

Lemma skip_spaces_length s : String.length (skip_spaces s) ≤ String.length s.
Proof. induction s as [|c s IH]; simpl; [done|]. case_match; simpl; lia. Qed.

Lemma scan_key_length s key rest :
  scan_key s = (key, rest) → String.length rest ≤ String.length s.
Proof.
  revert key rest. induction s as [|c s IH]; intros key rest Hs;
    simplify_eq/=; [done|].
  case_match; simplify_eq/=; [done|].
  destruct (scan_key s) as [k r]. simplify_eq/=. specialize (IH _ _ eq_refl). lia.
Qed.

(** What a scanner of values returns: a remainder that is shorter than the
    text, or an error of its own. *)
Lemma scan_plain_cases s :
  match scan_plain s with
  | Ok (_, rest) => String.length rest ≤ String.length s
  | Err e => e = MissingCharacter
  end.
Proof.
  induction s as [s IH] using string_length_ind.
  destruct s as [|c s]; simpl; [done|]. destruct (is_space c); simpl; [lia|].
  case_decide; [destruct s as [|c' s]; [done|]|];
    (pose proof (IH s) as IHs; destruct (scan_plain s) as [[v r]|e]; simpl in *;
     [assert (String.length r ≤ String.length s) by (apply IHs; lia); lia
     |apply IHs; lia]).
Qed.

Lemma scan_quoted_cases s :
  match scan_quoted s with
  | Ok (_, rest) => String.length rest < String.length s
  | Err e => e = Unterminated
  end.
Proof.
  induction s as [s IH] using string_length_ind.
  destruct s as [|c s]; simpl; [done|]. case_decide; simpl; [lia|].
  case_decide; [destruct s as [|c' s]; [done|]|];
    (pose proof (IH s) as IHs; destruct (scan_quoted s) as [[v r]|e]; simpl in *;
     [assert (String.length r < String.length s) by (apply IHs; lia); lia
     |apply IHs; lia]).
Qed.

Lemma parse_pairs_fuel fuel s o :
  String.length s < fuel → parse_pairs fuel s o ≠ Err OutOfFuel.
Proof.
  revert s o. induction fuel as [|fuel IH]; intros s o Hf; [lia|].
  cbn [parse_pairs]. pose proof (skip_spaces_length s) as H1.
  destruct (skip_spaces s) as [|c1 s1] eqn:E1; [done|].
  destruct (scan_key (String c1 s1)) as [key s2] eqn:E2.
  apply scan_key_length in E2. pose proof (skip_spaces_length s2) as H2.
  destruct (skip_spaces s2) as [|c s3] eqn:E3; [done|].
  case_decide; [|done]. pose proof (skip_spaces_length s3) as H3.
  destruct (skip_spaces s3) as [|c' s4] eqn:E4; [done|].
  pose proof (scan_quoted_cases s4) as Hq.
  pose proof (scan_plain_cases (String c' s4)) as Hp.
  simpl in H1, H2, H3, E2.
  destruct (decide (c' = apostrophe)).
  - destruct (scan_quoted s4) as [[v s6]|err]; [apply IH; lia|by subst].
  - destruct (scan_plain (String c' s4)) as [[v s6]|err];
      [apply IH; simpl in Hp; lia|by subst].
Qed.

Lemma parseOpts_total s : parseOpts s ≠ Err OutOfFuel.
Proof. apply parse_pairs_fuel. lia. Qed.

(** More fuel does not change a result. *)
Lemma parse_pairs_mono fuel fuel' s o r :
  parse_pairs fuel s o = Ok r → fuel ≤ fuel' → parse_pairs fuel' s o = Ok r.
Proof.
  revert fuel' s o. induction fuel as [|fuel IH]; intros fuel' s o Hp Hf;
    [done|]. destruct fuel' as [|fuel']; [lia|].
  cbn [parse_pairs] in *.
  repeat case_match; simplify_eq; try done; (eapply IH; [done|lia]).
Qed.

(** ** The text of the program read back *)

Lemma plain_text_app s t :
  plain_text s = true → plain_text t = true → plain_text (s +:+ t) = true.
Proof.
  intros Hs Ht. induction s as [|c s IH]; [by rewrite string_app_nil_l|].
  rewrite string_app_cons. simpl in *.
  apply andb_prop in Hs as [-> Hs]. by rewrite IH.
Qed.

Lemma plain_value_text v : plain_value v = true → plain_text v = true.
Proof. destruct v; [done|]. by intros [_ ?]%andb_prop. Qed.

Section dsn.
Context (getenv : environment).
Context (Hhost : plain_value (getenv "DB_HOST") = true).
Context (Hport : plain_value (getenv "DB_PORT") = true).
Context (Huser : plain_value (getenv "DB_USER") = true).
Context (Hname : plain_value (getenv "DB_NAME") = true).

Lemma dbURL_length : 7 ≤ S (String.length (dbURL getenv)).
Proof. unfold dbURL. rewrite !string_app_length. simpl. lia. Qed.

Lemma dbURL_plain_values :
  plain_value (getenv "DB_PASSWORD") = true →
  parseOpts (dbURL getenv)
  = Ok [("host", getenv "DB_HOST"); ("port", getenv "DB_PORT");
        ("user", getenv "DB_USER"); ("password", getenv "DB_PASSWORD");
        ("dbname", getenv "DB_NAME"); ("sslmode", "disable")].
Proof.
  intros Hpass. apply parse_pairs_mono with 7; [|apply dbURL_length].
  change (dbURL getenv) with
    ("host" +:+ "=" +:+ "" +:+ getenv "DB_HOST" +:+ " " +:+
     "port" +:+ "=" +:+ "" +:+ getenv "DB_PORT" +:+ " " +:+
     "user" +:+ "=" +:+ "" +:+ getenv "DB_USER" +:+ " " +:+
     "password" +:+ "=" +:+ "" +:+ getenv "DB_PASSWORD" +:+ " " +:+
     "dbname" +:+ "=" +:+ "" +:+ getenv "DB_NAME" +:+ " " +:+
     "sslmode" +:+ "=" +:+ "disable").
  rewrite !parse_pairs_pair by done. by apply parse_pairs_last.
Qed.

Lemma dbURL_empty_password :
  getenv "DB_PASSWORD" = "" →
  parseOpts (dbURL getenv)
  = Ok [("host", getenv "DB_HOST"); ("port", getenv "DB_PORT");
        ("user", getenv "DB_USER");
        ("password", "dbname=" +:+ getenv "DB_NAME"); ("sslmode", "disable")].
Proof.
  intros Hpass. apply parse_pairs_mono with 7; [|apply dbURL_length].
  unfold dbURL. rewrite Hpass.
  change ("host=" +:+ ?h +:+ " port=" +:+ ?p +:+ " user=" +:+ ?u
          +:+ " password=" +:+ "" +:+ " dbname=" +:+ ?n +:+ " sslmode=disable")
    with
    ("host" +:+ "=" +:+ "" +:+ h +:+ " " +:+
     "port" +:+ "=" +:+ "" +:+ p +:+ " " +:+
     "user" +:+ "=" +:+ "" +:+ u +:+ " " +:+
     "password" +:+ "=" +:+ " " +:+ ("dbname=" +:+ n) +:+ " " +:+
     "sslmode" +:+ "=" +:+ "disable").
  assert (plain_value ("dbname=" +:+ getenv "DB_NAME") = true) as Hshift.
  { apply andb_true_intro. split; [done|].
    by apply (plain_text_app "dbname="), plain_value_text. }
  rewrite !parse_pairs_pair by done. by apply parse_pairs_last.
Qed.

End dsn.

(** ** Theorems *)

(** C37. Round trip of the connection parameters: when the five variables
    hold values without blanks and backslashes that are not empty and do
    not start with a quote, the driver reads in the text of the program
    exactly these values for [host], [port], [user], [password] and
    [dbname], and [disable] for [sslmode]. *)
Theorem dbURL_roundtrip (getenv : environment) :
  (∀ name, name ∈ ["DB_HOST"; "DB_PORT"; "DB_USER"; "DB_PASSWORD"; "DB_NAME"] →
           plain_value (getenv name) = true) →
  parseOpts (dbURL getenv)
  = Ok [("host", getenv "DB_HOST"); ("port", getenv "DB_PORT");
        ("user", getenv "DB_USER"); ("password", getenv "DB_PASSWORD");
        ("dbname", getenv "DB_NAME"); ("sslmode", "disable")].
Proof. intros Hp. apply dbURL_plain_values; apply Hp; set_solver. Qed.

(** C38. A password that is empty, or a variable [DB_PASSWORD] that is not
    set, shifts the pairs: the driver skips the blank after [password=]
    and reads the next pair as the password, so that no database name is
    given. *)
Theorem dbURL_empty_value (getenv : environment) :
  (∀ name, name ∈ ["DB_HOST"; "DB_PORT"; "DB_USER"; "DB_NAME"] →
           plain_value (getenv name) = true) →
  getenv "DB_PASSWORD" = "" →
  ∃ o, parseOpts (dbURL getenv) = Ok o
       ∧ option_value o "password" = Some ("dbname=" +:+ getenv "DB_NAME")
       ∧ option_value o "dbname" = None.
Proof.
  intros Hp Hpass. eexists. split.
  - apply dbURL_empty_password; [apply Hp; set_solver..|done].
  - done.
Qed.

(** Termination: the loop of the scanner ends on every text within
    the fuel [parseOpts] gives it. *)
Theorem parseOpts_fuel s : parseOpts s ≠ Err OutOfFuel.
Proof. apply parseOpts_total. Qed.

Lemma dbURL_roundtrip_witness :
  parseOpts (dbURL demo_env)
  = Ok [("host", demo_env "DB_HOST"); ("port", demo_env "DB_PORT");
        ("user", demo_env "DB_USER"); ("password", demo_env "DB_PASSWORD");
        ("dbname", demo_env "DB_NAME"); ("sslmode", "disable")].
Proof.
  apply (dbURL_roundtrip demo_env). intros name Hn.
  set_unfold. destruct_or!; subst; done.
Defined.

Lemma dbURL_empty_value_witness :
  ∃ o, parseOpts (dbURL demo_env_no_password) = Ok o
       ∧ option_value o "password"
         = Some ("dbname=" +:+ demo_env_no_password "DB_NAME")
       ∧ option_value o "dbname" = None.
Proof.
  apply (dbURL_empty_value demo_env_no_password).
  - intros name Hn. set_unfold. destruct_or!; subst; done.
  - done.
Defined.

(** ** Examples *)

Example dbURL_example :
  dbURL demo_env
  = "host=localhost port=5432 user=postgres password=secret dbname=videoqueue sslmode=disable".
Proof. reflexivity. Qed.

(** A password with a blank: its second word is read as a key. A quoted
    value may hold blanks. *)
Example parseOpts_examples :
  parseOpts "password=my secret dbname=videoqueue" = Err MissingEquals
  ∧ parseOpts "password='my secret' dbname=videoqueue"
    = Ok [("password", "my secret"); ("dbname", "videoqueue")]
  ∧ parseOpts "password = secret" = Ok [("password", "secret")]
  ∧ parseOpts "password='secret" = Err Unterminated
  ∧ parseOpts "host=" = Ok [("host", "")].
Proof. by vm_compute. Qed.
