(* ===== verification/Sql.v ===== *)
(** * The text of the queue queries and what PostgreSQL reads in it

    [getQueue] builds its two queries by string concatenation: the status
    filter of the request is spliced between single quotes into a [WHERE]
    clause ([src/backend/main.go], lines 171-177). This file models the
    clause as the text the code builds ([whereClause]) and, separately, how a
    PostgreSQL lexer with [standard_conforming_strings = on] reads that text
    back ([lex_literal], [interp_where]): a string constant runs to the first
    quote that is not doubled, and a doubled quote stands for one quote.

    The theorems relate the two: for a status without a quote the clause
    means "status equals that string", and for no other status does it. *)

From Stdlib Require Import Ascii.
From S2P Require Import Prelude Decimal.

(** ** The text built by the code *)

Definition baseQuery : string :=
  "SELECT id, path, resolution, bitrate, status, original_size FROM videos".

Definition countQuery : string := "SELECT COUNT(*) FROM videos".

Definition whereClause (Status : string) : string :=
  if decide (Status = "") then "" else " WHERE status = '" +:+ Status +:+ "'".

(** The [ORDER BY] of the page query (lines 189-193). *)
Definition orderClause : string :=
  " ORDER BY CASE status " +:+
  "WHEN 'processing' THEN 1 " +:+
  "WHEN 'pending' THEN 2 " +:+
  "WHEN 'completed' THEN 3 " +:+
  "ELSE 4 END, path".

(** [fmt.Sprintf(" LIMIT %d OFFSET %d", params.PageSize, offset)]
    (line 194). *)
Definition limitClause (PageSize offset : Z) : string :=
  " LIMIT " +:+ FormatInt PageSize +:+ " OFFSET " +:+ FormatInt offset.

(** The page query (lines 188-194). *)
Definition pageQuery (Status : string) (PageSize offset : Z) : string :=
  baseQuery +:+ whereClause Status +:+ orderClause +:+ limitClause PageSize offset.

(** ** The lexer's view *)

Definition quote : Ascii.ascii := Ascii.ascii_of_nat 39.

Arguments quote : simpl never.

Definition where_prefix : string := " WHERE status = '".

Fixpoint strip_prefix (p s : string) : option string :=
  match p, s with
  | EmptyString, _ => Some s
  | String a p', String b s' =>
      if decide (a = b) then strip_prefix p' s' else None
  | String _ _, EmptyString => None
  end.

(** [lex_literal s] reads a string constant whose opening quote has been
    consumed: it returns the constant's value and the text after its closing
    quote, or [None] when the text ends inside the constant. *)
Fixpoint lex_literal (s : string) : option (string * string) :=
  match s with
  | EmptyString => None
  | String c s' =>
      if decide (c = quote) then
        match s' with
        | String c' s'' =>
            if decide (c' = quote)
            then prod_map (String quote) id <$> lex_literal s''
            else Some (EmptyString, s')
        | EmptyString => Some (EmptyString, EmptyString)
        end
      else prod_map (String c) id <$> lex_literal s'
  end.

(** What a [WHERE] text of the shape the code builds denotes. *)
Inductive where_sem : Type :=
| WAll                              (* no clause: every row *)
| WStatus (lit : string)            (* status = lit *)
| WUnterminated                     (* the constant is not closed: syntax error *)
| WTrailing (lit rest : string)     (* more SQL follows the constant *)
| WMalformed.                       (* not a clause of this shape *)

#[export] Instance where_sem_eq_dec : EqDecision where_sem.
Proof. solve_decision. Defined.

Definition interp_where (w : string) : where_sem :=
  if decide (w = "") then WAll else
  match strip_prefix where_prefix w with
  | None => WMalformed
  | Some body =>
      match lex_literal body with
      | None => WUnterminated
      | Some (lit, EmptyString) => WStatus lit
      | Some (lit, rest) => WTrailing lit rest
      end
  end.

(** The filter a request for [Status] is meant to denote. *)
Definition where_of_status (Status : string) : where_sem :=
  if decide (Status = "") then WAll else WStatus Status.

(** A string without a single quote. *)
Fixpoint quote_free (s : string) : bool :=
  match s with
  | EmptyString => true
  | String c s' => bool_decide (c ≠ quote) && quote_free s'
  end.

(** Doubling the quotes: the escaping that makes any string a constant. *)
Fixpoint sql_escape (s : string) : string :=
  match s with
  | EmptyString => EmptyString
  | String c s' =>
      if decide (c = quote) then String quote (String quote (sql_escape s'))
      else String c (sql_escape s')
  end.

(** Whether [r] can follow a closing quote without continuing the constant. *)
Definition no_leading_quote (r : string) : bool :=
  match r with
  | String c _ => bool_decide (c ≠ quote)
  | EmptyString => true
  end.

(** A word of the statement: the text up to the next blank, and the text
    after that blank. *)
Fixpoint word (s : string) : string * string :=
  match s with
  | EmptyString => (EmptyString, EmptyString)
  | String c s' =>
      if decide (c = " "%char) then (EmptyString, s')
      else prod_map (String c) id (word s')
  end.

(** An integer constant with its sign. *)
Definition sql_integer (w : string) : option Z :=
  match w with
  | EmptyString => None
  | String c ds =>
      if decide (c = "-"%char)
      then (if decide (ds = "") then None else Z.opp <$> digits_value 0 ds)
      else digits_value 0 w
  end.

(** The two numbers PostgreSQL reads in a text of the shape of
    [limitClause]. *)
Definition read_limit (s : string) : option (Z * Z) :=
  s1 ← strip_prefix " LIMIT " s;
  let '(l, s2) := word s1 in
  s3 ← strip_prefix "OFFSET " s2;
  limit ← sql_integer l;
  offset ← sql_integer s3;
  Some (limit, offset).

(** ** Lemmas *)

Lemma strip_prefix_app p s : strip_prefix p (p +:+ s) = Some s.
Proof.
  induction p as [|a p IH]; [done|].
  rewrite string_app_cons. simpl. by rewrite decide_True.
Qed.

Lemma strip_prefix_Some p s r : strip_prefix p s = Some r ↔ s = p +:+ r.
Proof.
  split; [|intros ->; apply strip_prefix_app].
  revert s; induction p as [|a p IH]; intros [|b s];
    rewrite ?string_app_nil_l, ?string_app_cons; simpl; try congruence.
  case_decide; [subst|done]. intros H. apply IH in H. by subst.
Qed.

(** The computation rules of [lex_literal], by the next one or two
    characters. *)
Lemma lex_literal_end : lex_literal (String quote EmptyString) = Some (EmptyString, EmptyString).
Proof. reflexivity. Qed.

Lemma lex_literal_doubled s :
  lex_literal (String quote (String quote s))
  = prod_map (String quote) id <$> lex_literal s.
Proof. reflexivity. Qed.

Lemma lex_literal_closing c s :
  c ≠ quote → lex_literal (String quote (String c s)) = Some (EmptyString, String c s).
Proof. intros. simpl. repeat case_decide; done. Qed.

Lemma lex_literal_char c s :
  c ≠ quote → lex_literal (String c s) = prod_map (String c) id <$> lex_literal s.
Proof. intros. simpl. repeat case_decide; done. Qed.

Lemma lex_literal_close r :
  no_leading_quote r = true → lex_literal (String quote r) = Some (EmptyString, r).
Proof.
  destruct r as [|c r]; [done|]. intros ?%bool_decide_eq_true.
  by apply lex_literal_closing.
Qed.

(** The escaped form of any string lexes back to the string. *)
Lemma lex_literal_escape s r :
  no_leading_quote r = true →
  lex_literal (sql_escape s +:+ String quote r) = Some (s, r).
Proof.
  intros Hr. induction s as [|c s IH]; simpl.
  - by apply lex_literal_close.
  - case_decide; subst; rewrite !string_app_cons.
    + by rewrite lex_literal_doubled, IH.
    + by rewrite lex_literal_char, IH.
Qed.

Lemma sql_escape_quote_free s : quote_free s = true → sql_escape s = s.
Proof.
  induction s as [|c s IH]; simpl; [done|].
  intros [?%bool_decide_eq_true ?]%andb_true_iff.
  rewrite decide_False by done. f_equal; auto.
Qed.

Lemma lex_literal_quote_free s r :
  quote_free s = true → no_leading_quote r = true →
  lex_literal (s +:+ String quote r) = Some (s, r).
Proof.
  intros Hs Hr. rewrite <-(sql_escape_quote_free s) at 1 by done.
  by apply lex_literal_escape.
Qed.

(** A constant is strictly shorter than the text it was read from: the
    closing quote, at least, is not part of it. *)
Lemma lex_literal_length s lit rest :
  lex_literal s = Some (lit, rest) →
  String.length lit + String.length rest < String.length s.
Proof.
  remember (String.length s) as n eqn:Hn. revert s Hn lit rest.
  induction n as [n IH] using lt_wf_ind. intros s -> lit rest.
  specialize (λ t Ht, IH _ Ht t eq_refl).
  destruct s as [|c s]; [done|].
  destruct (decide (c = quote)) as [->|Hc].
  - destruct s as [|c' s]; [intros [= <- <-]; simpl; lia|].
    destruct (decide (c' = quote)) as [->|Hc'].
    + rewrite lex_literal_doubled.
      destruct (lex_literal s) as [[l r]|] eqn:E; [|done].
      intros [= <- <-]. apply IH in E; simpl in *; lia.
    + rewrite lex_literal_closing by done. intros [= <- <-]; simpl; lia.
  - rewrite lex_literal_char by done.
    destruct (lex_literal s) as [[l r]|] eqn:E; [|done].
    intros [= <- <-]. apply IH in E; simpl in *; lia.
Qed.

(** If the whole of [s] followed by a quote is read as one constant of the
    length of [s], then no quote of [s] was doubled away: [s] has none. *)
Lemma lex_literal_exact_quote_free s lit :
  lex_literal (s +:+ String quote EmptyString) = Some (lit, EmptyString) →
  String.length lit = String.length s → quote_free s = true.
Proof.
  revert lit. induction s as [|c s IH]; intros lit; [done|].
  rewrite string_app_cons. destruct (decide (c = quote)) as [->|Hc].
  - destruct (s +:+ String quote EmptyString) as [|c' t] eqn:Et.
    { destruct s; done. }
    apply (f_equal String.length) in Et. rewrite string_app_length in Et.
    destruct (decide (c' = quote)) as [->|Hc'].
    + rewrite lex_literal_doubled.
      destruct (lex_literal t) as [[l r]|] eqn:E; [|done].
      intros [= <- ->] Hlen. apply lex_literal_length in E. simpl in *. lia.
    + rewrite lex_literal_closing by done. by intros [= <- ?].
  - rewrite lex_literal_char by done. simpl.
    rewrite andb_true_iff, bool_decide_eq_true.
    destruct (lex_literal _) as [[l r]|] eqn:E; [|done].
    intros [= <- ->] [= Hlen]. eauto.
Qed.

(** ** What the clause built by the code means *)

Lemma whereClause_nonempty Status :
  Status ≠ "" → whereClause Status = where_prefix +:+ (Status +:+ String quote "").
Proof. intros. unfold whereClause. by rewrite decide_False. Qed.

Lemma interp_whereClause_body Status :
  Status ≠ "" →
  interp_where (whereClause Status) =
    match lex_literal (Status +:+ String quote "") with
    | None => WUnterminated
    | Some (lit, EmptyString) => WStatus lit
    | Some (lit, rest) => WTrailing lit rest
    end.
Proof.
  intros. rewrite whereClause_nonempty by done. unfold interp_where.
  rewrite decide_False by done. by rewrite strip_prefix_app.
Qed.

Lemma interp_whereClause_quote_free Status :
  quote_free Status = true →
  interp_where (whereClause Status) = where_of_status Status.
Proof.
  intros Hq. unfold where_of_status. case_decide as Hs; [by subst|].
  rewrite interp_whereClause_body by done. by rewrite lex_literal_quote_free.
Qed.

Lemma interp_whereClause_exact Status :
  interp_where (whereClause Status) = where_of_status Status →
  quote_free Status = true.
Proof.
  unfold where_of_status. case_decide as Hs; [by subst|].
  rewrite interp_whereClause_body by done.
  destruct (lex_literal _) as [[lit [|c r]]|] eqn:E; try done.
  intros [= ->]. by eapply lex_literal_exact_quote_free.
Qed.

Lemma interp_whereClause_cases Status :
  interp_where (whereClause Status) = WAll ∧ Status = ""
  ∨ (∃ lit, interp_where (whereClause Status) = WStatus lit)
  ∨ interp_where (whereClause Status) = WUnterminated
  ∨ (∃ lit rest, interp_where (whereClause Status) = WTrailing lit rest).
Proof.
  destruct (decide (Status = "")) as [->|Hs]; [by left|].
  rewrite interp_whereClause_body by done.
  destruct (lex_literal _) as [[lit [|c r]]|]; eauto 6.
Qed.

(** C10. The clause [getQueue] builds for a status filter is read by the
    database as "status equals that string" (and as no filter for the empty
    string) exactly when the filter contains no single quote. *)
Theorem whereClause_faithful_iff Status :
  interp_where (whereClause Status) = where_of_status Status
  ↔ quote_free Status = true.
Proof.
  split; [apply interp_whereClause_exact | apply interp_whereClause_quote_free].
Qed.

(** The clause is never outside the shape [interp_where] reads: whatever
    the status, the text starts with the fixed prefix. *)
Theorem whereClause_never_malformed Status :
  interp_where (whereClause Status) ≠ WMalformed.
Proof.
  destruct (interp_whereClause_cases Status) as [[-> _]|[[? ->]|[->|(? & ? & ->)]]];
    done.
Qed.

(** A status filter with a quote changes the statement: the constant
    ends at the quote and the rest of the filter is read as SQL. *)
Theorem whereClause_injection :
  interp_where (whereClause "x' OR '1'='1") = WTrailing "x" " OR '1'='1'".
Proof. reflexivity. Qed.

(** A filter that ends in a quote leaves the constant open. *)
Example whereClause_unterminated :
  interp_where (whereClause "done'") = WUnterminated.
Proof. reflexivity. Qed.

(** A doubled quote in the filter is read as one: the rows matched are not
    those whose status is the string that was asked for. *)
Example whereClause_doubled_quote :
  interp_where (whereClause "it''s") = WStatus "it's".
Proof. reflexivity. Qed.

(** ** The limit clause *)

Lemma word_digits w rest :
  digits_only w = true → word (w +:+ String " " rest) = (w, rest).
Proof.
  induction w as [|c w IH]; [done|]. cbn [digits_only].
  intros [Hc Hw]%andb_prop. rewrite string_app_cons. cbn [word].
  rewrite decide_False by (by intros ->). by rewrite IH.
Qed.

Lemma word_FormatInt i rest :
  word (FormatInt i +:+ String " " rest) = (FormatInt i, rest).
Proof.
  unfold FormatInt. case_decide.
  - rewrite string_app_cons. cbn [word]. rewrite decide_False by done.
    by rewrite word_digits by (apply digits_only_format_uint; lia).
  - apply word_digits, digits_only_format_uint. lia.
Qed.

Lemma sql_integer_FormatInt i : sql_integer (FormatInt i) = Some i.
Proof.
  unfold FormatInt. case_decide.
  - cbn [sql_integer]. rewrite decide_True by done.
    rewrite decide_False by (apply format_uint_nonempty; lia).
    rewrite digits_value_format_uint by lia. simpl. f_equal. lia.
  - destruct (format_digits_head i "") as (c & s & Hs & Hc); [lia|].
    rewrite <-(digits_value_format_uint i) by lia.
    unfold format_uint. rewrite Hs. cbn [sql_integer].
    rewrite decide_False; [done|]. intros ->. by destruct Hc.
Qed.

Lemma read_limitClause PageSize offset :
  read_limit (limitClause PageSize offset) = Some (PageSize, offset).
Proof.
  unfold read_limit, limitClause. rewrite strip_prefix_app.
  cbn [mbind option_bind].
  change (" OFFSET " +:+ FormatInt offset)
    with (String " " ("OFFSET " +:+ FormatInt offset)).
  rewrite word_FormatInt. cbv beta iota. rewrite strip_prefix_app. simpl.
  by rewrite !sql_integer_FormatInt.
Qed.

(** C36. PostgreSQL reads in the [LIMIT] clause the two numbers the handler
    wrote into it, whatever their sign and size: formatting with [%d] and
    reading the constants back is the identity. *)
Theorem limitClause_roundtrip PageSize offset :
  read_limit (limitClause PageSize offset) = Some (PageSize, offset).
Proof. apply read_limitClause. Qed.

Example limitClause_examples :
  limitClause 10 0 = " LIMIT 10 OFFSET 0"
  ∧ limitClause 10 (-10) = " LIMIT 10 OFFSET -10"
  ∧ read_limit " LIMIT 10 OFFSET" = None
  ∧ read_limit " LIMIT ten OFFSET 0" = None.
Proof. by vm_compute. Qed.
