(* ===== verification/Store.v ===== *)
(** * The record store: the [videos] table and the statements run on it

    The program keeps its work items in one PostgreSQL table, created by
    [initDB] ([src/backend/main.go], lines 62-71) and read and written by the
    SQL statements the handlers send. This file models

    - the Go struct [Video] and a row of the table ([row]: the two nullable
      columns are options);
    - the database as the handlers see it ([DB]: whether a statement can
      reach it, and the table if it exists);
    - each statement of the source as a function on [DB] that returns the
      driver's error or the statement's result;
    - the order the page query asks for ([status_rank], [row_le]) and the
      interface [QueryEngine] of what the database promises about
      [ORDER BY]: some permutation of the rows that is sorted. Rows with
      equal rank and path may come in any order; the theorems of the
      development hold for every engine, and [merge_engine] is the instance
      used to evaluate examples. *)

From S2P Require Import Prelude Sql.

#[local] Open Scope Z_scope.

(** ** Data *)

(** Go structs are records in a module of the struct's name, so that fields
    are written as in the source: [Video.Status v]. *)
Module Video.
Record t : Type := mk {
  ID : string;
  Path : string;
  Resolution : string;
  Bitrate : string;
  Status : string;
  OriginalSize : Z;
}.
#[export] Instance eq_dec : EqDecision t.
Proof. solve_decision. Defined.
End Video.
Export (hints) Video.

Record row : Type := mkRow {
  row_id : string;                     (* id TEXT PRIMARY KEY *)
  row_path : string;                   (* path TEXT NOT NULL *)
  row_resolution : option string;      (* resolution TEXT *)
  row_bitrate : option string;         (* bitrate TEXT *)
  row_status : string;                 (* status TEXT NOT NULL *)
  row_original_size : Z;               (* original_size BIGINT NOT NULL *)
}.

#[export] Instance row_eq_dec : EqDecision row.
Proof. solve_decision. Defined.

Inductive db_error : Type :=
| ConnectionError      (* the statement did not reach the database *)
| SyntaxError          (* the text is not a statement *)
| UndefinedTable       (* relation "videos" does not exist *)
| UniqueViolation      (* duplicate key value for the primary key *)
| NegativeLimit        (* LIMIT must not be negative *)
| NegativeOffset.      (* OFFSET must not be negative *)

#[export] Instance db_error_eq_dec : EqDecision db_error.
Proof. solve_decision. Defined.

Record DB : Type := mkDB {
  db_up : bool;
  db_videos : option (list row);
}.

#[export] Instance DB_eq_dec : EqDecision DB.
Proof. solve_decision. Defined.

(** The table a statement works on, or why it cannot. *)
Definition table_of (d : DB) : result db_error (list row) :=
  if db_up d then
    match db_videos d with
    | Some t => Ok t
    | None => Err UndefinedTable
    end
  else Err ConnectionError.

Definition set_table (d : DB) (t : list row) : DB :=
  {| db_up := db_up d; db_videos := Some t |}.

(** ** Schema statements of [initDB] *)

(** [CREATE TABLE IF NOT EXISTS videos (...)]. *)
Definition exec_create_table (d : DB) : result db_error DB :=
  if db_up d then Ok (set_table d (default [] (db_videos d)))
  else Err ConnectionError.

(** [CREATE INDEX IF NOT EXISTS ...] on [path] and on [status]: the indexes
    change no result of a query. *)
Definition exec_create_indexes (d : DB) : result db_error DB :=
  table_of d ;;; Ok d.

(** ** Write statements *)

(** [INSERT INTO videos (...) VALUES ($1, ..., $6)]: every parameter is a Go
    value, so no column of the new row is NULL. *)
Definition exec_insert (d : DB)
    (id path resolution bitrate status : string) (original_size : Z) :
    result db_error DB :=
  t <- table_of d ;;
  if decide (id ∈ (row_id <$> t)) then Err UniqueViolation
  else Ok (set_table d (t ++ [mkRow id path (Some resolution) (Some bitrate)
                                    status original_size])).

Definition set_status (status id : string) (r : row) : row :=
  if decide (row_id r = id)
  then mkRow (row_id r) (row_path r) (row_resolution r) (row_bitrate r)
             status (row_original_size r)
  else r.

(** [UPDATE videos SET status = $1 WHERE id = $2]. *)
Definition exec_update_status (d : DB) (status id : string) :
    result db_error DB :=
  t <- table_of d ;; Ok (set_table d (set_status status id <$> t)).

(** ** Queries *)

(** [SELECT path FROM videos]. *)
Definition query_paths (d : DB) : result db_error (list string) :=
  t <- table_of d ;; Ok (row_path <$> t).

Definition row_matches (w : where_sem) (r : row) : bool :=
  match w with
  | WStatus lit => bool_decide (row_status r = lit)
  | _ => true
  end.

(** A [SELECT ... FROM videos] followed by the text [w], whose rows are
    handed to [k]. The result is [None] when [w] is a text whose meaning this
    development does not model (SQL follows the string constant). *)
Definition run_select {A} (d : DB) (w : string)
    (k : list row → result db_error A) : option (result db_error A) :=
  if db_up d then
    match interp_where w with
    | WUnterminated => Some (Err SyntaxError)
    | WTrailing _ _ | WMalformed => None
    | sem => Some (t <- table_of d ;; k (filter (λ r, row_matches sem r) t))
    end
  else Some (Err ConnectionError).

(** [SELECT COUNT( * ) FROM videos] and the clause. *)
Definition query_count (d : DB) (w : string) : option (result db_error Z) :=
  run_select d w (λ t, Ok (Z.of_nat (length t))).

(** The [CASE status WHEN ... END] of the [ORDER BY]. *)
Definition status_rank (s : string) : Z :=
  if decide (s = "processing") then 1
  else if decide (s = "pending") then 2
  else if decide (s = "completed") then 3
  else 4.

(** [ORDER BY CASE ... END, path]: by rank, then by path. Paths are compared
    byte by byte (the "C" collation). *)
Definition row_le (r1 r2 : row) : Prop :=
  status_rank (row_status r1) < status_rank (row_status r2)
  ∨ (status_rank (row_status r1) = status_rank (row_status r2)
     ∧ String.le (row_path r1) (row_path r2)).

#[export] Instance row_le_dec : RelDecision row_le.
Proof. intros r1 r2. unfold row_le. apply _. Defined.

(** What the database promises about [ORDER BY]. *)
Class QueryEngine : Type := {
  order_by : list row → list row;
  order_by_perm l : order_by l ≡ₚ l;
  order_by_sorted l : Sorted row_le (order_by l);
}.

(** The page query: the clause, the order, [LIMIT] and [OFFSET]. *)
Definition query_page `{QueryEngine} (d : DB) (w : string) (limit offset : Z) :
    option (result db_error (list row)) :=
  run_select d w (λ t,
    if decide (limit < 0) then Err NegativeLimit
    else if decide (offset < 0) then Err NegativeOffset
    else Ok (windowZ limit offset (order_by t))).

(** ** Well-formedness of a table *)

(** The primary key: no two rows share an id. *)
Definition ids_unique (t : list row) : Prop := NoDup (row_id <$> t).

(** No row has a NULL in a nullable column. *)
Definition no_nulls (t : list row) : Prop :=
  Forall (λ r, is_Some (row_resolution r) ∧ is_Some (row_bitrate r)) t.

#[export] Instance ids_unique_dec t : Decision (ids_unique t).
Proof. unfold ids_unique. apply _. Defined.

#[export] Instance no_nulls_dec t : Decision (no_nulls t).
Proof. unfold no_nulls. apply _. Defined.

(** ** Example data

    The table of the specification's scenarios: three pending, two processing
    and one completed item, inserted in no particular order. *)

Definition demo_row (name status : string) : row :=
  mkRow name ("videos/" +:+ name) (Some "1920x1080") (Some "5000k") status 1048576.

Definition demo_table : list row :=
  [demo_row "c.mp4" "pending"; demo_row "a.mp4" "completed";
   demo_row "e.mp4" "processing"; demo_row "b.mp4" "pending";
   demo_row "d.mp4" "processing"; demo_row "f.mp4" "pending"].

Definition demo_db : DB := mkDB true (Some demo_table).

(** ** The order is a total preorder, and merge sort implements the engine *)

#[export] Instance row_le_refl : Reflexive row_le.
Proof. intros r. right. split; [done|]. reflexivity. Qed.

#[export] Instance row_le_trans : Transitive row_le.
Proof.
  intros r1 r2 r3 [?|[? ?]] [?|[? ?]]; unfold row_le; try (left; lia).
  right. split; [lia|]. by etrans.
Qed.

#[export] Instance row_le_total : Total row_le.
Proof.
  intros r1 r2. unfold row_le.
  destruct (total String.le (row_path r1) (row_path r2));
    destruct (Z.lt_total (status_rank (row_status r1))
                (status_rank (row_status r2))) as [?|[?|?]]; auto.
Qed.

#[export] Instance merge_engine : QueryEngine := {|
  order_by := merge_sort row_le;
  order_by_perm := merge_sort_Permutation row_le;
  order_by_sorted := Sorted_merge_sort row_le;
|}.

Lemma status_rank_range s : 1 ≤ status_rank s ≤ 4.
Proof. unfold status_rank. repeat case_decide; lia. Qed.

Lemma status_rank_other s :
  status_rank s = 4 ↔ s ≠ "processing" ∧ s ≠ "pending" ∧ s ≠ "completed".
Proof.
  unfold status_rank. repeat case_decide; subst;
    (split; [try done | try (intros (? & ? & ?); done)]).
Qed.

(** ** Statements, case by case *)

Section statements.
Implicit Types (d : DB) (t : list row).

Lemma table_of_Ok d t :
  table_of d = Ok t ↔ db_up d = true ∧ db_videos d = Some t.
Proof.
  unfold table_of. destruct (db_up d), (db_videos d); split;
    intros; break_hyps; eauto.
Qed.

Lemma table_of_set_table d t : db_up d = true → table_of (set_table d t) = Ok t.
Proof. intros Hup. unfold table_of, set_table. simpl. by rewrite Hup. Qed.

Lemma set_table_id d t : table_of d = Ok t → set_table d t = d.
Proof. intros [? ?]%table_of_Ok. destruct d; unfold set_table; simpl in *. congruence. Qed.

Lemma exec_insert_Ok d id path res bit st sz d' :
  exec_insert d id path res bit st sz = Ok d' ↔
  ∃ t, table_of d = Ok t ∧ (id ∉ row_id <$> t) ∧
       d' = set_table d (t ++ [mkRow id path (Some res) (Some bit) st sz]).
Proof.
  unfold exec_insert. rewrite result_bind_Ok. split.
  - intros (t & Ht & H). case_decide; [done|]. exists t. by simplify_eq.
  - intros (t & Ht & Hid & ->). exists t. by rewrite decide_False.
Qed.

Lemma exec_insert_Err d id path res bit st sz e :
  exec_insert d id path res bit st sz = Err e ↔
  table_of d = Err e ∨
  ∃ t, table_of d = Ok t ∧ id ∈ (row_id <$> t) ∧ e = UniqueViolation.
Proof.
  unfold exec_insert. rewrite result_bind_Err. split.
  - intros [?|(t & Ht & H)]; [by left|]. case_decide; [|done].
    right. exists t. by simplify_eq.
  - intros [?|(t & Ht & Hid & ->)]; [by left|]. right. exists t.
    by rewrite decide_True.
Qed.

Lemma exec_update_status_Ok d st id d' :
  exec_update_status d st id = Ok d' ↔
  ∃ t, table_of d = Ok t ∧ d' = set_table d (set_status st id <$> t).
Proof.
  unfold exec_update_status. rewrite result_bind_Ok.
  split; intros (t & ? & ?); exists t; by simplify_eq.
Qed.

Lemma exec_update_status_Err d st id e :
  exec_update_status d st id = Err e ↔ table_of d = Err e.
Proof.
  unfold exec_update_status. rewrite result_bind_Err.
  split; [intros [?|(? & ? & ?)]; by simplify_eq | by left].
Qed.

Lemma table_of_down d : db_up d = false → table_of d = Err ConnectionError.
Proof. intros Hd. unfold table_of. by rewrite Hd. Qed.

(** For a filter without a quote, a select is the filter it was meant to be;
    a database that is down fails it like any statement. *)
Lemma run_select_quote_free {A} d Status (k : list row → result db_error A) :
  quote_free Status = true →
  run_select d (whereClause Status) k
  = Some (t <- table_of d ;;
          k (filter (λ r, row_matches (where_of_status Status) r) t)).
Proof.
  intros Hq. unfold run_select. destruct (db_up d) eqn:Hup.
  - rewrite interp_whereClause_quote_free by done.
    unfold where_of_status. by case_decide.
  - by rewrite table_of_down.
Qed.

Lemma run_select_down {A} d w (k : list row → result db_error A) :
  db_up d = false → run_select d w k = Some (Err ConnectionError).
Proof. intros Hd. unfold run_select. by rewrite Hd. Qed.

Lemma run_select_unterminated {A} d w (k : list row → result db_error A) :
  db_up d = true → interp_where w = WUnterminated →
  run_select d w k = Some (Err SyntaxError).
Proof. intros Hd Hw. unfold run_select. by rewrite Hd, Hw. Qed.

Lemma run_select_trailing {A} d w (k : list row → result db_error A) lit rest :
  db_up d = true → interp_where w = WTrailing lit rest →
  run_select d w k = None.
Proof. intros Hd Hw. unfold run_select. by rewrite Hd, Hw. Qed.

Lemma run_select_Ok {A} d w (k : list row → result db_error A) a :
  run_select d w k = Some (Ok a) →
  ∃ sem t, interp_where w = sem ∧ table_of d = Ok t ∧
    k (filter (λ r, row_matches sem r) t) = Ok a.
Proof.
  unfold run_select. destruct (db_up d); [|done].
  destruct (interp_where w) eqn:Hw; try done;
    (intros [= Hk]; apply result_bind_Ok in Hk as (t & ? & ?); eauto).
Qed.

Lemma table_of_Err d e :
  table_of d = Err e → e = ConnectionError ∨ e = UndefinedTable.
Proof. unfold table_of. repeat case_match; intros [= <-]; auto. Qed.

Lemma run_select_Err {A} d w (k : list row → result db_error A) e :
  run_select d w k = Some (Err e) →
  e = ConnectionError ∨ e = SyntaxError ∨ e = UndefinedTable
  ∨ ∃ rows, k rows = Err e.
Proof.
  unfold run_select. destruct (db_up d); [|intros [= <-]; auto].
  assert (∀ sem, (t <- table_of d ;; k (filter (λ r, row_matches sem r) t)) = Err e →
    e = ConnectionError ∨ e = SyntaxError ∨ e = UndefinedTable
    ∨ ∃ rows, k rows = Err e) as Hgen.
  { intros sem [Ht|(t & _ & Hk)]%result_bind_Err; [|eauto 6].
    apply table_of_Err in Ht as [->| ->]; auto. }
  destruct (interp_where w); try done; intros [= Hb]; subst;
    first [by apply (Hgen WAll) | by eapply (Hgen (WStatus _)) | by auto].
Qed.

Lemma query_count_Ok d w n :
  query_count d w = Some (Ok n) →
  ∃ sem t, interp_where w = sem ∧ table_of d = Ok t ∧
    n = Z.of_nat (length (filter (λ r, row_matches sem r) t)).
Proof.
  intros (sem & t & ? & ? & [= <-])%run_select_Ok. eauto.
Qed.

Lemma query_page_Ok `{QueryEngine} d w limit offset rows :
  query_page d w limit offset = Some (Ok rows) →
  ∃ sem t, interp_where w = sem ∧ table_of d = Ok t ∧ 0 ≤ limit ∧ 0 ≤ offset ∧
    rows = window (Z.to_nat limit) (Z.to_nat offset)
             (order_by (filter (λ r, row_matches sem r) t)).
Proof.
  intros (sem & t & ? & ? & Hk)%run_select_Ok. repeat case_decide; try done.
  injection Hk as <-. exists sem, t. rewrite windowZ_window. split_and!; (done || lia).
Qed.

(** An update changes neither the ids, nor the paths, nor the NULLs. *)
Lemma set_status_id st id r : row_id (set_status st id r) = row_id r.
Proof. unfold set_status. by case_decide. Qed.

Lemma set_status_path st id r : row_path (set_status st id r) = row_path r.
Proof. unfold set_status. by case_decide. Qed.

Lemma set_status_status st id r :
  row_status (set_status st id r) = if decide (row_id r = id) then st else row_status r.
Proof. unfold set_status. by case_decide. Qed.

Lemma set_status_ids st id t : row_id <$> (set_status st id <$> t) = row_id <$> t.
Proof. rewrite <-list_fmap_compose. apply list_fmap_ext. intros ? r _. apply set_status_id. Qed.

Lemma set_status_paths st id t : row_path <$> (set_status st id <$> t) = row_path <$> t.
Proof. rewrite <-list_fmap_compose. apply list_fmap_ext. intros ? r _. apply set_status_path. Qed.

Lemma set_status_absent st id t : id ∉ (row_id <$> t) → set_status st id <$> t = t.
Proof.
  intros Hid. rewrite <-(list_fmap_id t) at 2. apply list_fmap_ext.
  intros i r Hr. unfold set_status. case_decide as E; [|done].
  destruct Hid. subst. apply list_elem_of_fmap. exists r.
  split; [done|]. by eapply list_elem_of_lookup_2.
Qed.

Lemma ids_unique_insert t r :
  ids_unique t → row_id r ∉ (row_id <$> t) → ids_unique (t ++ [r]).
Proof.
  unfold ids_unique. intros Ht Hr. rewrite fmap_app. simpl.
  apply NoDup_app. split_and!; [done| |apply NoDup_singleton].
  intros x Hx ->%list_elem_of_singleton. done.
Qed.

Lemma ids_unique_set_status st id t : ids_unique t → ids_unique (set_status st id <$> t).
Proof. unfold ids_unique. by rewrite set_status_ids. Qed.

Lemma no_nulls_insert t id path res bit st sz :
  no_nulls t → no_nulls (t ++ [mkRow id path (Some res) (Some bit) st sz]).
Proof. intros. apply Forall_app. split; [done|]. repeat constructor; simpl; eauto. Qed.

Lemma no_nulls_set_status st id t : no_nulls t → no_nulls (set_status st id <$> t).
Proof.
  unfold no_nulls. rewrite Forall_fmap. intros Ht.
  eapply Forall_impl; [done|]. intros r [? ?]. simpl.
  unfold set_status. by case_decide.
Qed.
End statements.

#[export] Hint Resolve ids_unique_insert ids_unique_set_status
  no_nulls_insert no_nulls_set_status table_of_set_table : vq.
#[export] Hint Rewrite set_status_ids set_status_paths : vq.

(** ** Engines agree where the order is strict *)

Lemma row_le_antisym_on (t : list row) r1 r2 :
  NoDup (row_path <$> t) → r1 ∈ t → r2 ∈ t → row_le r1 r2 → row_le r2 r1 → r1 = r2.
Proof.
  intros Hnd H1 H2 [?|[? Hp12]] [?|[? Hp21]]; try lia.
  assert (row_path r1 = row_path r2) as Hp by by apply (anti_symm String.le).
  apply list_elem_of_lookup in H1 as [i Hi], H2 as [j Hj].
  assert (i = j) as ->; [|congruence].
  eapply NoDup_lookup; [done|by rewrite list_lookup_fmap, Hi|].
  by rewrite list_lookup_fmap, Hj, Hp.
Qed.

Lemma order_by_unique (E1 E2 : QueryEngine) (t : list row) :
  NoDup (row_path <$> t) → @order_by E1 t = @order_by E2 t.
Proof.
  intros Hnd. apply (StronglySorted_unique_strong row_le).
  - intros r1 r2 H1 H2.
    rewrite (@order_by_perm E1) in H1. rewrite (@order_by_perm E2) in H2.
    by apply (row_le_antisym_on t).
  - apply Sorted_StronglySorted; [apply _|apply order_by_sorted].
  - apply Sorted_StronglySorted; [apply _|apply order_by_sorted].
  - by rewrite !order_by_perm.
Qed.

(** C40. On a table whose paths are distinct the order of the page query is
    determined: every engine that meets the interface returns the rows in
    the same sequence, the one merge sort computes. *)
Theorem order_by_deterministic (E : QueryEngine) (t : list row) :
  NoDup (row_path <$> t) → @order_by E t = merge_sort row_le t.
Proof. intros. by apply (order_by_unique E merge_engine). Qed.

Lemma order_by_deterministic_witness :
  @order_by merge_engine demo_table = merge_sort row_le demo_table.
Proof.
  apply (order_by_deterministic merge_engine demo_table).
  apply (bool_decide_unpack (NoDup _)). vm_compute. exact I.
Defined.
