(* ===== verification/QueueView.v ===== *)
(** * The queue view: [getQueue] and [scanVideoRows]

    [getQueue] ([src/backend/main.go], lines 153-233) validates the page
    parameters, counts the rows that match the status filter, fetches one
    page of them in priority order, converts the rows to [Video]s
    ([scanVideoRows], lines 235-247) and groups them by status into the three
    buckets of a [VideoQueue]. The definitions follow the handler statement
    by statement; [getQueue] composes them with the handler's early returns.

    The request's parameters arrive bound by the framework: the handler's
    input is [None] when [ShouldBindQuery] failed and the bound struct
    otherwise. The handler reads the database and changes nothing. Its result
    is [None] when the status filter puts the query outside the SQL this
    development gives a meaning to (see [Sql.interp_where]). *)

From S2P Require Import Prelude GoInt Sql Store.

#[local] Open Scope Z_scope.

(** ** Data *)

Module VideoQueue.
Record t : Type := mk {
  Pending : list Video.t;
  Processing : list Video.t;
  Completed : list Video.t;
  Total : Z;
}.
#[export] Instance eq_dec : EqDecision t.
Proof. solve_decision. Defined.
End VideoQueue.
Export (hints) VideoQueue.

Module PaginationParams.
Record t : Type := mk {
  Page : Z;
  PageSize : Z;
  Status : string;
}.
#[export] Instance eq_dec : EqDecision t.
Proof. solve_decision. Defined.
(** The values of the struct tags: what a request without parameters binds to. *)
Definition default : t := mk 1 10 "".
End PaginationParams.
Export (hints) PaginationParams.

(** The ["pagination"] object of the response. *)
Record Pagination : Type := mkPagination {
  page : Z;
  pageSize : Z;
  total : Z;
  pages : Z;
}.

#[export] Instance Pagination_eq_dec : EqDecision Pagination.
Proof. solve_decision. Defined.

(** The body of a successful response. *)
Record QueueBody : Type := mkQueueBody {
  queue : VideoQueue.t;
  pagination : Pagination;
}.

#[export] Instance QueueBody_eq_dec : EqDecision QueueBody.
Proof. solve_decision. Defined.

(** ** The steps of the handler *)

(** "Validate and set defaults": a page below 1 becomes 1, a page size
    outside 1..100 becomes 10. *)
Definition validate (params : PaginationParams.t) : PaginationParams.t :=
  let page :=
    if decide (PaginationParams.Page params < 1) then 1
    else PaginationParams.Page params in
  let pageSize :=
    if decide (PaginationParams.PageSize params < 1
               ∨ PaginationParams.PageSize params > 100) then 10
    else PaginationParams.PageSize params in
  PaginationParams.mk page pageSize (PaginationParams.Status params).

(** [offset := (params.Page - 1) * params.PageSize], on Go's [int]. *)
Definition offset_of (params : PaginationParams.t) : Z :=
  int_mul (int_sub (PaginationParams.Page params) 1)
          (PaginationParams.PageSize params).

(** [rows.Scan] into the fields of a [Video]: a NULL cannot be stored in a Go
    string, so the scan of a row with a NULL fails. *)
Definition scan_row (r : row) : option Video.t :=
  match row_resolution r, row_bitrate r with
  | Some resolution, Some bitrate =>
      Some (Video.mk (row_id r) (row_path r) resolution bitrate
                     (row_status r) (row_original_size r))
  | _, _ => None
  end.

(** The loop of [scanVideoRows]: a row whose scan fails is logged and
    skipped. *)
Definition scanVideoRows (rows : list row) : list Video.t :=
  omap scan_row rows.

(** One iteration of the grouping loop: the [switch] on the status. *)
Definition group_step (queue : VideoQueue.t) (video : Video.t) : VideoQueue.t :=
  if decide (Video.Status video = "pending") then
    VideoQueue.mk (VideoQueue.Pending queue ++ [video])
      (VideoQueue.Processing queue) (VideoQueue.Completed queue)
      (VideoQueue.Total queue)
  else if decide (Video.Status video = "processing") then
    VideoQueue.mk (VideoQueue.Pending queue)
      (VideoQueue.Processing queue ++ [video]) (VideoQueue.Completed queue)
      (VideoQueue.Total queue)
  else if decide (Video.Status video = "completed") then
    VideoQueue.mk (VideoQueue.Pending queue) (VideoQueue.Processing queue)
      (VideoQueue.Completed queue ++ [video]) (VideoQueue.Total queue)
  else queue.

(** "Group videos by status": three empty buckets, then the loop. *)
Definition group_videos (total : Z) (videos : list Video.t) : VideoQueue.t :=
  foldl group_step (VideoQueue.mk [] [] [] total) videos.

(** ["pages": (total + params.PageSize - 1) / params.PageSize]. *)
Definition page_count (total pageSize : Z) : Z :=
  int_div (int_sub (int_add total pageSize) 1) pageSize.

(** ** The handler *)

Definition getQueue `{QueryEngine} (d : DB)
    (bound : option PaginationParams.t) :
    option (response db_error QueueBody) :=
  match bound with
  | None => Some StatusBadRequest
  | Some params =>
      let params := validate params in
      let offset := offset_of params in
      let whereClause := whereClause (PaginationParams.Status params) in
      match query_count d whereClause with
      | None => None
      | Some (Err e) => Some (StatusInternalServerError e)
      | Some (Ok total) =>
          match query_page d whereClause
                  (PaginationParams.PageSize params) offset with
          | None => None
          | Some (Err e) => Some (StatusInternalServerError e)
          | Some (Ok rows) =>
              let videos := scanVideoRows rows in
              let queue := group_videos total videos in
              Some (StatusOK
                {| queue := queue;
                   pagination :=
                     {| page := PaginationParams.Page params;
                        pageSize := PaginationParams.PageSize params;
                        total := total;
                        pages := page_count total
                                   (PaginationParams.PageSize params) |} |})
          end
      end
  end.

(** ** Reference definitions the handler is compared with *)

(** Validated parameters. *)
Definition valid_params (params : PaginationParams.t) : Prop :=
  1 ≤ PaginationParams.Page params ∧
  1 ≤ PaginationParams.PageSize params ≤ 100.

#[export] Instance valid_params_dec params : Decision (valid_params params).
Proof. unfold valid_params. apply _. Defined.

(** The rows a status filter selects, in the order of the engine. *)
Definition selected `{QueryEngine} (Status : string) (t : list row) : list row :=
  order_by (filter (λ r, row_matches (where_of_status Status) r) t).

(** The statuses that have a bucket. *)
Definition recognised (s : string) : Prop :=
  s = "pending" ∨ s = "processing" ∨ s = "completed".

#[export] Instance recognised_dec s : Decision (recognised s).
Proof. unfold recognised. apply _. Defined.

(** The videos of a queue, in the order of the page. *)
Definition queue_videos (q : VideoQueue.t) : list Video.t :=
  VideoQueue.Processing q ++ VideoQueue.Pending q ++ VideoQueue.Completed q.

(** The conversion of a row without NULLs. *)
Definition video_of_row (r : row) : Video.t :=
  Video.mk (row_id r) (row_path r) (default "" (row_resolution r))
           (default "" (row_bitrate r)) (row_status r) (row_original_size r).

(** The largest page whose offset fits in an [int] whatever the page size. *)
Definition max_safe_page : Z := int_max / 100 + 1.

(** A table whose row count, rounded up to a page, is an [int]. *)
Definition table_fits (t : list row) : Prop := Z.of_nat (length t) + 100 ≤ int_max.

(** The order of the page, read on videos. *)
Definition video_le (v1 v2 : Video.t) : Prop :=
  status_rank (Video.Status v1) < status_rank (Video.Status v2)
  ∨ (status_rank (Video.Status v1) = status_rank (Video.Status v2)
     ∧ String.le (Video.Path v1) (Video.Path v2)).

#[export] Instance video_le_dec : RelDecision video_le.
Proof. intros v1 v2. unfold video_le. apply _. Defined.

Definition with_page (params : PaginationParams.t) (i : Z) : PaginationParams.t :=
  PaginationParams.mk i (PaginationParams.PageSize params)
    (PaginationParams.Status params).

(** *** The specification of the view

    What a request for validated parameters is to return from a table [t],
    stated on mathematical integers and on lists: the page is a window of the
    selected rows, the buckets are the videos of the page by status, the page
    count is the row count over the page size, rounded up. *)

Definition spec_rows `{QueryEngine} (t : list row)
    (params : PaginationParams.t) : list row :=
  window (Z.to_nat (PaginationParams.PageSize params))
         (Z.to_nat ((PaginationParams.Page params - 1)
                    * PaginationParams.PageSize params))
         (selected (PaginationParams.Status params) t).

Definition spec_queue (total : Z) (videos : list Video.t) : VideoQueue.t :=
  VideoQueue.mk (filter (λ v, Video.Status v = "pending") videos)
                (filter (λ v, Video.Status v = "processing") videos)
                (filter (λ v, Video.Status v = "completed") videos)
                total.

Definition spec_body `{QueryEngine} (t : list row)
    (params : PaginationParams.t) : QueueBody :=
  let total := Z.of_nat (length (selected (PaginationParams.Status params) t)) in
  {| queue := spec_queue total (scanVideoRows (spec_rows t params));
     pagination :=
       {| page := PaginationParams.Page params;
          pageSize := PaginationParams.PageSize params;
          total := total;
          pages := (total + PaginationParams.PageSize params - 1)
                   / PaginationParams.PageSize params |} |}.

(** The number of pages announced, as a number of requests to make. *)
Definition page_requests `{QueryEngine} (t : list row)
    (params : PaginationParams.t) : nat :=
  Z.to_nat (page_count
    (Z.of_nat (length (selected (PaginationParams.Status params) t)))
    (PaginationParams.PageSize params)).

(** The page of the specification's second scenario. *)
Definition demo_params : PaginationParams.t := PaginationParams.mk 2 2 "".

(** The body the specification gives for that page of the example table. *)
Definition demo_body : QueueBody := spec_body demo_table demo_params.

(** A table of two rows that no response shows: one has a status without a
    bucket, the other a NULL resolution. *)
Definition hidden_table : list row :=
  [demo_row "x.mp4" "failed";
   mkRow "y.mp4" "videos/y.mp4" None (Some "5000k") "pending" 1048576].

(** A row that [getQueue] counts and never shows. *)
Definition hidden_row (r : row) : Prop :=
  ¬ recognised (row_status r) ∨ row_resolution r = None ∨ row_bitrate r = None.

#[export] Instance hidden_row_dec r : Decision (hidden_row r).
Proof. unfold hidden_row. apply _. Defined.

(** A page whose offset wraps around to a negative number. *)
Definition overflow_params : PaginationParams.t :=
  PaginationParams.mk (2 ^ 61 + 1) 5 "".

(** The videos of a response, in page order; none for an error. *)
Definition response_videos (r : option (response db_error QueueBody)) :
    list Video.t :=
  match r with
  | Some (StatusOK body) => queue_videos (queue body)
  | _ => []
  end.

(** ** Validation *)

Lemma validate_valid params : valid_params (validate params).
Proof. unfold valid_params, validate. simpl. repeat case_decide; lia. Qed.

Lemma validate_id params : valid_params params → validate params = params.
Proof.
  intros [? ?]. destruct params as [p s f]. unfold validate. simpl in *.
  rewrite !decide_False by lia. done.
Qed.

Lemma validate_idem params : validate (validate params) = validate params.
Proof. apply validate_id, validate_valid. Qed.

Lemma validate_Status params :
  PaginationParams.Status (validate params) = PaginationParams.Status params.
Proof. done. Qed.

Lemma validate_Page params :
  PaginationParams.Page (validate params) = 1 `max` PaginationParams.Page params.
Proof. unfold validate. simpl. case_decide; lia. Qed.

(** ** The offset *)

Lemma offset_of_exact params :
  valid_params params →
  (PaginationParams.Page params - 1) * PaginationParams.PageSize params ≤ int_max →
  offset_of params
  = (PaginationParams.Page params - 1) * PaginationParams.PageSize params.
Proof.
  intros [? ?] Hmax. unfold offset_of.
  rewrite int_sub_exact, int_mul_exact; [done|..];
    unfold in_int, int_min, int_max in *; nia.
Qed.

Lemma offset_of_safe_page params :
  valid_params params → PaginationParams.Page params ≤ max_safe_page →
  (PaginationParams.Page params - 1) * PaginationParams.PageSize params ≤ int_max.
Proof.
  intros [? ?]. unfold max_safe_page, int_max.
  change ((2 ^ 63 - 1) / 100 + 1) with 92233720368547759. nia.
Qed.

Lemma offset_of_in_int params : in_int (offset_of params).
Proof. apply wrap_in_int. Qed.

(** ** The page count *)

Lemma page_count_ceil total pageSize :
  0 ≤ total → 1 ≤ pageSize ≤ 100 → total + pageSize - 1 ≤ int_max →
  page_count total pageSize = (total + pageSize - 1) / pageSize.
Proof.
  intros. unfold page_count.
  assert (in_int (total + pageSize - 1)) by (unfold in_int, int_min, int_max in *; lia).
  rewrite int_sub_add, wrap_id by done. apply int_div_exact; (done || lia).
Qed.

(** ** Scanning rows *)

Lemma scan_row_Some r v :
  scan_row r = Some v ↔
  ∃ res bit, row_resolution r = Some res ∧ row_bitrate r = Some bit ∧
    v = Video.mk (row_id r) (row_path r) res bit (row_status r)
          (row_original_size r).
Proof.
  unfold scan_row. destruct (row_resolution r), (row_bitrate r);
    split; intros; break_hyps; eauto.
Qed.

Lemma scan_row_None r :
  scan_row r = None ↔ row_resolution r = None ∨ row_bitrate r = None.
Proof.
  unfold scan_row. destruct (row_resolution r), (row_bitrate r);
    split; intros; break_hyps; eauto.
Qed.

Lemma scan_row_no_null r :
  is_Some (row_resolution r) ∧ is_Some (row_bitrate r) →
  scan_row r = Some (video_of_row r).
Proof.
  intros [[res Hres] [bit Hbit]]. unfold scan_row, video_of_row.
  by rewrite Hres, Hbit.
Qed.

Lemma scan_row_Status r v : scan_row r = Some v → Video.Status v = row_status r.
Proof. intros (? & ? & ? & ? & ->)%scan_row_Some. done. Qed.

Lemma scan_row_Path r v : scan_row r = Some v → Video.Path v = row_path r.
Proof. intros (? & ? & ? & ? & ->)%scan_row_Some. done. Qed.

Lemma scanVideoRows_no_nulls rows :
  no_nulls rows → scanVideoRows rows = video_of_row <$> rows.
Proof.
  unfold scanVideoRows. induction 1 as [|r rows Hr _ IH]; [done|].
  simpl. rewrite (scan_row_no_null r Hr). simpl. by f_equal.
Qed.

Lemma scanVideoRows_length rows : (length (scanVideoRows rows) ≤ length rows)%nat.
Proof. unfold scanVideoRows. apply length_omap_le. Qed.

Lemma scanVideoRows_app rows1 rows2 :
  scanVideoRows (rows1 ++ rows2) = scanVideoRows rows1 ++ scanVideoRows rows2.
Proof. apply omap_app. Qed.

Lemma scanVideoRows_elem v rows :
  v ∈ scanVideoRows rows ↔ ∃ r, r ∈ rows ∧ scan_row r = Some v.
Proof. unfold scanVideoRows. apply list_elem_of_omap. Qed.

(** ** Grouping *)

Lemma foldl_group_step q videos :
  foldl group_step q videos =
  VideoQueue.mk
    (VideoQueue.Pending q ++ filter (λ v, Video.Status v = "pending") videos)
    (VideoQueue.Processing q ++ filter (λ v, Video.Status v = "processing") videos)
    (VideoQueue.Completed q ++ filter (λ v, Video.Status v = "completed") videos)
    (VideoQueue.Total q).
Proof.
  revert q. induction videos as [|v videos IH]; intros q; simpl.
  - rewrite !filter_nil, !app_nil_r. by destruct q.
  - rewrite IH, !filter_cons. unfold group_step.
    repeat case_decide; simpl; rewrite <-?app_assoc; (done || congruence).
Qed.

Lemma group_videos_spec total videos :
  group_videos total videos = spec_queue total videos.
Proof. unfold group_videos. by rewrite foldl_group_step. Qed.

(** ** The queries of the handler, for a filter without a quote *)

Section queries.
Context `{QueryEngine}.
Implicit Types (d : DB) (t : list row) (params : PaginationParams.t).

Lemma selected_perm Status t :
  selected Status t ≡ₚ filter (λ r, row_matches (where_of_status Status) r) t.
Proof. apply order_by_perm. Qed.

Lemma selected_length Status t :
  length (selected Status t)
  = length (filter (λ r, row_matches (where_of_status Status) r) t).
Proof. by rewrite selected_perm. Qed.

Lemma selected_length_le Status t : (length (selected Status t) ≤ length t)%nat.
Proof. rewrite selected_length. apply length_filter. Qed.

Lemma selected_sorted Status t : StronglySorted row_le (selected Status t).
Proof. apply Sorted_StronglySorted; [apply _|]. apply order_by_sorted. Qed.

Lemma selected_elem r Status t :
  r ∈ selected Status t ↔ r ∈ t ∧ row_matches (where_of_status Status) r.
Proof. unfold selected. by rewrite order_by_perm, list_elem_of_filter, (comm and). Qed.

Lemma selected_status r Status t :
  Status ≠ "" → r ∈ selected Status t → row_status r = Status.
Proof.
  intros Hs [_ Hr]%selected_elem. unfold where_of_status in Hr.
  rewrite decide_False in Hr by done. by apply bool_decide_unpack in Hr.
Qed.

Lemma selected_no_nulls Status t : no_nulls t → no_nulls (selected Status t).
Proof.
  unfold no_nulls. rewrite !Forall_forall. intros Ht r [? _]%selected_elem. eauto.
Qed.

Lemma query_count_quote_free d Status :
  quote_free Status = true →
  query_count d (whereClause Status)
  = Some (t <- table_of d ;; Ok (Z.of_nat (length (selected Status t)))).
Proof.
  intros. unfold query_count. rewrite run_select_quote_free by done.
  destruct (table_of d); simpl; [|done]. by rewrite selected_length.
Qed.

Lemma query_page_quote_free d Status limit offset :
  quote_free Status = true → 0 ≤ limit →
  query_page d (whereClause Status) limit offset
  = Some (t <- table_of d ;;
          if decide (offset < 0) then Err NegativeOffset
          else Ok (window (Z.to_nat limit) (Z.to_nat offset) (selected Status t))).
Proof.
  intros. unfold query_page. rewrite run_select_quote_free by done.
  destruct (table_of d); simpl; [|done]. rewrite decide_False by lia.
  case_decide; [done|]. by rewrite windowZ_window.
Qed.

(** The handler on its success path, before any arithmetic is simplified. *)
Lemma getQueue_unfold d t params :
  table_of d = Ok t →
  quote_free (PaginationParams.Status params) = true →
  0 ≤ offset_of (validate params) →
  getQueue d (Some params) =
  let p := validate params in
  let total := Z.of_nat (length (selected (PaginationParams.Status p) t)) in
  Some (StatusOK
    {| queue := spec_queue total (scanVideoRows
         (window (Z.to_nat (PaginationParams.PageSize p))
                 (Z.to_nat (offset_of p))
                 (selected (PaginationParams.Status p) t)));
       pagination :=
         {| page := PaginationParams.Page p;
            pageSize := PaginationParams.PageSize p;
            total := total;
            pages := page_count total (PaginationParams.PageSize p) |} |}).
Proof.
  intros Ht Hq Hoff. pose proof (validate_valid params) as [? ?].
  unfold getQueue. rewrite validate_Status.
  rewrite query_count_quote_free, query_page_quote_free by (done || lia).
  rewrite Ht. simpl. rewrite decide_False by lia.
  by rewrite group_videos_spec.
Qed.

Lemma getQueue_table_error d e params :
  table_of d = Err e →
  quote_free (PaginationParams.Status params) = true →
  getQueue d (Some params) = Some (StatusInternalServerError e).
Proof.
  intros Ht Hq. unfold getQueue. rewrite validate_Status.
  rewrite query_count_quote_free by done. by rewrite Ht.
Qed.

Lemma getQueue_offset_error d t params :
  table_of d = Ok t →
  quote_free (PaginationParams.Status params) = true →
  offset_of (validate params) < 0 →
  getQueue d (Some params) = Some (StatusInternalServerError NegativeOffset).
Proof.
  intros Ht Hq Hoff. pose proof (validate_valid params) as [? ?].
  unfold getQueue. rewrite validate_Status.
  rewrite query_count_quote_free, query_page_quote_free by (done || lia).
  rewrite Ht. simpl. by rewrite decide_True.
Qed.

Lemma spec_total_fits Status t pageSize :
  table_fits t → 1 ≤ pageSize ≤ 100 →
  Z.of_nat (length (selected Status t)) + pageSize - 1 ≤ int_max.
Proof.
  unfold table_fits. intros. pose proof (selected_length_le Status t). lia.
Qed.
End queries.

(** ** The order of a page and of its buckets *)

Section order.
Context `{QueryEngine}.
Implicit Types (d : DB) (t rows : list row) (videos : list Video.t).

Lemma scan_row_le r1 r2 v1 v2 :
  scan_row r1 = Some v1 → scan_row r2 = Some v2 → row_le r1 r2 → video_le v1 v2.
Proof.
  intros H1 H2. unfold row_le, video_le.
  by rewrite (scan_row_Status _ _ H1), (scan_row_Status _ _ H2),
    (scan_row_Path _ _ H1), (scan_row_Path _ _ H2).
Qed.

Lemma scanVideoRows_sorted rows :
  StronglySorted row_le rows → StronglySorted video_le (scanVideoRows rows).
Proof. apply StronglySorted_omap, scan_row_le. Qed.

Lemma video_le_rank v1 v2 :
  video_le v1 v2 → status_rank (Video.Status v1) ≤ status_rank (Video.Status v2).
Proof. unfold video_le. lia. Qed.

Lemma video_le_path s v1 v2 :
  Video.Status v1 = s → Video.Status v2 = s → video_le v1 v2 →
  String.le (Video.Path v1) (Video.Path v2).
Proof. unfold video_le. intros -> ->. intros [?|[_ ?]]; [lia|done]. Qed.

(** A sorted page is its three buckets, in priority order, followed by the
    videos whose status has no bucket. *)
Lemma sorted_page_split videos :
  StronglySorted video_le videos →
  videos = queue_videos (spec_queue 0 videos)
           ++ filter (λ v, ¬ recognised (Video.Status v)) videos.
Proof.
  intros Hs. unfold queue_videos, spec_queue. simpl.
  set (K := λ v, status_rank (Video.Status v)).
  assert (StronglySorted (λ v1 v2, K v1 ≤ K v2) videos) as Hk.
  { eapply (StronglySorted_impl_on _ _ (λ _, True)); [|by apply Forall_true|done].
    intros ? ? _ _. apply video_le_rank. }
  trans (filter (λ v, K v ≤ 1) videos ++
         filter (λ v, K v ≤ 2) (filter (λ v, 1 < K v) videos) ++
         filter (λ v, K v ≤ 3) (filter (λ v, 2 < K v) (filter (λ v, 1 < K v) videos)) ++
         filter (λ v, 3 < K v) (filter (λ v, 2 < K v) (filter (λ v, 1 < K v) videos))).
  { rewrite <-(sorted_split_at K 3), <-(sorted_split_at K 2), <-(sorted_split_at K 1);
      repeat apply StronglySorted_filter; done. }
  rewrite !list_filter_filter, <-!app_assoc.
  repeat f_equal; apply list_filter_iff; intros v; unfold K;
    unfold recognised, status_rank in *; repeat case_decide;
    intuition (lia || congruence).
Qed.

Lemma spec_queue_videos_total total total' videos :
  queue_videos (spec_queue total videos) = queue_videos (spec_queue total' videos).
Proof. done. Qed.

Lemma queue_videos_sorted total videos :
  StronglySorted video_le videos →
  StronglySorted video_le (queue_videos (spec_queue total videos)).
Proof.
  intros Hs. rewrite (spec_queue_videos_total _ 0).
  eapply StronglySorted_app_l. by rewrite <-sorted_page_split.
Qed.

Lemma queue_videos_recognised total videos :
  Forall (λ v, recognised (Video.Status v)) videos →
  StronglySorted video_le videos →
  queue_videos (spec_queue total videos) = videos.
Proof.
  intros Hr Hs. rewrite (sorted_page_split videos Hs) at 2.
  rewrite (filter_none (λ v, ¬ recognised _)), app_nil_r; [done|].
  eapply Forall_impl; [done|]. simpl. tauto.
Qed.

Lemma queue_videos_elem total videos v :
  v ∈ queue_videos (spec_queue total videos) → v ∈ videos.
Proof.
  unfold queue_videos, spec_queue. simpl.
  rewrite !elem_of_app, !list_elem_of_filter. tauto.
Qed.

Lemma queue_videos_length_le total videos :
  StronglySorted video_le videos →
  (length (queue_videos (spec_queue total videos)) ≤ length videos)%nat.
Proof.
  intros Hs. rewrite (spec_queue_videos_total _ 0).
  pose proof (f_equal length (sorted_page_split videos Hs)) as E.
  rewrite length_app in E. lia.
Qed.

Lemma bucket_sorted s videos :
  StronglySorted video_le videos →
  StronglySorted (λ v1 v2, String.le (Video.Path v1) (Video.Path v2))
    (filter (λ v, Video.Status v = s) videos).
Proof.
  intros Hs. eapply (StronglySorted_impl_on video_le _ (λ v, Video.Status v = s)).
  - intros ? ?. apply video_le_path.
  - apply Forall_forall. by intros v [? _]%list_elem_of_filter.
  - by apply StronglySorted_filter.
Qed.
End order.

(** ** What a successful response is made of *)

Section inversion.
Context `{QueryEngine}.
Implicit Types (d : DB) (t rows : list row) (body : QueueBody).

Lemma getQueue_Ok_inv d bound body :
  getQueue d bound = Some (StatusOK body) →
  ∃ params sem t rows,
    bound = Some params ∧ table_of d = Ok t ∧
    interp_where (whereClause (PaginationParams.Status params)) = sem ∧
    rows = window (Z.to_nat (PaginationParams.PageSize (validate params)))
             (Z.to_nat (offset_of (validate params)))
             (order_by (filter (λ r, row_matches sem r) t)) ∧
    0 ≤ offset_of (validate params) ∧
    queue body = spec_queue (total (pagination body)) (scanVideoRows rows) ∧
    total (pagination body)
      = Z.of_nat (length (filter (λ r, row_matches sem r) t)) ∧
    page (pagination body) = PaginationParams.Page (validate params) ∧
    pageSize (pagination body) = PaginationParams.PageSize (validate params) ∧
    pages (pagination body)
      = page_count (total (pagination body))
          (PaginationParams.PageSize (validate params)).
Proof.
  unfold getQueue. destruct bound as [params|]; [|done].
  rewrite validate_Status.
  destruct (query_count _ _) as [[n|?]|] eqn:Hc; try done.
  destruct (query_page _ _ _ _) as [[rows|?]|] eqn:Hp; try done.
  intros [= <-]. simpl.
  apply query_count_Ok in Hc as (sem & t & Hsem & Ht & ->).
  apply query_page_Ok in Hp as (sem' & t' & Hsem' & Ht' & _ & ? & ->).
  assert (t' = t) as -> by congruence. subst.
  do 4 eexists. rewrite group_videos_spec. split_and!; done.
Qed.

Lemma page_rows_sorted (P : row → Prop) `{∀ r, Decision (P r)} limit offset t :
  StronglySorted row_le (window limit offset (order_by (filter P t))).
Proof.
  apply StronglySorted_window, Sorted_StronglySorted; [apply _|].
  apply order_by_sorted.
Qed.
End inversion.

(** ** The handler implements the specification *)

Section refinement.
Context `{QueryEngine}.
Implicit Types (d : DB) (t rows : list row) (body : QueueBody).

Lemma getQueue_spec d t params :
  table_of d = Ok t → table_fits t →
  quote_free (PaginationParams.Status params) = true →
  (PaginationParams.Page (validate params) - 1)
    * PaginationParams.PageSize (validate params) ≤ int_max →
  getQueue d (Some params) = Some (StatusOK (spec_body t (validate params))).
Proof.
  intros Ht Hfit Hq Hoff. pose proof (validate_valid params) as Hv.
  pose proof Hv as [? ?].
  assert (offset_of (validate params)
          = (PaginationParams.Page (validate params) - 1)
            * PaginationParams.PageSize (validate params)) as Eoff
    by by apply offset_of_exact.
  rewrite (getQueue_unfold d t) by (done || nia). simpl.
  unfold spec_body, spec_rows. rewrite Eoff, page_count_ceil; [done|lia|done|].
  by apply spec_total_fits.
Qed.

(** C1. For a table that is reachable, a status filter without a quote and a
    page whose offset does not overflow, [getQueue] answers 200 with exactly
    the body of the specification: the window of the selected rows for the
    validated page, grouped by status, with the exact count and the count
    of pages rounded up. *)
Theorem getQueue_refines_spec d t params :
  table_of d = Ok t → table_fits t →
  quote_free (PaginationParams.Status params) = true →
  (PaginationParams.Page (validate params) - 1)
    * PaginationParams.PageSize (validate params) ≤ int_max →
  getQueue d (Some params) = Some (StatusOK (spec_body t (validate params))).
Proof. apply getQueue_spec. Qed.

(** C5. Ordering: in every successful response the videos, read bucket after
    bucket from processing over pending to completed, are in the order of
    the query, and each bucket is sorted by path. *)
Theorem getQueue_sorted d bound body :
  getQueue d bound = Some (StatusOK body) →
  StronglySorted video_le (queue_videos (queue body)) ∧
  Forall (StronglySorted (λ v1 v2, String.le (Video.Path v1) (Video.Path v2)))
    [VideoQueue.Processing (queue body); VideoQueue.Pending (queue body);
     VideoQueue.Completed (queue body)].
Proof.
  intros (params & sem & t & rows & _ & _ & _ & -> & _ & -> & _)%getQueue_Ok_inv.
  pose proof (scanVideoRows_sorted _ (page_rows_sorted
    (λ r, row_matches sem r) (Z.to_nat (PaginationParams.PageSize (validate params)))
    (Z.to_nat (offset_of (validate params))) t)) as Hs.
  split; [by apply queue_videos_sorted|].
  repeat constructor; by apply bucket_sorted.
Qed.

(** C9. Every video of a bucket has the status of the bucket, and a
    successful response shows at most one page of videos. *)
Theorem getQueue_buckets d bound body :
  getQueue d bound = Some (StatusOK body) →
  Forall (λ v, Video.Status v = "pending") (VideoQueue.Pending (queue body)) ∧
  Forall (λ v, Video.Status v = "processing") (VideoQueue.Processing (queue body)) ∧
  Forall (λ v, Video.Status v = "completed") (VideoQueue.Completed (queue body)) ∧
  Z.of_nat (length (queue_videos (queue body))) ≤ pageSize (pagination body) ∧
  Z.of_nat (length (queue_videos (queue body))) ≤ total (pagination body) ∧
  VideoQueue.Total (queue body) = total (pagination body).
Proof.
  intros (params & sem & t & rows & _ & _ & _ & -> & _ & Hq & Ht & _ & Hps & _)%getQueue_Ok_inv.
  pose proof (validate_valid params) as [_ ?].
  rewrite Hq, Hps, Ht. cbn [spec_queue VideoQueue.Pending VideoQueue.Processing
    VideoQueue.Completed VideoQueue.Total].
  split_and!; try (apply Forall_forall; by intros v [? _]%list_elem_of_filter);
    [..|done]; rewrite <-Ht;
    (etrans; [apply inj_le, queue_videos_length_le, scanVideoRows_sorted,
                page_rows_sorted|]);
    (etrans; [apply inj_le, scanVideoRows_length|]);
    rewrite window_length, (Permutation_length (order_by_perm _)); lia.
Qed.
End refinement.

(** ** The pages of a view tile the selected rows *)

Section tiling.
Context `{QueryEngine}.
Implicit Types (d : DB) (t rows : list row) (params : PaginationParams.t).

Lemma spec_rows_window t params (i : nat) :
  0 ≤ PaginationParams.PageSize params →
  spec_rows t (with_page params (Z.of_nat i + 1))
  = window (Z.to_nat (PaginationParams.PageSize params))
      (i * Z.to_nat (PaginationParams.PageSize params))
      (selected (PaginationParams.Status params) t).
Proof. intros. unfold spec_rows, with_page. simpl. f_equal. nia. Qed.

Lemma page_requests_cover t params :
  table_fits t → valid_params params →
  (length (selected (PaginationParams.Status params) t)
   ≤ page_requests t params * Z.to_nat (PaginationParams.PageSize params))%nat.
Proof.
  intros Hfit [_ ?]. unfold page_requests.
  rewrite page_count_ceil; [|lia|done|by apply spec_total_fits].
  set (total := Z.of_nat _). set (ps := PaginationParams.PageSize params).
  destruct (proj1 (ceil_div_spec total ps _ ltac:(lia)) eq_refl) as [_ Hle].
  pose proof (ceil_div_nonneg total ps ltac:(lia) ltac:(lia)). unfold total in *. nia.
Qed.

Lemma page_requests_offset t params (i : nat) :
  table_fits t → valid_params params → (i < page_requests t params)%nat →
  Z.of_nat i * PaginationParams.PageSize params ≤ int_max.
Proof.
  intros Hfit [_ ?]. unfold page_requests.
  rewrite page_count_ceil; [|lia|done|by apply spec_total_fits].
  pose proof (selected_length_le (PaginationParams.Status params) t).
  set (total := Z.of_nat _) in *. set (ps := PaginationParams.PageSize params) in *.
  destruct (proj1 (ceil_div_spec total ps _ ltac:(lia)) eq_refl) as [Hlt _].
  unfold table_fits in Hfit. intros Hi. nia.
Qed.

Lemma spec_rows_tile t params :
  table_fits t → valid_params params →
  concat ((λ i, spec_rows t (with_page params (Z.of_nat i + 1)))
            <$> seq 0 (page_requests t params))
  = selected (PaginationParams.Status params) t.
Proof.
  intros Hfit Hv. pose proof Hv as [_ ?].
  erewrite list_fmap_ext; [|intros ???; apply spec_rows_window; lia].
  by apply window_concat, page_requests_cover.
Qed.

(** The videos of the [i]-th request, for a table without NULLs whose
    statuses all have a bucket. *)
Lemma getQueue_page_videos d t params (i : nat) :
  table_of d = Ok t → table_fits t → no_nulls t →
  Forall (λ r, recognised (row_status r)) t →
  quote_free (PaginationParams.Status params) = true →
  valid_params params → (i < page_requests t params)%nat →
  response_videos (getQueue d (Some (with_page params (Z.of_nat i + 1))))
  = video_of_row <$> spec_rows t (with_page params (Z.of_nat i + 1)).
Proof.
  intros Ht Hfit Hnn Hrec Hq Hv Hi. pose proof Hv as [_ ?].
  assert (valid_params (with_page params (Z.of_nat i + 1))) as Hvi
    by (split; simpl; lia).
  rewrite (getQueue_spec d t); rewrite ?(validate_id _ Hvi); [|done..|].
  2: { simpl. replace (Z.of_nat i + 1 - 1) with (Z.of_nat i) by lia.
       by eapply page_requests_offset. }
  simpl. set (rows := spec_rows _ _).
  assert (no_nulls rows) as Hnr by by apply Forall_window, selected_no_nulls.
  rewrite (scanVideoRows_no_nulls _ Hnr) in *.
  apply queue_videos_recognised.
  - rewrite Forall_fmap. apply Forall_window.
    rewrite Forall_forall in *. intros r [? _]%selected_elem. by apply Hrec.
  - rewrite <-scanVideoRows_no_nulls by done.
    apply scanVideoRows_sorted, StronglySorted_window, selected_sorted.
Qed.

(** The pages of a view, one after the other, are the selected rows. *)
Lemma getQueue_tile d t params :
  table_of d = Ok t → table_fits t → no_nulls t →
  Forall (λ r, recognised (row_status r)) t →
  quote_free (PaginationParams.Status params) = true →
  valid_params params →
  concat ((λ i, response_videos
                  (getQueue d (Some (with_page params (Z.of_nat i + 1)))))
            <$> seq 0 (page_requests t params))
  = video_of_row <$> selected (PaginationParams.Status params) t.
Proof.
  intros Ht Hfit Hnn Hrec Hq Hv.
  rewrite <-(spec_rows_tile t params) by done.
  rewrite fmap_concat, <-list_fmap_compose. f_equal.
  apply list_fmap_ext. intros j i [-> Hi]%lookup_seq. simpl.
  by apply getQueue_page_videos.
Qed.

(** C2. Pagination exactness: for a table without NULLs whose statuses all
    have a bucket, requesting the pages from 1 to the announced page count
    and reading each response bucket after bucket yields every selected row
    exactly once, in the order of the query. *)
Theorem getQueue_pages_tile d t params :
  table_of d = Ok t → table_fits t → no_nulls t →
  Forall (λ r, recognised (row_status r)) t →
  quote_free (PaginationParams.Status params) = true →
  valid_params params →
  concat ((λ i, response_videos
                  (getQueue d (Some (with_page params (Z.of_nat i + 1)))))
            <$> seq 0 (page_requests t params))
  = video_of_row <$> selected (PaginationParams.Status params) t.
Proof. apply getQueue_tile. Qed.
End tiling.

(** ** Validation, offset and page count as the handler computes them *)

Lemma validate_oversize params :
  PaginationParams.PageSize params < 1 ∨ 100 < PaginationParams.PageSize params →
  PaginationParams.PageSize (validate params) = 10.
Proof. intros. unfold validate. simpl. rewrite decide_True by lia. done. Qed.

Lemma validate_low_page params :
  PaginationParams.Page params < 1 → PaginationParams.Page (validate params) = 1.
Proof. intros. unfold validate. simpl. rewrite decide_True by lia. done. Qed.

(** C34. Validation puts the page at 1 or more and the page size between 1
    and 100, keeps the status filter, and changes no parameter that is
    already in range. A page below 1 becomes 1. A page size outside 1..100
    becomes the default 10: a size above 100 is not clamped to 100. *)
Theorem validate_bounds params :
  valid_params (validate params)
  ∧ PaginationParams.Status (validate params) = PaginationParams.Status params
  ∧ validate (validate params) = validate params
  ∧ (valid_params params → validate params = params)
  ∧ (PaginationParams.Page params < 1 →
     PaginationParams.Page (validate params) = 1)
  ∧ (PaginationParams.PageSize params < 1
     ∨ 100 < PaginationParams.PageSize params →
     PaginationParams.PageSize (validate params) = 10).
Proof.
  split_and!; [apply validate_valid|done|apply validate_idem|apply validate_id
              |apply validate_low_page|apply validate_oversize].
Qed.

(** C35. Up to page [max_safe_page] the offset is the mathematical
    [(page - 1) * pageSize]: the multiplication does not overflow and the
    offset is not negative. *)
Theorem offset_of_no_overflow params :
  valid_params params → PaginationParams.Page params ≤ max_safe_page →
  offset_of params
  = (PaginationParams.Page params - 1) * PaginationParams.PageSize params
  ∧ 0 ≤ offset_of params.
Proof.
  intros Hv Hp. pose proof Hv as [? ?].
  rewrite offset_of_exact; [split; [done|nia]|done|by apply offset_of_safe_page].
Qed.

Lemma offset_of_no_overflow_witness :
  offset_of demo_params = (2 - 1) * 2 ∧ 0 ≤ offset_of demo_params.
Proof. apply (offset_of_no_overflow demo_params); vm_compute; intuition congruence. Defined.

(** The page count the handler reports is the row count over the page
    size, rounded up: the least number of pages that hold every row. *)
Theorem page_count_is_ceiling total pageSize :
  0 ≤ total → 1 ≤ pageSize ≤ 100 → total + pageSize - 1 ≤ int_max →
  (page_count total pageSize - 1) * pageSize < total
    ≤ page_count total pageSize * pageSize.
Proof.
  intros. rewrite page_count_ceil by done. by apply ceil_div_spec; [lia|].
Qed.

Lemma page_count_is_ceiling_witness :
  (page_count 6 4 - 1) * 4 < 6 ≤ page_count 6 4 * 4.
Proof. apply page_count_is_ceiling; vm_compute; intuition congruence. Defined.

(** ** Error paths and overflow *)

Section errors.
Context `{QueryEngine}.
Implicit Types (d : DB) (t : list row) (params : PaginationParams.t).

(** A response's videos depend on the page only through the offset. *)
Lemma response_videos_offset d params1 params2 :
  PaginationParams.Status params1 = PaginationParams.Status params2 →
  PaginationParams.PageSize (validate params1)
    = PaginationParams.PageSize (validate params2) →
  offset_of (validate params1) = offset_of (validate params2) →
  response_videos (getQueue d (Some params1))
  = response_videos (getQueue d (Some params2)).
Proof.
  intros Hs Hps Hoff. unfold getQueue. rewrite !validate_Status, Hs, Hps, Hoff.
  destruct (query_count _ _) as [[n|?]|]; [|done..].
  by destruct (query_page _ _ _ _) as [[rows|?]|].
Qed.

Lemma getQueue_error_inv d bound e :
  getQueue d bound = Some (StatusInternalServerError e) →
  e = ConnectionError ∨ e = SyntaxError ∨ e = UndefinedTable
  ∨ e = NegativeOffset.
Proof.
  unfold getQueue. destruct bound as [params|]; [|done].
  pose proof (validate_valid params) as [_ ?].
  destruct (query_count _ _) as [[n|e']|] eqn:Hc; [|intros [= ->]|done].
  - destruct (query_page _ _ _ _) as [[rows|e']|] eqn:Hp; [done|intros [= ->]|done].
    apply run_select_Err in Hp as [?|[?|[?|[rows Hk]]]]; auto.
    repeat case_decide; simplify_eq; (lia || auto).
  - apply run_select_Err in Hc as [?|[?|[?|[rows Hk]]]]; auto. done.
Qed.

(** C19. Overflow: with a page size of 4, adding [2 ^ 62] to the page number
    leaves the offset unchanged, so the handler serves the same videos for
    page [i] and for page [i + 2 ^ 62]. *)
Theorem getQueue_page_wraps d i Status :
  1 ≤ i →
  response_videos (getQueue d (Some (PaginationParams.mk (i + 2 ^ 62) 4 Status)))
  = response_videos (getQueue d (Some (PaginationParams.mk i 4 Status))).
Proof.
  intros Hi. apply response_videos_offset; [done|done|].
  rewrite !validate_id by (split; simpl; lia). unfold offset_of. simpl.
  rewrite !int_mul_sub.
  replace ((i + 2 ^ 62 - 1) * 4) with ((i - 1) * 4 + 1 * 2 ^ 64) by lia.
  apply wrap_period.
Qed.

(** C20. Overflow: when the offset wraps around to a negative number the
    database rejects the page query and the handler answers 500. *)
Theorem getQueue_negative_offset d t params :
  table_of d = Ok t →
  quote_free (PaginationParams.Status params) = true →
  offset_of (validate params) < 0 →
  getQueue d (Some params) = Some (StatusInternalServerError NegativeOffset).
Proof. apply getQueue_offset_error. Qed.

(** When the database cannot be reached or the table is missing, the
    handler answers 500 with that error, whatever the page. *)
Theorem getQueue_store_error d e params :
  table_of d = Err e →
  quote_free (PaginationParams.Status params) = true →
  getQueue d (Some params) = Some (StatusInternalServerError e).
Proof. apply getQueue_table_error. Qed.

(** C33. The only errors the handler reports are a failed connection, a
    syntax error, a missing table and a negative offset: the limit it sends
    is never negative. A 500 answers a request that was bound; one that does
    not bind gets 400 before the database is asked. *)
Theorem getQueue_errors d bound e :
  getQueue d bound = Some (StatusInternalServerError e) →
  e ∈ [ConnectionError; SyntaxError; UndefinedTable; NegativeOffset]
  ∧ bound ≠ None ∧ getQueue d None = Some StatusBadRequest.
Proof.
  intros He. split_and!; [|by intros ->|done].
  apply getQueue_error_inv in He as [->|[->|[->| ->]]]; set_solver.
Qed.

(** With a status filter the response holds videos of that status
    only. *)
Theorem getQueue_filtered d params body v :
  PaginationParams.Status params ≠ "" →
  quote_free (PaginationParams.Status params) = true →
  getQueue d (Some params) = Some (StatusOK body) →
  v ∈ queue_videos (queue body) →
  Video.Status v = PaginationParams.Status params.
Proof.
  intros Hs Hq (params' & sem & t & rows & [= <-] & _ & Hsem & -> & _ & -> & _)%getQueue_Ok_inv.
  rewrite interp_whereClause_quote_free in Hsem by done. subst sem.
  intros (r & Hr & Hscan)%queue_videos_elem%scanVideoRows_elem.
  rewrite (scan_row_Status _ _ Hscan).
  eapply selected_status; [done|]. eapply elem_of_sublist; [done|apply window_sublist].
Qed.
End errors.

(** ** Rows that are counted and not shown *)

Section hidden.
Context `{QueryEngine}.
Implicit Types (d : DB) (t : list row) (params : PaginationParams.t).

Lemma queue_videos_recognised_elem total videos v :
  v ∈ queue_videos (spec_queue total videos) → recognised (Video.Status v).
Proof.
  unfold queue_videos, spec_queue, recognised. simpl.
  rewrite !elem_of_app, !list_elem_of_filter. tauto.
Qed.

Lemma hidden_rows_no_videos total rows :
  Forall hidden_row rows → queue_videos (spec_queue total (scanVideoRows rows)) = [].
Proof.
  intros Hh. apply elem_of_nil_inv. intros v Hv.
  pose proof (queue_videos_recognised_elem _ _ _ Hv) as Hrec.
  apply queue_videos_elem, scanVideoRows_elem in Hv as (r & Hr & Hscan).
  rewrite Forall_forall in Hh. destruct (Hh r Hr) as [Hn|Hn].
  - by rewrite (scan_row_Status _ _ Hscan) in Hrec.
  - apply scan_row_Some in Hscan as (? & ? & ? & ? & _). destruct Hn; congruence.
Qed.

(** C32. Rows whose status is none of the three recognised ones, or that
    hold a NULL in a nullable column, are counted in the total and in the
    page count but appear in no bucket: for a table of such rows the response
    is 200 with empty buckets and the full count. *)
Theorem getQueue_hidden_rows d t params :
  table_of d = Ok t → table_fits t →
  quote_free (PaginationParams.Status params) = true →
  PaginationParams.Page (validate params) ≤ max_safe_page →
  Forall hidden_row t →
  ∃ body, getQueue d (Some params) = Some (StatusOK body)
    ∧ queue_videos (queue body) = []
    ∧ total (pagination body)
      = Z.of_nat (length (selected (PaginationParams.Status params) t)).
Proof.
  intros Ht Hfit Hq Hp Hh. eexists. split_and!.
  - apply getQueue_spec; [done..|]. by apply offset_of_safe_page, Hp; apply validate_valid.
  - simpl. apply hidden_rows_no_videos, Forall_window.
    rewrite Forall_forall in *. intros r [? _]%selected_elem. eauto.
  - done.
Qed.

(** A page after the last one is not an error: the response is 200
    with empty buckets and the totals of every other page. *)
Theorem getQueue_beyond_last_page d t params :
  table_of d = Ok t → table_fits t →
  quote_free (PaginationParams.Status params) = true →
  valid_params params → PaginationParams.Page params ≤ max_safe_page →
  Z.of_nat (page_requests t params) < PaginationParams.Page params →
  ∃ body, getQueue d (Some params) = Some (StatusOK body)
    ∧ queue_videos (queue body) = []
    ∧ pages (pagination body) = Z.of_nat (page_requests t params).
Proof.
  intros Ht Hfit Hq Hv Hp Hlast. pose proof Hv as [? ?]. eexists. split_and!.
  - apply getQueue_spec; [done..|]. rewrite validate_id by done.
    by apply offset_of_safe_page.
  - rewrite validate_id by done. simpl. unfold spec_rows.
    rewrite window_beyond; [done|].
    pose proof (page_requests_cover t params Hfit Hv). nia.
  - rewrite validate_id by done. simpl. unfold page_requests.
    rewrite page_count_ceil; [|lia|done|by apply spec_total_fits].
    rewrite Z2Nat.id; [done|]. apply ceil_div_nonneg; lia.
Qed.
End hidden.

(** ** The theorems at the example table *)

Lemma getQueue_refines_spec_witness :
  getQueue demo_db (Some demo_params)
  = Some (StatusOK (spec_body demo_table (validate demo_params))).
Proof.
  apply (getQueue_refines_spec demo_db demo_table demo_params);
    vm_compute; congruence.
Defined.

Lemma getQueue_pages_tile_witness :
  concat ((λ i, response_videos
                  (getQueue demo_db (Some (with_page demo_params (Z.of_nat i + 1)))))
            <$> seq 0 (page_requests demo_table demo_params))
  = video_of_row <$> selected (PaginationParams.Status demo_params) demo_table.
Proof.
  apply (getQueue_pages_tile demo_db demo_table demo_params);
    try (vm_compute; intuition congruence).
  - apply (bool_decide_unpack (no_nulls demo_table)). vm_compute. exact I.
  - apply (bool_decide_unpack (Forall (λ r, recognised (row_status r)) demo_table)).
    vm_compute. exact I.
Defined.

Lemma getQueue_sorted_witness :
  StronglySorted video_le (queue_videos (queue demo_body)) ∧
  Forall (StronglySorted (λ v1 v2, String.le (Video.Path v1) (Video.Path v2)))
    [VideoQueue.Processing (queue demo_body); VideoQueue.Pending (queue demo_body);
     VideoQueue.Completed (queue demo_body)].
Proof.
  apply (getQueue_sorted demo_db (Some demo_params) demo_body).
  vm_compute. reflexivity.
Defined.

Lemma getQueue_buckets_witness :
  Forall (λ v, Video.Status v = "pending") (VideoQueue.Pending (queue demo_body)) ∧
  Forall (λ v, Video.Status v = "processing") (VideoQueue.Processing (queue demo_body)) ∧
  Forall (λ v, Video.Status v = "completed") (VideoQueue.Completed (queue demo_body)) ∧
  Z.of_nat (length (queue_videos (queue demo_body))) ≤ pageSize (pagination demo_body) ∧
  Z.of_nat (length (queue_videos (queue demo_body))) ≤ total (pagination demo_body) ∧
  VideoQueue.Total (queue demo_body) = total (pagination demo_body).
Proof.
  apply (getQueue_buckets demo_db (Some demo_params) demo_body).
  vm_compute. reflexivity.
Defined.

Lemma getQueue_page_wraps_witness :
  response_videos (getQueue demo_db (Some (PaginationParams.mk (2 + 2 ^ 62) 4 "")))
  = response_videos (getQueue demo_db (Some (PaginationParams.mk 2 4 ""))).
Proof. apply (getQueue_page_wraps demo_db 2 ""). lia. Defined.

Lemma getQueue_negative_offset_witness :
  getQueue demo_db (Some overflow_params)
  = Some (StatusInternalServerError NegativeOffset).
Proof.
  apply (getQueue_negative_offset demo_db demo_table overflow_params);
    vm_compute; congruence.
Defined.

Lemma getQueue_store_error_witness :
  getQueue (mkDB false (Some demo_table)) (Some demo_params)
  = Some (StatusInternalServerError ConnectionError).
Proof.
  apply (getQueue_store_error (mkDB false (Some demo_table)) ConnectionError demo_params);
    reflexivity.
Defined.

Lemma getQueue_errors_witness :
  UndefinedTable ∈ [ConnectionError; SyntaxError; UndefinedTable; NegativeOffset]
  ∧ Some demo_params ≠ None
  ∧ getQueue (mkDB true None) None = Some StatusBadRequest.
Proof.
  apply (getQueue_errors (mkDB true None) (Some demo_params) UndefinedTable).
  reflexivity.
Defined.

Lemma getQueue_filtered_witness :
  Video.Status (video_of_row (demo_row "f.mp4" "pending")) = "pending".
Proof.
  apply (getQueue_filtered demo_db (PaginationParams.mk 2 2 "pending")
           (spec_body demo_table (PaginationParams.mk 2 2 "pending"))
           (video_of_row (demo_row "f.mp4" "pending"))).
  - done.
  - reflexivity.
  - vm_compute. reflexivity.
  - apply (bool_decide_unpack (_ ∈ _)). vm_compute. exact I.
Defined.

(** ** Scenarios of the specification, evaluated *)

(** Three pending, two processing and one completed item, first page of ten:
    all six, one page. *)
Example scenario_first_page :
  (λ b, (Video.ID <$> VideoQueue.Processing (queue b),
         Video.ID <$> VideoQueue.Pending (queue b),
         Video.ID <$> VideoQueue.Completed (queue b), pagination b))
    <$> match getQueue demo_db (Some (PaginationParams.mk 1 10 "")) with
        | Some (StatusOK b) => Some b
        | _ => None
        end
  = Some (["d.mp4"; "e.mp4"], ["b.mp4"; "c.mp4"; "f.mp4"], ["a.mp4"],
          mkPagination 1 10 6 1).
Proof. vm_compute. reflexivity. Qed.

(** Second page of two: the items ranked third and fourth, three pages. *)
Example scenario_second_page :
  (λ b, (Video.ID <$> queue_videos (queue b), pagination b))
    <$> match getQueue demo_db (Some demo_params) with
        | Some (StatusOK b) => Some b
        | _ => None
        end
  = Some (["b.mp4"; "c.mp4"], mkPagination 2 2 6 3).
Proof. vm_compute. reflexivity. Qed.

Lemma getQueue_hidden_rows_witness :
  ∃ body, getQueue (mkDB true (Some hidden_table)) (Some PaginationParams.default)
            = Some (StatusOK body)
    ∧ queue_videos (queue body) = []
    ∧ total (pagination body) = Z.of_nat (length (selected "" hidden_table)).
Proof.
  apply (getQueue_hidden_rows (mkDB true (Some hidden_table)) hidden_table
           PaginationParams.default); try (vm_compute; congruence).
  apply (bool_decide_unpack (Forall hidden_row hidden_table)). vm_compute. exact I.
Defined.

Lemma getQueue_beyond_last_page_witness :
  ∃ body, getQueue demo_db (Some (PaginationParams.mk 7 2 "")) = Some (StatusOK body)
    ∧ queue_videos (queue body) = []
    ∧ pages (pagination body)
      = Z.of_nat (page_requests demo_table (PaginationParams.mk 7 2 "")).
Proof.
  apply (getQueue_beyond_last_page demo_db demo_table (PaginationParams.mk 7 2 ""));
    vm_compute; intuition congruence.
Defined.

(** The hidden rows of the example: a total of two, and nothing to see. *)
Example scenario_hidden_rows :
  getQueue (mkDB true (Some hidden_table)) (Some PaginationParams.default)
  = Some (StatusOK (mkQueueBody (VideoQueue.mk [] [] [] 2) (mkPagination 1 10 2 1))).
Proof. vm_compute. reflexivity. Qed.

(** A video of a successful response is in the bucket of its status. *)
Lemma getQueue_pending_bucket `{QueryEngine} d bound body v :
  getQueue d bound = Some (StatusOK body) →
  v ∈ queue_videos (queue body) → Video.Status v = "pending" →
  v ∈ VideoQueue.Pending (queue body).
Proof.
  intros (params & sem & t & rows & _ & _ & _ & _ & _ & -> & _)%getQueue_Ok_inv
         Hv%queue_videos_elem Hs.
  by apply list_elem_of_filter.
Qed.
