(* ===== verification/Binding.v ===== *)
(** * Binding of requests and encoding of bodies

    The handlers of [src/backend/main.go] read their input through the
    framework: [getQueue] binds the query string to [PaginationParams] with
    [ShouldBindQuery] (line 155), [addToQueue] and [updateVideoStatus] bind
    the JSON body with [ShouldBindJSON] (lines 251 and 279). What is bound
    is fixed by the struct tags of the program: [form:"page,default=1"],
    [form:"pageSize,default=10"], [form:"status"] (lines 33-37),
    [json:"id"] to [json:"originalSize"] (lines 16-23) and [json:"status"]
    (line 276). The same tags fix the bodies the handlers write with
    [c.JSON].

    This file models binding and encoding between the program's structs
    and two wire formats taken as parsed: the query as the list of its
    pairs ([form], Go's [url.Values]) and the body as a JSON value
    ([json]). The text of a query string or of a JSON document is below
    this model.

    The form binder is modelled in the two behaviours the library has had
    for a parameter that is present and empty ([?page=]): the older one
    binds the empty string, the newer one the default of the tag. The
    section [query] takes the behaviour as [empty_default];
    [ShouldBindQuery_versions] shows that the handler cannot tell them
    apart. *)

From Stdlib Require Import Ascii.
From S2P Require Import Prelude GoInt Decimal Store QueueView.

#[local] Open Scope Z_scope.

(** ** The query string *)

(** The pairs of a query string in the order they are written. *)
Definition form : Type := list (string * string).

(** [form[key]]: the values given for a key. *)
Definition form_values (f : form) (key : string) : list string :=
  (filter (λ kv, kv.1 = key) f).*2.

Section query.
Context (empty_default : bool).

(** The string a field is set from: the first value of its key, the
    default of its tag when the key is absent. *)
Definition form_value (default : string) (vs : list string) : string :=
  match vs with
  | [] => default
  | v :: _ => if empty_default && bool_decide (v = "") then default else v
  end.

(** A field of type [int]: the empty string counts as ["0"]. *)
Definition setIntField (val : string) : result num_error Z :=
  ParseInt (if decide (val = "") then "0" else val).

(** [c.ShouldBindQuery(&params)]: the fields in the order of the struct,
    the first error ends the binding. *)
Definition ShouldBindQuery (f : form) : result num_error PaginationParams.t :=
  Page <- setIntField (form_value "1" (form_values f "page")) ;;
  PageSize <- setIntField (form_value "10" (form_values f "pageSize")) ;;
  Ok (PaginationParams.mk Page PageSize (form_value "" (form_values f "status"))).

End query.

(** The query a client writes for given parameters. *)
Definition query_of (params : PaginationParams.t) : form :=
  [("page", FormatInt (PaginationParams.Page params));
   ("pageSize", FormatInt (PaginationParams.PageSize params));
   ("status", PaginationParams.Status params)].

(** ** JSON values *)

(** A number as it is written: an integer, or a number with a fraction or
    an exponent. *)
Inductive number : Type :=
| Integer (z : Z)
| Fraction.

#[local] Unset Elimination Schemes.
Inductive json : Type :=
| JNull
| JBool (b : bool)
| JNumber (n : number)
| JString (s : string)
| JArray (items : list json)
| JObject (members : list (string * json)).
#[local] Set Elimination Schemes.

(** ** Decoding: [ShouldBindJSON] *)

(** Keys are matched to tags without regard to the case of letters. *)
Definition to_lower (c : ascii) : ascii :=
  let n := nat_of_ascii c in
  if (65 <=? n)%nat && (n <=? 90)%nat then ascii_of_nat (n + 32) else c.

Fixpoint fold_name (s : string) : string :=
  match s with
  | EmptyString => EmptyString
  | String c s' => String (to_lower c) (fold_name s')
  end.

Definition names (tag key : string) : bool :=
  String.eqb (fold_name key) (fold_name tag).

(** A value stored into a field of type [string]: [null] leaves the field
    as it is, anything but a string is an error. *)
Definition set_string (x : json) (old : string) : option string :=
  match x with
  | JString s => Some s
  | JNull => Some old
  | _ => None
  end.

(** A value stored into a field of type [int64]: an integer in range. *)
Definition set_int64 (x : json) (old : Z) : option Z :=
  match x with
  | JNumber (Integer z) => if decide (in_int z) then Some z else None
  | JNull => Some old
  | _ => None
  end.

(** One member of an object stored into a [Video] (lines 16-23). A key
    that names no field is skipped. *)
Definition set_Video (v : Video.t) (key : string) (x : json) : option Video.t :=
  let '(Video.mk ID Path Resolution Bitrate Status OriginalSize) := v in
  if (names "id" key) then
    s ← set_string x ID; Some (Video.mk s Path Resolution Bitrate Status OriginalSize)
  else if (names "path" key) then
    s ← set_string x Path; Some (Video.mk ID s Resolution Bitrate Status OriginalSize)
  else if (names "resolution" key) then
    s ← set_string x Resolution; Some (Video.mk ID Path s Bitrate Status OriginalSize)
  else if (names "bitrate" key) then
    s ← set_string x Bitrate; Some (Video.mk ID Path Resolution s Status OriginalSize)
  else if (names "status" key) then
    s ← set_string x Status; Some (Video.mk ID Path Resolution Bitrate s OriginalSize)
  else if (names "originalSize" key) then
    n ← set_int64 x OriginalSize; Some (Video.mk ID Path Resolution Bitrate Status n)
  else Some v.

(** [var video Video]: the zero value the decoder starts from. *)
Definition zero_Video : Video.t := Video.mk "" "" "" "" "" 0.

(** The members of an object stored one after the other. *)
Definition set_members {A} (set : A → string → json → option A) (zero : A)
    (members : list (string * json)) : option A :=
  foldl (λ acc m, a ← acc; set a m.1 m.2) (Some zero) members.

(** [json.Unmarshal] into a struct: [null] is accepted and stores
    nothing, an object is stored member by member, any other value is an
    error. *)
Definition Unmarshal {A} (set : A → string → json → option A) (zero : A)
    (x : json) : option A :=
  match x with
  | JNull => Some zero
  | JObject members => set_members set zero members
  | _ => None
  end.

(** [c.ShouldBindJSON(&video)] (line 251); [None] is a request without a
    body or with a body that is not JSON. *)
Definition ShouldBindJSON_Video (body : option json) : option Video.t :=
  body ≫= Unmarshal set_Video zero_Video.

(** The anonymous struct of [updateVideoStatus] (lines 275-277). *)
Definition set_statusUpdate (Status : string) (key : string) (x : json) :
    option string :=
  if (names "status" key) then set_string x Status else Some Status.

(** [c.ShouldBindJSON(&statusUpdate)] (line 279). *)
Definition ShouldBindJSON_statusUpdate (body : option json) : option string :=
  body ≫= Unmarshal set_statusUpdate "".

(** ** Encoding: [c.JSON] *)

Definition JInt (z : Z) : json := JNumber (Integer z).

(** A [Video] (lines 16-23): the fields in the order of the struct. *)
Definition Video_to_json (v : Video.t) : json :=
  JObject [("id", JString (Video.ID v));
           ("path", JString (Video.Path v));
           ("resolution", JString (Video.Resolution v));
           ("bitrate", JString (Video.Bitrate v));
           ("status", JString (Video.Status v));
           ("originalSize", JInt (Video.OriginalSize v))].

(** A slice of videos that is not nil. *)
Definition videos_to_json (videos : list Video.t) : json :=
  JArray (Video_to_json <$> videos).

(** A [VideoQueue] (lines 25-30). *)
Definition VideoQueue_to_json (q : VideoQueue.t) : json :=
  JObject [("pending", videos_to_json (VideoQueue.Pending q));
           ("processing", videos_to_json (VideoQueue.Processing q));
           ("completed", videos_to_json (VideoQueue.Completed q));
           ("total", JInt (VideoQueue.Total q))].

(** The body of [getQueue] (lines 224-232): two maps, whose keys are
    written in sorted order. *)
Definition QueueBody_to_json (b : QueueBody) : json :=
  JObject [("pagination",
            JObject [("page", JInt (page (pagination b)));
                     ("pageSize", JInt (pageSize (pagination b)));
                     ("pages", JInt (pages (pagination b)));
                     ("total", JInt (total (pagination b)))]);
           ("queue", VideoQueue_to_json (queue b))].

(** [gin.H{"error": err.Error()}]. *)
Definition error_json (message : string) : json :=
  JObject [("error", JString message)].

(** [gin.H{"status": "updated"}] (line 291). *)
Definition updated_json : json := JObject [("status", JString "updated")].

(** ** The query string *)

Lemma FormatInt_nonempty i : FormatInt i ≠ "".
Proof.
  unfold FormatInt. case_decide; [done|]. apply format_uint_nonempty. lia.
Qed.

Section query_lemmas.
Context (empty_default : bool).

Lemma form_value_nonempty default v vs :
  v ≠ "" → form_value empty_default default (v :: vs) = v.
Proof.
  intros Hv. simpl. rewrite bool_decide_false by done.
  by rewrite andb_false_r.
Qed.

Lemma setIntField_FormatInt i : in_int i → setIntField (FormatInt i) = Ok i.
Proof.
  intros Hi. unfold setIntField.
  rewrite decide_False by apply FormatInt_nonempty.
  by apply ParseInt_FormatInt_in_int.
Qed.

Lemma setIntField_range val i : setIntField val = Ok i → in_int i.
Proof. apply ParseInt_range. Qed.

Lemma ShouldBindQuery_query params :
  in_int (PaginationParams.Page params) →
  in_int (PaginationParams.PageSize params) →
  ShouldBindQuery empty_default (query_of params) = Ok params.
Proof.
  destruct params as [Page PageSize Status]. simpl. intros HP HS.
  unfold ShouldBindQuery, query_of. cbn [PaginationParams.Page
    PaginationParams.PageSize PaginationParams.Status].
  change (form_values ?f "page") with [FormatInt Page].
  change (form_values ?f "pageSize") with [FormatInt PageSize].
  change (form_values ?f "status") with [Status].
  rewrite !form_value_nonempty by apply FormatInt_nonempty.
  rewrite !setIntField_FormatInt by done. simpl.
  by destruct empty_default, (bool_decide (Status = "")) eqn:E;
    try apply bool_decide_eq_true in E; subst.
Qed.

(** What binds: both numbers are absent, empty or decimal texts of 64-bit
    integers. *)
Lemma ShouldBindQuery_Ok f params :
  ShouldBindQuery empty_default f = Ok params →
  in_int (PaginationParams.Page params)
  ∧ in_int (PaginationParams.PageSize params)
  ∧ PaginationParams.Status params
    = form_value empty_default "" (form_values f "status").
Proof.
  unfold ShouldBindQuery. intros Hb.
  destruct (setIntField (form_value _ "1" _)) as [P|] eqn:HP; [|done].
  destruct (setIntField (form_value _ "10" _)) as [S|] eqn:HS; [|done].
  simplify_eq/=. eauto using setIntField_range.
Qed.

End query_lemmas.

(** The value a number field is set from, after [validate]: an empty
    text counts as the default under both behaviours of the binder. *)
Lemma setIntField_versions default low (vs : list string) :
  setIntField default = Ok low →
  ∀ ed, setIntField (form_value ed default vs)
        = match vs with
          | [] => Ok low
          | v :: _ =>
              if decide (v = "") then (if ed then Ok low else Ok 0)
              else setIntField v
          end.
Proof.
  intros Hd ed. destruct vs as [|v vs]; [done|]. simpl.
  case_decide as Hv.
  - subst. rewrite bool_decide_true by done.
    destruct ed; simpl; [done|]. reflexivity.
  - rewrite bool_decide_false by done. by rewrite andb_false_r.
Qed.

Lemma validate_page_0_1 PageSize Status :
  validate (PaginationParams.mk 0 PageSize Status)
  = validate (PaginationParams.mk 1 PageSize Status).
Proof. reflexivity. Qed.

Lemma validate_pageSize_0_10 Page Status :
  validate (PaginationParams.mk Page 0 Status)
  = validate (PaginationParams.mk Page 10 Status).
Proof. reflexivity. Qed.

Lemma ShouldBindQuery_validate f :
  rmap validate (ShouldBindQuery true f)
  = rmap validate (ShouldBindQuery false f).
Proof.
  unfold ShouldBindQuery.
  rewrite !(setIntField_versions "1" 1), !(setIntField_versions "10" 10) by done.
  assert (∀ vs, form_value true "" vs = form_value false "" vs) as ->.
  { intros [|v vs]; [done|]. simpl. by case_bool_decide. }
  destruct (form_values f "page") as [|p ?], (form_values f "pageSize") as [|s ?];
    repeat case_decide; simpl; try done;
    destruct (setIntField _) as [?|?]; simpl; try done;
    try destruct (setIntField _) as [?|?]; simpl; try done;
    by rewrite ?validate_page_0_1, ?validate_pageSize_0_10.
Qed.

(** ** JSON *)

Lemma set_int64_JInt z old : in_int z → set_int64 (JInt z) old = Some z.
Proof. intros Hz. simpl. by rewrite decide_True. Qed.

Lemma Unmarshal_Video_to_json v :
  in_int (Video.OriginalSize v) →
  Unmarshal set_Video zero_Video (Video_to_json v) = Some v.
Proof.
  destruct v as [ID Path Resolution Bitrate Status OriginalSize].
  intros Hz. lazy -[set_int64 JInt in_int] in *.
  by rewrite set_int64_JInt.
Qed.

Lemma Unmarshal_statusUpdate Status :
  Unmarshal set_statusUpdate "" (JObject [("status", JString Status)])
  = Some Status.
Proof. reflexivity. Qed.

(** What a bound video can be: its size is a 64-bit integer. *)
Lemma set_Video_size v key x v' :
  in_int (Video.OriginalSize v) → set_Video v key x = Some v' →
  in_int (Video.OriginalSize v').
Proof.
  destruct v as [ID Path Resolution Bitrate Status OriginalSize].
  unfold set_Video, set_int64. intros Hz Hs.
  repeat case_match; simplify_option_eq; done.
Qed.

Lemma set_members_size members v v' :
  in_int (Video.OriginalSize v) →
  foldl (λ acc m, a ← acc; set_Video a m.1 m.2) (Some v) members = Some v' →
  in_int (Video.OriginalSize v').
Proof.
  revert v. induction members as [|[key x] members IH]; intros v Hv Hf;
    simplify_eq/=; [done|].
  destruct (set_Video v key x) as [v1|] eqn:Hs.
  - eapply IH; [|done]. by eapply set_Video_size.
  - clear IH Hv. exfalso. induction members as [|m members IH]; by simplify_eq/=.
Qed.

Lemma ShouldBindJSON_Video_size body v :
  ShouldBindJSON_Video body = Some v → in_int (Video.OriginalSize v).
Proof.
  assert (in_int (Video.OriginalSize zero_Video)) as Hzero
    by apply (bool_decide_unpack _), I.
  destruct body as [[| | | | |members]|]; intros Hb; simplify_eq/=; [done|].
  apply (set_members_size members zero_Video v Hzero Hb).
Qed.

(** ** Theorems *)

(** C16. Round trip of a video through JSON: the object [c.JSON] writes
    for a video, whose size is a 64-bit integer as every [int64] is, binds
    back to the same video. *)
Theorem ShouldBindJSON_roundtrip v :
  in_int (Video.OriginalSize v) →
  ShouldBindJSON_Video (Some (Video_to_json v)) = Some v.
Proof. apply Unmarshal_Video_to_json. Qed.

(** C17. Round trip of the page parameters through the query string: a
    query that gives the page and the page size as decimal numbers, and
    the status as it is, binds to these parameters under both behaviours
    of the binder. *)
Theorem ShouldBindQuery_roundtrip empty_default params :
  in_int (PaginationParams.Page params) →
  in_int (PaginationParams.PageSize params) →
  ShouldBindQuery empty_default (query_of params) = Ok params.
Proof. apply ShouldBindQuery_query. Qed.

(** The two behaviours of the binder on an empty parameter are the
    same to the handler: binding fails for the same queries, and after
    [validate] the parameters are the same. *)
Theorem ShouldBindQuery_versions f :
  rmap validate (ShouldBindQuery true f)
  = rmap validate (ShouldBindQuery false f).
Proof. apply ShouldBindQuery_validate. Qed.

Lemma ShouldBindJSON_roundtrip_witness :
  ShouldBindJSON_Video
    (Some (Video_to_json (Video.mk "a.mp4" "videos/a.mp4" "" "" "unprocessed"
                            1048576)))
  = Some (Video.mk "a.mp4" "videos/a.mp4" "" "" "unprocessed" 1048576).
Proof.
  apply (ShouldBindJSON_roundtrip
           (Video.mk "a.mp4" "videos/a.mp4" "" "" "unprocessed" 1048576)).
  apply (bool_decide_unpack _). vm_compute. exact I.
Defined.

Lemma ShouldBindQuery_roundtrip_witness :
  ShouldBindQuery false (query_of (PaginationParams.mk 3 25 "pending"))
  = Ok (PaginationParams.mk 3 25 "pending").
Proof.
  apply (ShouldBindQuery_roundtrip false (PaginationParams.mk 3 25 "pending"));
    apply (bool_decide_unpack _); vm_compute; exact I.
Defined.

(** ** Examples *)

Example ShouldBindQuery_examples :
  ShouldBindQuery false [] = Ok PaginationParams.default
  ∧ ShouldBindQuery false [("page", "2"); ("status", "pending")]
    = Ok (PaginationParams.mk 2 10 "pending")
  ∧ ShouldBindQuery false [("page", "2"); ("page", "3")]
    = Ok (PaginationParams.mk 2 10 "")
  ∧ ShouldBindQuery false [("page", "")] = Ok (PaginationParams.mk 0 10 "")
  ∧ ShouldBindQuery true [("page", "")] = Ok (PaginationParams.mk 1 10 "")
  ∧ ShouldBindQuery false [("page", "two")] = Err ErrSyntax
  ∧ ShouldBindQuery false [("pageSize", "1.5")] = Err ErrSyntax
  ∧ ShouldBindQuery false [("page", "9223372036854775808")] = Err ErrRange.
Proof. by vm_compute. Qed.

(** A body that is [null] or an empty object binds the zero video; keys
    are matched without regard to case; an unknown key is skipped; a
    number in place of a string, or a fraction in place of the size, is an
    error. *)
Example ShouldBindJSON_examples :
  ShouldBindJSON_Video (Some JNull) = Some zero_Video
  ∧ ShouldBindJSON_Video (Some (JObject [])) = Some zero_Video
  ∧ ShouldBindJSON_Video (Some (JObject [("PATH", JString "videos/a.mp4");
                                         ("worker", JInt 3)]))
    = Some (Video.mk "" "videos/a.mp4" "" "" "" 0)
  ∧ ShouldBindJSON_Video (Some (JObject [("id", JInt 7)])) = None
  ∧ ShouldBindJSON_Video (Some (JObject [("originalSize", JNumber Fraction)]))
    = None
  ∧ ShouldBindJSON_Video (Some (JArray [])) = None
  ∧ ShouldBindJSON_Video None = None.
Proof. by vm_compute. Qed.
