(* ===== verification/Cache.v ===== *)
(** * The membership cache: [processedPaths]

    The program keeps the paths it has stored in a Go [map[string]bool]
    ([src/backend/main.go], line 39), rebuilt from the table by
    [refreshProcessedPathsCache] (lines 89-106) and extended by [addToQueue]
    (line 268). The map is a [gmap string bool]; reading a key that is absent
    gives Go's zero value [false].

    The cache is specified as a set of paths ([known]): the operations on the
    map implement insertion into and membership of that set, and the refresh
    implements "the set of the paths of the table". *)

From S2P Require Import Prelude Store.

(** ** Operations *)

(** [processedPaths[path]] as an expression. *)
Definition cache_get (m : gmap string bool) (path : string) : bool :=
  default false (m !! path).

(** [processedPaths[path] = true]. *)
Definition cache_add (m : gmap string bool) (path : string) : gmap string bool :=
  <[path := true]> m.

(** The loop over the rows of [SELECT path FROM videos]. The column is
    [NOT NULL], so the scan of a row into a Go string does not fail. *)
Definition cache_of_paths (paths : list string) : gmap string bool :=
  foldl cache_add ∅ paths.

(** A fresh map, then the query: on an error the map stays empty. *)
Definition refreshProcessedPathsCache (d : DB) : gmap string bool :=
  match query_paths d with
  | Err _ => ∅
  | Ok paths => cache_of_paths paths
  end.

(** ** Specification: the set of known paths *)

Definition known (m : gmap string bool) : gset string :=
  dom (filter (λ kv, kv.2 = true) m).

(** Every value stored is [true]. *)
Definition cache_wf (m : gmap string bool) : Prop :=
  map_Forall (λ _ b, b = true) m.

#[export] Instance cache_wf_dec m : Decision (cache_wf m).
Proof. unfold cache_wf. apply _. Defined.

(** ** The map implements the set *)

Section cache.
Implicit Types (m : gmap string bool) (p q : string) (paths : list string).

Lemma elem_of_known m p : p ∈ known m ↔ cache_get m p = true.
Proof.
  unfold known, cache_get. rewrite elem_of_dom. unfold is_Some.
  setoid_rewrite map_lookup_filter_Some. simpl.
  destruct (m !! p) as [b|]; simpl; split; intros; break_hyps; eauto.
Qed.

Lemma cache_get_add m p q :
  cache_get (cache_add m p) q = if decide (p = q) then true else cache_get m q.
Proof.
  unfold cache_get, cache_add. case_decide; subst.
  - by rewrite lookup_insert_eq.
  - by rewrite lookup_insert_ne.
Qed.

Lemma known_add m p : known (cache_add m p) = {[p]} ∪ known m.
Proof.
  apply set_eq. intros q.
  rewrite elem_of_union, elem_of_singleton, !elem_of_known, cache_get_add.
  case_decide; naive_solver.
Qed.

Lemma known_empty : known ∅ = ∅.
Proof. apply set_eq. intros q. rewrite elem_of_known. set_solver. Qed.

Lemma cache_get_empty p : cache_get ∅ p = false.
Proof. unfold cache_get. by rewrite lookup_empty. Qed.

Lemma known_foldl m paths :
  known (foldl cache_add m paths) = list_to_set paths ∪ known m.
Proof.
  revert m. induction paths as [|p paths IH]; intros m; simpl.
  - set_solver.
  - rewrite IH, known_add. set_solver.
Qed.

Lemma known_of_paths paths : known (cache_of_paths paths) = list_to_set paths.
Proof. unfold cache_of_paths. rewrite known_foldl, known_empty. set_solver. Qed.

Lemma cache_wf_empty : cache_wf ∅.
Proof. apply map_Forall_empty. Qed.

Lemma cache_wf_add m p : cache_wf m → cache_wf (cache_add m p).
Proof. intros. by apply map_Forall_insert_2. Qed.

Lemma cache_wf_foldl m paths : cache_wf m → cache_wf (foldl cache_add m paths).
Proof.
  revert m. induction paths as [|p paths IH]; intros m Hm; simpl; [done|].
  by apply IH, cache_wf_add.
Qed.

Lemma cache_wf_known m p : cache_wf m → (p ∈ known m ↔ p ∈ dom m).
Proof.
  intros Hm. rewrite elem_of_known, elem_of_dom. unfold cache_get.
  destruct (m !! p) as [b|] eqn:E; simpl.
  - rewrite (Hm p b E). split; eauto.
  - split; [done|]. by intros [? ?].
Qed.

Lemma refresh_known_Ok d t :
  table_of d = Ok t →
  known (refreshProcessedPathsCache d) = list_to_set (row_path <$> t).
Proof.
  intros Ht. unfold refreshProcessedPathsCache, query_paths. rewrite Ht. simpl.
  apply known_of_paths.
Qed.

Lemma refresh_Err d e :
  table_of d = Err e → refreshProcessedPathsCache d = ∅.
Proof. intros Ht. unfold refreshProcessedPathsCache, query_paths. by rewrite Ht. Qed.

Lemma refresh_wf d : cache_wf (refreshProcessedPathsCache d).
Proof.
  unfold refreshProcessedPathsCache. destruct (query_paths d).
  - apply cache_wf_foldl, cache_wf_empty.
  - apply cache_wf_empty.
Qed.
End cache.

#[export] Hint Resolve cache_wf_empty cache_wf_add refresh_wf : vq.

(** ** Theorems *)

(** C7. Cache rebuild fidelity: after a refresh from a reachable table, a
    path reads [true] in the cache exactly when it is the path of some row. *)
Theorem refresh_fidelity d t p :
  table_of d = Ok t →
  cache_get (refreshProcessedPathsCache d) p = true ↔ p ∈ row_path <$> t.
Proof.
  intros Ht. rewrite <-elem_of_known, (refresh_known_Ok d t Ht).
  apply elem_of_list_to_set.
Qed.

Lemma refresh_fidelity_witness :
  cache_get (refreshProcessedPathsCache demo_db) "videos/a.mp4" = true
  ↔ "videos/a.mp4" ∈ row_path <$> demo_table.
Proof. apply (refresh_fidelity demo_db demo_table). reflexivity. Defined.

(** The refresh fails open: when the table cannot be read the cache is
    empty, so that no path reads as processed. *)
Theorem refresh_fails_open d e p :
  table_of d = Err e → cache_get (refreshProcessedPathsCache d) p = false.
Proof. intros Ht. rewrite (refresh_Err d e Ht). apply cache_get_empty. Qed.

Lemma refresh_fails_open_witness :
  cache_get (refreshProcessedPathsCache (mkDB false (Some demo_table)))
    "videos/a.mp4" = false.
Proof.
  apply (refresh_fails_open (mkDB false (Some demo_table)) ConnectionError).
  reflexivity.
Defined.

(** The map implements a set of paths: adding a path makes it read
    [true], changes the reading of no other path, and never stores a value
    other than [true]. *)
Theorem cache_add_spec m p :
  known (cache_add m p) = {[p]} ∪ known m
  ∧ (∀ q, q ≠ p → cache_get (cache_add m p) q = cache_get m q)
  ∧ (cache_wf m → cache_wf (cache_add m p)).
Proof.
  split_and!; [apply known_add| |apply cache_wf_add].
  intros q Hq. rewrite cache_get_add. by rewrite decide_False.
Qed.
