(* ===== verification/Handlers.v ===== *)
(** * The handlers that write: [initDB], [addToQueue], [updateVideoStatus]

    The state of the server is its two package variables
    ([src/backend/main.go], lines 38-39): the database handle, modelled by the
    database it reaches, and the membership cache. [initDB] (lines 41-87)
    builds the first state or ends the process; [addToQueue] (lines 249-271)
    and [updateVideoStatus] (lines 273-292) map a state and a bound request
    to the next state and the response. A request body that the framework
    cannot bind is [None]. *)

From S2P Require Import Prelude Store Cache.

#[local] Open Scope Z_scope.

(** ** State *)

Record Server : Type := mkServer {
  db : DB;
  processedPaths : gmap string bool;
}.

(** ** Operations *)

(** [initDB]: create the table and the indexes, ending the process
    ([log.Fatal], here [None]) if a statement fails, then fill the cache. *)
Definition initDB (d : DB) : option Server :=
  match exec_create_table d with
  | Err _ => None
  | Ok d1 =>
      match exec_create_indexes d1 with
      | Err _ => None
      | Ok d2 => Some (mkServer d2 (refreshProcessedPathsCache d2))
      end
  end.

(** [addToQueue]: insert the video with the status ["pending"], add its path
    to the cache, and answer with the video as it was sent. *)
Definition addToQueue (s : Server) (bound : option Video.t) :
    Server * response db_error Video.t :=
  match bound with
  | None => (s, StatusBadRequest)
  | Some video =>
      match exec_insert (db s) (Video.ID video) (Video.Path video)
              (Video.Resolution video) (Video.Bitrate video) "pending"
              (Video.OriginalSize video) with
      | Err e => (s, StatusInternalServerError e)
      | Ok d' =>
          (mkServer d' (cache_add (processedPaths s) (Video.Path video)),
           StatusOK video)
      end
  end.

(** [updateVideoStatus]: overwrite the status of the row with the id of the
    request path; the answer of a successful statement is the fixed
    acknowledgement. *)
Definition updateVideoStatus (s : Server) (id : string) (bound : option string) :
    Server * response db_error string :=
  match bound with
  | None => (s, StatusBadRequest)
  | Some status =>
      match exec_update_status (db s) status id with
      | Err e => (s, StatusInternalServerError e)
      | Ok d' => (mkServer d' (processedPaths s), StatusOK "updated")
      end
  end.

(** ** Reference definitions *)

(** The row [addToQueue] stores for a video. *)
Definition pending_row (video : Video.t) : row :=
  mkRow (Video.ID video) (Video.Path video) (Some (Video.Resolution video))
        (Some (Video.Bitrate video)) "pending" (Video.OriginalSize video).

(** The paths of the table of a state; none when there is no table. *)
Definition stored_paths (s : Server) : list string :=
  row_path <$> default [] (db_videos (db s)).

Definition stored_ids (s : Server) : list string :=
  row_id <$> default [] (db_videos (db s)).

(** The cache claims no path that the table does not hold. *)
Definition cache_sound (s : Server) : Prop :=
  ∀ p, cache_get (processedPaths s) p = true → p ∈ stored_paths s.

(** The cache holds exactly the paths of the table. *)
Definition cache_exact (s : Server) : Prop :=
  ∀ p, cache_get (processedPaths s) p = true ↔ p ∈ stored_paths s.

(** The table exists, respects its primary key, and the cache is a sound
    set of paths. *)
Record server_inv (s : Server) : Prop := mkInv {
  inv_table : is_Some (db_videos (db s));
  inv_ids : ids_unique (default [] (db_videos (db s)));
  inv_wf : cache_wf (processedPaths s);
  inv_sound : cache_sound s;
}.

(** A database whose table, if any, respects its primary key. *)
Definition db_wf (d : DB) : Prop := ids_unique (default [] (db_videos d)).

(** Example data: a video as a client posts it, claiming to be completed. *)
Definition demo_video : Video.t :=
  Video.mk "g.mp4" "videos/g.mp4" "1280x720" "2500k" "completed" 2097152.

Definition demo_server : Server :=
  mkServer demo_db (refreshProcessedPathsCache demo_db).

(** A second file of the same name in another directory. *)
Definition demo_twin : Video.t :=
  Video.mk "a.mp4" "videos/archive/a.mp4" "" "" "unprocessed" 4096.

(** The same file posted under another id. *)
Definition demo_alias : Video.t :=
  Video.mk "a-copy" "videos/a.mp4" "" "" "unprocessed" 1048576.

(** ** The handlers, case by case *)

Section handlers.
Implicit Types (s : Server) (d : DB) (video : Video.t) (t : list row).

Lemma initDB_Some d s :
  initDB d = Some s ↔
  db_up d = true ∧
  s = mkServer (set_table d (default [] (db_videos d)))
        (cache_of_paths (row_path <$> default [] (db_videos d))).
Proof.
  unfold initDB, exec_create_table, exec_create_indexes.
  destruct (db_up d) eqn:Hup; [|split; [done|by intros [? _]]].
  rewrite table_of_set_table by done. simpl.
  unfold refreshProcessedPathsCache, query_paths.
  rewrite table_of_set_table by done. simpl. split.
  - by intros [= <-].
  - by intros [_ ->].
Qed.

Lemma initDB_None d : initDB d = None ↔ db_up d = false.
Proof.
  destruct (initDB d) as [s|] eqn:E.
  - apply initDB_Some in E as [-> _]. done.
  - split; [|done]. intros _. destruct (db_up d) eqn:Hup; [|done].
    pose proof (proj2 (initDB_Some d _) (conj Hup eq_refl)). congruence.
Qed.

Lemma addToQueue_Ok s video s' v :
  addToQueue s (Some video) = (s', StatusOK v) ↔
  ∃ t, table_of (db s) = Ok t ∧ (Video.ID video ∉ row_id <$> t) ∧ v = video ∧
    s' = mkServer (set_table (db s) (t ++ [pending_row video]))
           (cache_add (processedPaths s) (Video.Path video)).
Proof.
  unfold addToQueue. destruct (exec_insert _ _ _ _ _ _ _) as [d'|e] eqn:E.
  - apply exec_insert_Ok in E as (t & Ht & Hid & ->). split.
    + intros [= <- <-]. eauto.
    + intros (t' & Ht' & _ & -> & ->). by assert (t' = t) as -> by congruence.
  - split; [done|]. intros (t & Ht & Hid & _).
    apply exec_insert_Err in E as [E|(t' & Ht' & Hid' & _)]; congruence.
Qed.

Lemma addToQueue_Err s video s' e :
  addToQueue s (Some video) = (s', StatusInternalServerError e) ↔
  s' = s ∧ (table_of (db s) = Err e ∨
            ∃ t, table_of (db s) = Ok t ∧ Video.ID video ∈ row_id <$> t
                 ∧ e = UniqueViolation).
Proof.
  unfold addToQueue. destruct (exec_insert _ _ _ _ _ _ _) as [d'|e'] eqn:E.
  - split; [done|]. intros [_ H]. apply exec_insert_Ok in E as (t & Ht & Hid & _).
    destruct H as [?|(t' & ? & ? & _)]; congruence.
  - apply exec_insert_Err in E. split.
    + by intros [= <- <-].
    + intros [-> H]. f_equal. f_equal.
      destruct E as [?|(? & ? & ? & ->)], H as [?|(? & ? & ? & ->)]; congruence.
Qed.

Lemma updateVideoStatus_Ok s id status s' body :
  updateVideoStatus s id (Some status) = (s', StatusOK body) ↔
  ∃ t, table_of (db s) = Ok t ∧ body = "updated" ∧
    s' = mkServer (set_table (db s) (set_status status id <$> t))
           (processedPaths s).
Proof.
  unfold updateVideoStatus.
  destruct (exec_update_status _ _ _) as [d'|e] eqn:E.
  - apply exec_update_status_Ok in E as (t & Ht & ->). split.
    + intros [= <- <-]. eauto.
    + intros (t' & Ht' & -> & ->). by assert (t' = t) as -> by congruence.
  - split; [done|]. intros (t & Ht & _).
    apply exec_update_status_Err in E. congruence.
Qed.

Lemma updateVideoStatus_Err s id status s' e :
  updateVideoStatus s id (Some status) = (s', StatusInternalServerError e) ↔
  s' = s ∧ table_of (db s) = Err e.
Proof.
  unfold updateVideoStatus.
  destruct (exec_update_status _ _ _) as [d'|e'] eqn:E.
  - split; [done|]. intros [_ H].
    apply exec_update_status_Ok in E as (t & Ht & _). congruence.
  - apply exec_update_status_Err in E. split.
    + by intros [= <- <-].
    + intros [-> H]. congruence.
Qed.

Lemma stored_paths_set_table s t c :
  stored_paths (mkServer (set_table (db s) t) c) = row_path <$> t.
Proof. done. Qed.

Lemma table_of_stored_paths s t :
  table_of (db s) = Ok t → stored_paths s = row_path <$> t.
Proof. intros [_ Ht]%table_of_Ok. unfold stored_paths. by rewrite Ht. Qed.
End handlers.

(** ** Invariants, handler by handler *)

Section invariants.
Implicit Types (s : Server) (d : DB) (video : Video.t) (t : list row).

Lemma addToQueue_unchanged_or_added s bound s' r :
  addToQueue s bound = (s', r) →
  s' = s ∨ ∃ video t, bound = Some video ∧ r = StatusOK video ∧
    table_of (db s) = Ok t ∧ (Video.ID video ∉ row_id <$> t) ∧
    s' = mkServer (set_table (db s) (t ++ [pending_row video]))
           (cache_add (processedPaths s) (Video.Path video)).
Proof.
  destruct bound as [video|]; [|intros [= <- _]; by left].
  destruct r as [v| |e].
  - intros (t & ? & ? & -> & ->)%addToQueue_Ok. right. eauto 8.
  - unfold addToQueue. by destruct (exec_insert _ _ _ _ _ _ _).
  - intros [-> _]%addToQueue_Err. by left.
Qed.

Lemma updateVideoStatus_unchanged_or_updated s id bound s' r :
  updateVideoStatus s id bound = (s', r) →
  s' = s ∨ ∃ status t, bound = Some status ∧ r = StatusOK "updated" ∧
    table_of (db s) = Ok t ∧
    s' = mkServer (set_table (db s) (set_status status id <$> t))
           (processedPaths s).
Proof.
  destruct bound as [status|]; [|intros [= <- _]; by left].
  destruct r as [v| |e].
  - intros (t & ? & -> & ->)%updateVideoStatus_Ok. right. eauto 8.
  - unfold updateVideoStatus. by destruct (exec_update_status _ _ _).
  - intros [-> _]%updateVideoStatus_Err. by left.
Qed.

Lemma server_inv_insert s t video :
  server_inv s → table_of (db s) = Ok t → (Video.ID video ∉ row_id <$> t) →
  server_inv (mkServer (set_table (db s) (t ++ [pending_row video]))
                (cache_add (processedPaths s) (Video.Path video))).
Proof.
  intros [_ Hids Hwf Hsound] [_ Ht]%table_of_Ok Hid.
  unfold cache_sound, stored_paths in *. rewrite Ht in *. simpl in *.
  split; simpl; [by eexists|by apply ids_unique_insert|by apply cache_wf_add|].
  unfold cache_sound, stored_paths. simpl.
  intros p. rewrite cache_get_add, fmap_app, elem_of_app. simpl.
  case_decide; [subst; intros _; right; by left|]. intros ?%Hsound. by left.
Qed.

Lemma server_inv_update s t status id :
  server_inv s → table_of (db s) = Ok t →
  server_inv (mkServer (set_table (db s) (set_status status id <$> t))
                (processedPaths s)).
Proof.
  intros [_ Hids Hwf Hsound] [_ Ht]%table_of_Ok.
  unfold cache_sound, stored_paths in *. rewrite Ht in *. simpl in *.
  split; simpl; [by eexists|by apply ids_unique_set_status|done|].
  unfold cache_sound, stored_paths. simpl. by rewrite set_status_paths.
Qed.

Lemma addToQueue_inv s bound : server_inv s → server_inv (addToQueue s bound).1.
Proof.
  intros Hinv. destruct (addToQueue s bound) as [s' r] eqn:E.
  apply addToQueue_unchanged_or_added in E as [->|(v & t & _ & _ & ? & ? & ->)];
    [done|]. by apply server_inv_insert.
Qed.

Lemma updateVideoStatus_inv s id bound :
  server_inv s → server_inv (updateVideoStatus s id bound).1.
Proof.
  intros Hinv. destruct (updateVideoStatus s id bound) as [s' r] eqn:E.
  apply updateVideoStatus_unchanged_or_updated in E
    as [->|(st & t & _ & _ & ? & ->)]; [done|]. by apply server_inv_update.
Qed.

Lemma cache_exact_sound s : cache_exact s → cache_sound s.
Proof. intros Hex p. by apply Hex. Qed.

Lemma addToQueue_exact s bound : cache_exact s → cache_exact (addToQueue s bound).1.
Proof.
  intros Hex. destruct (addToQueue s bound) as [s' r] eqn:E.
  apply addToQueue_unchanged_or_added in E as [->|(v & t & _ & _ & Ht & ? & ->)];
    [done|]. apply table_of_Ok in Ht as [_ Ht].
  unfold cache_exact, stored_paths in *. rewrite Ht in *. simpl in *.
  intros p. rewrite cache_get_add, fmap_app, elem_of_app, <-Hex. simpl.
  rewrite list_elem_of_singleton. case_decide; naive_solver.
Qed.

Lemma updateVideoStatus_exact s id bound :
  cache_exact s → cache_exact (updateVideoStatus s id bound).1.
Proof.
  intros Hex. destruct (updateVideoStatus s id bound) as [s' r] eqn:E.
  apply updateVideoStatus_unchanged_or_updated in E
    as [->|(st & t & _ & _ & Ht & ->)]; [done|]. apply table_of_Ok in Ht as [_ Ht].
  unfold cache_exact, stored_paths in *. rewrite Ht in *. simpl in *.
  by setoid_rewrite set_status_paths.
Qed.

(** The cache only grows. *)
Lemma addToQueue_cache_mono s bound p :
  cache_get (processedPaths s) p = true →
  cache_get (processedPaths (addToQueue s bound).1) p = true.
Proof.
  intros Hp. destruct (addToQueue s bound) as [s' r] eqn:E.
  apply addToQueue_unchanged_or_added in E as [->|(v & t & _ & _ & _ & _ & ->)];
    [done|]. simpl. rewrite cache_get_add. by case_decide.
Qed.

Lemma updateVideoStatus_cache s id bound :
  processedPaths (updateVideoStatus s id bound).1 = processedPaths s.
Proof.
  destruct (updateVideoStatus s id bound) as [s' r] eqn:E.
  by apply updateVideoStatus_unchanged_or_updated in E
    as [->|(st & t & _ & _ & _ & ->)].
Qed.

Lemma initDB_inv d s : db_wf d → initDB d = Some s → server_inv s ∧ cache_exact s.
Proof.
  intros Hwf [Hup ->]%initDB_Some.
  assert (cache_exact (mkServer (set_table d (default [] (db_videos d)))
            (cache_of_paths (row_path <$> default [] (db_videos d))))) as Hex.
  { intros p. unfold stored_paths. simpl.
    by rewrite <-elem_of_known, known_of_paths, elem_of_list_to_set. }
  split; [|done].
  split; simpl; [by eexists|done|apply cache_wf_foldl, cache_wf_empty|].
  by apply cache_exact_sound.
Qed.
End invariants.

(** ** Theorems *)

(** C6. Enqueue forces pending: a successful [addToQueue] appends one row
    that carries the fields of the request and the status ["pending"],
    whatever status the request named, marks the path in the cache, and
    answers with the video as it was sent. *)
Theorem addToQueue_stores_pending s video s' v :
  addToQueue s (Some video) = (s', StatusOK v) →
  ∃ t, db_videos (db s) = Some t
    ∧ db_videos (db s') = Some (t ++ [pending_row video])
    ∧ row_status (pending_row video) = "pending"
    ∧ cache_get (processedPaths s') (Video.Path video) = true
    ∧ v = video.
Proof.
  intros (t & [_ Ht]%table_of_Ok & _ & -> & ->)%addToQueue_Ok.
  exists t. simpl. rewrite cache_get_add, decide_True by done. done.
Qed.

Lemma addToQueue_stores_pending_witness :
  ∃ t, db_videos (db demo_server) = Some t
    ∧ db_videos (db (addToQueue demo_server (Some demo_video)).1)
      = Some (t ++ [pending_row demo_video])
    ∧ row_status (pending_row demo_video) = "pending"
    ∧ cache_get (processedPaths (addToQueue demo_server (Some demo_video)).1)
        (Video.Path demo_video) = true
    ∧ demo_video = demo_video.
Proof.
  apply (addToQueue_stores_pending demo_server demo_video
           (addToQueue demo_server (Some demo_video)).1 demo_video).
  vm_compute. reflexivity.
Defined.

(** The response of a successful [addToQueue] is the request, not the
    stored record: for a request that names another status than
    ["pending"], the status in the response differs from the one stored. *)
Theorem addToQueue_echoes_request s video s' v :
  addToQueue s (Some video) = (s', StatusOK v) →
  Video.Status video ≠ "pending" →
  Video.Status v ≠ row_status (pending_row video).
Proof. intros (t & _ & _ & -> & _)%addToQueue_Ok Hs. done. Qed.

Lemma addToQueue_echoes_request_witness :
  Video.Status demo_video ≠ row_status (pending_row demo_video).
Proof.
  apply (addToQueue_echoes_request demo_server demo_video
           (addToQueue demo_server (Some demo_video)).1 demo_video).
  - vm_compute. reflexivity.
  - done.
Defined.

(** C25. An id that is already stored is a conflict: the insert violates
    the primary key, the handler answers 500 and changes neither the table
    nor the cache. *)
Theorem addToQueue_duplicate_id s t video :
  table_of (db s) = Ok t → Video.ID video ∈ row_id <$> t →
  addToQueue s (Some video) = (s, StatusInternalServerError UniqueViolation).
Proof. intros. apply addToQueue_Err. eauto 6. Qed.

Lemma addToQueue_duplicate_id_witness :
  addToQueue demo_server (Some demo_twin)
  = (demo_server, StatusInternalServerError UniqueViolation).
Proof.
  apply (addToQueue_duplicate_id demo_server demo_table demo_twin);
    [reflexivity|]. apply (bool_decide_unpack (_ ∈ _)). vm_compute. exact I.
Defined.

(** C26. A path that is already stored is not a conflict: under a fresh id
    the insert succeeds and the table holds two rows with the same path. *)
Theorem addToQueue_duplicate_path s t video :
  table_of (db s) = Ok t → Video.Path video ∈ row_path <$> t →
  (Video.ID video ∉ row_id <$> t) →
  ∃ s', addToQueue s (Some video) = (s', StatusOK video)
    ∧ ¬ NoDup (stored_paths s').
Proof.
  intros Ht Hp Hid. eexists. split; [apply addToQueue_Ok; eauto 6|].
  unfold stored_paths. simpl. rewrite fmap_app, NoDup_app. simpl.
  intros (_ & Hd & _). apply (Hd _ Hp). by left.
Qed.

Lemma addToQueue_duplicate_path_witness :
  ∃ s', addToQueue demo_server (Some demo_alias) = (s', StatusOK demo_alias)
    ∧ ¬ NoDup (stored_paths s').
Proof.
  apply (addToQueue_duplicate_path demo_server demo_table demo_alias);
    [reflexivity| |].
  - apply (bool_decide_unpack (_ ∈ _)). vm_compute. exact I.
  - apply (bool_decide_unpack (_ ∉ _)). vm_compute. exact I.
Defined.

(** C24. A status update for an id that no row has is answered like a
    successful one: 200 with the acknowledgement, and nothing changes. *)
Theorem updateVideoStatus_unknown_id s t id status :
  table_of (db s) = Ok t → (id ∉ row_id <$> t) →
  updateVideoStatus s id (Some status) = (s, StatusOK "updated").
Proof.
  intros Ht Hid. apply updateVideoStatus_Ok. exists t. split_and!; [done..|].
  rewrite set_status_absent, set_table_id by done. by destruct s.
Qed.

Lemma updateVideoStatus_unknown_id_witness :
  updateVideoStatus demo_server "missing.mp4" (Some "completed")
  = (demo_server, StatusOK "updated").
Proof.
  apply (updateVideoStatus_unknown_id demo_server demo_table); [reflexivity|].
  apply (bool_decide_unpack (_ ∉ _)). vm_compute. exact I.
Defined.

(** C23. A successful status update writes the new status, whatever string
    it is, into every row with the id and into no other; the ids, the paths
    and the cache are as before. *)
Theorem updateVideoStatus_sets_status s id status s' body :
  updateVideoStatus s id (Some status) = (s', StatusOK body) →
  ∃ t t', db_videos (db s) = Some t ∧ db_videos (db s') = Some t'
    ∧ Forall2 (λ r r', row_id r' = row_id r ∧ row_path r' = row_path r
                 ∧ row_status r' = (if decide (row_id r = id) then status
                                    else row_status r)) t t'
    ∧ processedPaths s' = processedPaths s.
Proof.
  intros (t & [_ Ht]%table_of_Ok & _ & ->)%updateVideoStatus_Ok.
  exists t, (set_status status id <$> t). split_and!; [done..| |done].
  apply Forall2_fmap_r, Forall_Forall2_diag, Forall_forall. intros r _. simpl.
  by rewrite set_status_id, set_status_path, set_status_status.
Qed.

Lemma updateVideoStatus_sets_status_witness :
  ∃ t t', db_videos (db demo_server) = Some t
    ∧ db_videos (db (updateVideoStatus demo_server "a.mp4" (Some "archived")).1)
      = Some t'
    ∧ Forall2 (λ r r', row_id r' = row_id r ∧ row_path r' = row_path r
                 ∧ row_status r' = (if decide (row_id r = "a.mp4") then "archived"
                                    else row_status r)) t t'
    ∧ processedPaths (updateVideoStatus demo_server "a.mp4" (Some "archived")).1
      = processedPaths demo_server.
Proof.
  apply (updateVideoStatus_sets_status demo_server "a.mp4" "archived"
           (updateVideoStatus demo_server "a.mp4" (Some "archived")).1 "updated").
  vm_compute. reflexivity.
Defined.

(** [initDB] ends the process exactly when the database cannot be
    reached; otherwise it keeps the rows of an existing table, creates an
    empty one if there was none, and leaves a cache that holds exactly the
    stored paths. *)
Theorem initDB_spec d :
  match initDB d with
  | None => db_up d = false
  | Some s =>
      db_up d = true
      ∧ db_videos (db s) = Some (default [] (db_videos d))
      ∧ cache_exact s ∧ cache_wf (processedPaths s)
  end.
Proof.
  destruct (initDB d) as [s|] eqn:E; [|by apply initDB_None].
  apply initDB_Some in E as [Hup ->]. split_and!; [done..| |].
  - intros p. unfold stored_paths. simpl.
    by rewrite <-elem_of_known, known_of_paths, elem_of_list_to_set.
  - apply cache_wf_foldl, cache_wf_empty.
Qed.

(** The invariant lemmas, for the proofs about runs of the server. *)
#[export] Hint Resolve server_inv_insert server_inv_update cache_exact_sound
  addToQueue_inv updateVideoStatus_inv : vq.
