(* ===== verification/Paths.v ===== *)
(** * File paths: the functions of Go's [path/filepath] the program calls

    [getUnprocessedVideos] ([src/backend/main.go], lines 108-143) calls
    [filepath.Ext] to recognise a video (line 118) and [filepath.Base] to
    derive its id (line 133); [filepath.Walk] builds the path of every entry
    with [filepath.Join], which ends in [filepath.Clean]. This file models
    the four functions on Unix paths, following the loops of the Go library:
    [Ext] and [Base] scan the path from its end, [Clean] works element by
    element.

    The lemmas say what the functions return on the paths the walk builds:
    a directory path that is already clean, followed by a separator and the
    name of an entry. *)

From Stdlib Require Import Ascii.
From S2P Require Import Prelude.

(** ** Characters of a path *)

Definition Separator : Ascii.ascii := "/"%char.
Definition Dot : Ascii.ascii := "."%char.

Notation chars := String.list_ascii_of_string.
Notation str := String.string_of_list_ascii.

(** A string without a separator: the name of a directory entry. *)
Definition sep_free (s : string) : Prop := Separator ∉ chars s.

#[export] Instance sep_free_dec s : Decision (sep_free s).
Proof. unfold sep_free. apply _. Defined.

(** ** [filepath.Ext] *)

(** The loop of [Ext], from the last byte of the path backwards: stop with
    the empty extension at a separator, with the suffix at a dot. [acc] is
    the part of the path already passed. *)
Fixpoint ext_scan (r acc : list Ascii.ascii) : list Ascii.ascii :=
  match r with
  | [] => []
  | c :: r' =>
      if decide (c = Separator) then []
      else if decide (c = Dot) then c :: acc
      else ext_scan r' (c :: acc)
  end.

Definition Ext (path : string) : string :=
  str (ext_scan (reverse (chars path)) []).

(** ** [filepath.Base] *)

(** "Strip trailing slashes", on the reversed path. *)
Fixpoint strip_seps (r : list Ascii.ascii) : list Ascii.ascii :=
  match r with
  | c :: r' => if decide (c = Separator) then strip_seps r' else r
  | [] => []
  end.

(** "Find the last element", on the reversed path: the bytes before the
    first separator, put back in order. *)
Fixpoint last_element (r acc : list Ascii.ascii) : list Ascii.ascii :=
  match r with
  | c :: r' => if decide (c = Separator) then acc else last_element r' (c :: acc)
  | [] => acc
  end.

Definition Base (path : string) : string :=
  if decide (path = "") then "."
  else
    let r := strip_seps (reverse (chars path)) in
    if decide (r = []) then "/" else str (last_element r []).

(** ** [filepath.Clean] and [filepath.Join] *)

(** The elements of a path: the strings between its separators. *)
Fixpoint split_sep (s : string) : list string :=
  match s with
  | EmptyString => [""]
  | String c s' =>
      if decide (c = Separator) then "" :: split_sep s'
      else
        match split_sep s' with
        | x :: xs => String c x :: xs
        | [] => [String c ""]
        end
  end.

Fixpoint join_sep (l : list string) : string :=
  match l with
  | [] => ""
  | [x] => x
  | x :: l' => x +:+ "/" +:+ join_sep l'
  end.

(** One element read by [Clean]; [stack] holds the elements kept so far,
    the last one first. An empty element and ["."] are dropped; [".."]
    removes the element before it, stays if there is none to remove and the
    path is relative, and is dropped at the root. *)
Definition clean_step (rooted : bool) (stack : list string) (c : string) :
    list string :=
  if decide (c = "" ∨ c = ".") then stack
  else if decide (c = "..") then
    match stack with
    | top :: rest => if decide (top = "..") then c :: stack else rest
    | [] => if rooted then [] else [c]
    end
  else c :: stack.

Definition clean_elements (rooted : bool) (l : list string) : list string :=
  reverse (foldl (clean_step rooted) [] l).

Definition is_rooted (path : string) : bool :=
  match path with
  | String c _ => bool_decide (c = Separator)
  | EmptyString => false
  end.

Definition Clean (path : string) : string :=
  let rooted := is_rooted path in
  match clean_elements rooted (split_sep path), rooted with
  | l, true => "/" +:+ join_sep l
  | [], false => "."
  | l, false => join_sep l
  end.

(** [Join] of two elements: empty elements are ignored, the rest is joined
    with a separator and cleaned. *)
Definition Join (dir name : string) : string :=
  if decide (dir ≠ "") then Clean (dir +:+ "/" +:+ name)
  else if decide (name ≠ "") then Clean name
  else "".

(** ** Names and clean paths *)

(** The name of a directory entry: not empty, no separator, and neither of
    the two names every directory has. *)
Definition valid_name (name : string) : Prop :=
  name ≠ "" ∧ name ≠ "." ∧ name ≠ ".." ∧ sep_free name.

#[export] Instance valid_name_dec name : Decision (valid_name name).
Proof. unfold valid_name. apply _. Defined.

(** A relative path that [Clean] leaves as it is: valid names joined by
    separators. *)
Definition clean_rel (path : string) : Prop :=
  ∃ l, l ≠ [] ∧ Forall valid_name l ∧ path = join_sep l.

(** ** Strings as lists of characters *)

Section chars.
Implicit Types (s t : string) (l k : list Ascii.ascii) (c : Ascii.ascii).

Lemma chars_app s t : chars (s +:+ t) = chars s ++ chars t.
Proof.
  induction s as [|a s IH]; [done|]. rewrite string_app_cons. simpl. by rewrite IH.
Qed.

Lemma str_app l k : str (l ++ k) = str l +:+ str k.
Proof.
  induction l as [|a l IH]; [done|]. simpl. by rewrite IH, string_app_cons.
Qed.

Lemma str_chars s : str (chars s) = s.
Proof. apply String.string_of_list_ascii_of_string. Qed.

Lemma chars_str l : chars (str l) = l.
Proof. apply String.list_ascii_of_string_of_list_ascii. Qed.

Lemma chars_inj s t : chars s = chars t → s = t.
Proof. intros H. by rewrite <-(str_chars s), H, str_chars. Qed.

Lemma chars_nil s : chars s = [] ↔ s = "".
Proof. by destruct s. Qed.

Lemma sep_free_app s t : sep_free (s +:+ t) ↔ sep_free s ∧ sep_free t.
Proof. unfold sep_free. rewrite chars_app, not_elem_of_app. done. Qed.

Lemma sep_free_cons c s :
  sep_free (String c s) ↔ c ≠ Separator ∧ sep_free s.
Proof. unfold sep_free. simpl. rewrite not_elem_of_cons. naive_solver. Qed.

Lemma sep_free_nil : sep_free "".
Proof. unfold sep_free. simpl. apply not_elem_of_nil. Qed.
End chars.

#[export] Hint Rewrite chars_app str_app str_chars chars_str : str.
#[export] Hint Resolve sep_free_nil : vq.

(** ** [Ext] *)

Section ext.
Implicit Types (r acc : list Ascii.ascii) (path name stem : string).

(** The extension is a suffix of the path. *)
Lemma ext_scan_suffix r acc :
  ∃ pre, reverse r ++ acc = pre ++ ext_scan r acc.
Proof.
  revert acc. induction r as [|c r IH]; intros acc; simpl.
  { exists acc. by rewrite app_nil_r. }
  rewrite reverse_cons, <-app_assoc. simpl.
  repeat case_decide; [by eexists; rewrite app_nil_r|by eexists|apply IH].
Qed.

(** The scan does not look past a separator or a dot. *)
Lemma ext_scan_app_sep r1 r2 acc :
  ext_scan (r1 ++ Separator :: r2) acc = ext_scan (r1 ++ [Separator]) acc.
Proof.
  revert acc. induction r1 as [|c r1 IH]; intros acc; simpl; [done|].
  by repeat case_decide.
Qed.

Lemma ext_scan_sep_end r acc :
  Separator ∉ r → ext_scan (r ++ [Separator]) acc = ext_scan r acc.
Proof.
  revert acc. induction r as [|c r IH]; intros acc Hr; simpl; [done|].
  apply not_elem_of_cons in Hr as [? ?]. repeat case_decide; auto; done.
Qed.

Lemma ext_scan_dot r1 r2 acc :
  Separator ∉ r1 → Dot ∉ r1 →
  ext_scan (r1 ++ Dot :: r2) acc = Dot :: reverse r1 ++ acc.
Proof.
  revert acc. induction r1 as [|c r1 IH]; intros acc Hs Hd; simpl; [done|].
  apply not_elem_of_cons in Hs as [? ?], Hd as [? ?].
  repeat case_decide; try done.
  rewrite IH by done. by rewrite reverse_cons, <-app_assoc.
Qed.

Lemma Ext_suffix path : ∃ stem, path = stem +:+ Ext path.
Proof.
  destruct (ext_scan_suffix (reverse (chars path)) []) as [pre Hpre].
  exists (str pre). unfold Ext. rewrite <-str_app, <-Hpre, app_nil_r.
  by rewrite reverse_involutive, str_chars.
Qed.

(** A suffix that starts with a dot and has neither a dot nor a separator
    after it is the extension. *)
Lemma Ext_app stem body :
  sep_free body → Dot ∉ chars body →
  Ext (stem +:+ String Dot body) = String Dot body.
Proof.
  intros Hs Hd. unfold Ext. rewrite chars_app. simpl.
  rewrite reverse_app, reverse_cons, <-app_assoc. simpl.
  rewrite ext_scan_dot by (by rewrite elem_of_reverse).
  rewrite reverse_involutive, app_nil_r. simpl. by rewrite str_chars.
Qed.

(** The extension of a path is the extension of its last element. *)
Lemma Ext_dir_name dir name :
  sep_free name → Ext (dir +:+ "/" +:+ name) = Ext name.
Proof.
  intros Hn. unfold Ext. rewrite !chars_app. simpl.
  rewrite reverse_app, reverse_cons, <-app_assoc. simpl.
  rewrite ext_scan_app_sep, ext_scan_sep_end; [done|].
  by rewrite elem_of_reverse.
Qed.

Lemma Ext_mp4 path : Ext path = ".mp4" ↔ ∃ stem, path = stem +:+ ".mp4".
Proof.
  split.
  - intros H. destruct (Ext_suffix path) as [stem Hp]. exists stem. by rewrite <-H.
  - intros [stem ->]. apply (Ext_app stem "mp4"); vm_compute; [|]; intros H;
      by repeat (apply elem_of_cons in H as [?|H]; [done|]); apply elem_of_nil in H.
Qed.
End ext.

(** ** [Base] *)

Section base.
Implicit Types (r acc : list Ascii.ascii) (path dir name : string).

Lemma last_element_app r1 r2 acc :
  Separator ∉ r1 →
  last_element (r1 ++ Separator :: r2) acc = reverse r1 ++ acc.
Proof.
  revert acc. induction r1 as [|c r1 IH]; intros acc Hs; simpl; [done|].
  apply not_elem_of_cons in Hs as [? ?]. case_decide; [done|].
  rewrite IH by done. by rewrite reverse_cons, <-app_assoc.
Qed.

Lemma last_element_sep_free r acc :
  Separator ∉ r → last_element r acc = reverse r ++ acc.
Proof.
  revert acc. induction r as [|c r IH]; intros acc Hs; simpl; [done|].
  apply not_elem_of_cons in Hs as [? ?]. case_decide; [done|].
  rewrite IH by done. by rewrite reverse_cons, <-app_assoc.
Qed.

Lemma strip_seps_head c r : c ≠ Separator → strip_seps (c :: r) = c :: r.
Proof. intros. simpl. by case_decide. Qed.

(** The reversed characters of a name: not empty, first one no separator. *)
Lemma reverse_name name :
  name ≠ "" → sep_free name →
  ∃ c r, reverse (chars name) = c :: r ∧ c ≠ Separator ∧ Separator ∉ r.
Proof.
  intros Hne Hs. destruct (reverse (chars name)) as [|c r] eqn:E.
  - apply (f_equal reverse) in E. rewrite reverse_involutive in E.
    by apply chars_nil in E.
  - assert (Separator ∉ c :: r) as [? ?]%not_elem_of_cons; [|eauto].
    rewrite <-E, elem_of_reverse. done.
Qed.

(** The base of a path that ends in a name is the name. *)
Lemma Base_dir_name dir name :
  name ≠ "" → sep_free name → Base (dir +:+ "/" +:+ name) = name.
Proof.
  intros Hne Hs. unfold Base. rewrite decide_False by by destruct dir.
  rewrite !chars_app. simpl. rewrite reverse_app, reverse_cons, <-app_assoc. simpl.
  destruct (reverse_name name Hne Hs) as (c & r & E & Hc & Hr).
  rewrite E. cbn [app]. rewrite strip_seps_head, decide_False by done.
  rewrite app_comm_cons, last_element_app, app_nil_r, <-E by (by apply not_elem_of_cons).
  by rewrite reverse_involutive, str_chars.
Qed.

Lemma Base_name name : name ≠ "" → sep_free name → Base name = name.
Proof.
  intros Hne Hs. unfold Base. rewrite decide_False by done.
  destruct (reverse_name name Hne Hs) as (c & r & E & Hc & Hr).
  cbn zeta. rewrite E, strip_seps_head, decide_False by done.
  rewrite last_element_sep_free, app_nil_r, <-E by (by apply not_elem_of_cons).
  by rewrite reverse_involutive, str_chars.
Qed.

(** The base never contains a separator, except for the root itself. *)
Lemma last_element_no_sep r acc :
  Separator ∉ acc → Separator ∉ last_element r acc.
Proof.
  revert acc. induction r as [|c r IH]; intros acc Hacc; simpl; [done|].
  case_decide; [done|]. apply IH. by apply not_elem_of_cons.
Qed.

Lemma Base_sep_free path : Base path = "/" ∨ sep_free (Base path).
Proof.
  unfold Base. case_decide; [right; by apply (bool_decide_unpack _)|].
  cbn zeta. case_decide; [by left|right].
  unfold sep_free. rewrite chars_str. apply last_element_no_sep, not_elem_of_nil.
Qed.
End base.

(** ** [Clean] and [Join] on the paths of a walk *)

Section clean.
Implicit Types (s dir name path : string) (l stack : list string).

Lemma split_sep_cons s : ∃ x xs, split_sep s = x :: xs.
Proof.
  induction s as [|c s (x & xs & IH)]; simpl; [by eauto|].
  case_decide; [by eauto|]. rewrite IH. eauto.
Qed.

Lemma split_sep_sep_free s : sep_free s → split_sep s = [s].
Proof.
  induction s as [|c s IH]; [done|]. intros [? ?]%sep_free_cons. simpl.
  case_decide; [done|]. by rewrite IH.
Qed.

Lemma split_sep_app s1 s2 :
  split_sep (s1 +:+ "/" +:+ s2) = split_sep s1 ++ split_sep s2.
Proof.
  induction s1 as [|c s1 IH]; [done|]. rewrite string_app_cons. simpl.
  case_decide; [by rewrite IH|]. rewrite IH.
  by destruct (split_sep_cons s1) as (x & xs & ->).
Qed.

Lemma split_join l :
  l ≠ [] → Forall sep_free l → split_sep (join_sep l) = l.
Proof.
  induction l as [|x [|y l] IH]; intros Hne Hl; [done|..].
  - apply split_sep_sep_free. by inversion Hl.
  - inversion Hl; subst.
    change (join_sep (x :: y :: l)) with (x +:+ "/" +:+ join_sep (y :: l)).
    rewrite split_sep_app, split_sep_sep_free, IH by done. done.
Qed.

Lemma join_sep_snoc l name :
  l ≠ [] → join_sep (l ++ [name]) = join_sep l +:+ "/" +:+ name.
Proof.
  induction l as [|x [|y l] IH]; intros Hne; [done|done|].
  change (join_sep ((x :: y :: l) ++ [name]))
    with (x +:+ "/" +:+ join_sep ((y :: l) ++ [name])).
  rewrite IH by done.
  change (join_sep (x :: y :: l)) with (x +:+ "/" +:+ join_sep (y :: l)).
  by rewrite !string_app_assoc.
Qed.

Lemma valid_name_sep_free name : valid_name name → sep_free name.
Proof. by intros (_ & _ & _ & ?). Qed.

Lemma clean_step_valid rooted stack name :
  valid_name name → clean_step rooted stack name = name :: stack.
Proof.
  intros (? & ? & ? & _). unfold clean_step.
  rewrite decide_False by (by intros [?|?]). by rewrite decide_False.
Qed.

Lemma foldl_clean_step_valid rooted stack l :
  Forall valid_name l →
  foldl (clean_step rooted) stack l = reverse l ++ stack.
Proof.
  revert stack. induction l as [|x l IH]; intros stack Hl; [done|].
  inversion Hl; subst. simpl. rewrite clean_step_valid, IH by done.
  by rewrite reverse_cons, <-app_assoc.
Qed.

Lemma clean_elements_valid rooted l :
  Forall valid_name l → clean_elements rooted l = l.
Proof.
  intros Hl. unfold clean_elements.
  by rewrite foldl_clean_step_valid, app_nil_r, reverse_involutive.
Qed.

Lemma clean_elements_dot rooted l :
  clean_elements rooted ("." :: l) = clean_elements rooted l.
Proof. done. Qed.

Lemma is_rooted_join l :
  l ≠ [] → Forall valid_name l → is_rooted (join_sep l) = false.
Proof.
  destruct l as [|x l]; [done|]. intros _ Hl. inversion Hl as [|? ? Hx _]; subst.
  destruct Hx as (Hne & _ & _ & Hs). destruct x as [|c x]; [done|].
  apply sep_free_cons in Hs as [Hc _].
  destruct l; cbn [join_sep]; rewrite ?string_app_cons; simpl;
    by rewrite bool_decide_eq_false.
Qed.

Lemma Clean_join l :
  l ≠ [] → Forall valid_name l → Clean (join_sep l) = join_sep l.
Proof.
  intros Hne Hl. unfold Clean. rewrite is_rooted_join by done.
  rewrite split_join by (done || by eapply Forall_impl, valid_name_sep_free).
  rewrite clean_elements_valid by done. by destruct l.
Qed.

(** [Clean] leaves a clean relative path as it is. *)
Lemma Clean_clean_rel path : clean_rel path → Clean path = path.
Proof. intros (l & ? & ? & ->). by apply Clean_join. Qed.

Lemma clean_rel_nonempty path : clean_rel path → path ≠ "".
Proof.
  intros (l & Hne & Hl & ->) E. pose proof (is_rooted_join l Hne Hl) as _.
  destruct l as [|x [|y l]]; [done|..]; inversion Hl as [|? ? (? & _) _]; subst.
  - done.
  - cbn [join_sep] in E. by destruct x.
Qed.

Lemma clean_rel_snoc dir name :
  clean_rel dir → valid_name name → clean_rel (dir +:+ "/" +:+ name).
Proof.
  intros (l & Hne & Hl & ->) Hn. exists (l ++ [name]). split_and!.
  - by destruct l.
  - apply Forall_app. auto.
  - by rewrite join_sep_snoc.
Qed.

Lemma clean_rel_name name : valid_name name → clean_rel name.
Proof. intros Hn. exists [name]. split_and!; [done|by constructor|done]. Qed.

(** The path [Walk] builds for an entry of a directory whose path is clean:
    the two joined by a separator. *)
Lemma Join_clean_rel dir name :
  clean_rel dir → valid_name name → Join dir name = dir +:+ "/" +:+ name.
Proof.
  intros Hd Hn. unfold Join. rewrite decide_True by by apply clean_rel_nonempty.
  by apply Clean_clean_rel, clean_rel_snoc.
Qed.

(** The same for a root written with a leading ["./"], as the program's
    ["./videos"]: the join drops the prefix. *)
Lemma Join_dot_slash dir name :
  clean_rel dir → valid_name name →
  Join ("./" +:+ dir) name = dir +:+ "/" +:+ name.
Proof.
  intros Hd Hn. unfold Join. rewrite decide_True by done.
  pose proof (clean_rel_snoc dir name Hd Hn) as (l & Hne & Hl & E).
  change (("./" +:+ dir) +:+ "/" +:+ name)
    with ("." +:+ "/" +:+ (dir +:+ "/" +:+ name)).
  unfold Clean. rewrite split_sep_app, E. simpl (is_rooted _).
  rewrite split_join by (done || by eapply Forall_impl, valid_name_sep_free).
  simpl (split_sep "."). simpl (_ ++ _).
  rewrite clean_elements_dot, clean_elements_valid by done. by destruct l.
Qed.
End clean.

#[export] Hint Resolve clean_rel_snoc clean_rel_name valid_name_sep_free : vq.

(** ** Theorems *)

(** [filepath.Ext] of a path is [".mp4"] exactly when the path ends in
    [".mp4"], whatever comes before: the test of the walk is a test on the
    end of the name, in lower case. *)
Theorem Ext_mp4_iff path : Ext path = ".mp4" ↔ ∃ stem, path = stem +:+ ".mp4".
Proof. apply Ext_mp4. Qed.

(** The path [filepath.Walk] builds for an entry [name] of a directory
    whose path is clean is the two joined by one separator; its base is the
    name, its extension the extension of the name, and it is clean again. *)
Theorem Join_entry dir name :
  clean_rel dir → valid_name name →
  Join dir name = dir +:+ "/" +:+ name
  ∧ Base (Join dir name) = name
  ∧ Ext (Join dir name) = Ext name
  ∧ clean_rel (Join dir name).
Proof.
  intros Hd Hn. rewrite Join_clean_rel by done.
  pose proof Hn as (? & ? & ? & ?).
  split_and!; [done|by apply Base_dir_name|by apply Ext_dir_name|].
  by apply clean_rel_snoc.
Qed.

Lemma Join_entry_witness :
  Join "videos/old" "a.mp4" = "videos/old" +:+ "/" +:+ "a.mp4"
  ∧ Base (Join "videos/old" "a.mp4") = "a.mp4"
  ∧ Ext (Join "videos/old" "a.mp4") = Ext "a.mp4"
  ∧ clean_rel (Join "videos/old" "a.mp4").
Proof.
  apply (Join_entry "videos/old" "a.mp4").
  - exists ["videos"; "old"]. split_and!; [done| |done].
    apply (bool_decide_unpack _). vm_compute. exact I.
  - apply (bool_decide_unpack _). vm_compute. exact I.
Defined.

(** Paths the Go documentation gives for the three functions. *)
Example Ext_examples :
  Ext "videos/a.mp4" = ".mp4" ∧ Ext "videos/a.MP4" = ".MP4"
  ∧ Ext "videos.d/a" = "" ∧ Ext "a.mp4.part" = ".part" ∧ Ext ".mp4" = ".mp4".
Proof. by split_and!. Qed.

Example Base_examples :
  Base "videos/a.mp4" = "a.mp4" ∧ Base "" = "." ∧ Base "///" = "/"
  ∧ Base "videos/old/" = "old".
Proof. by split_and!. Qed.

Example Clean_examples :
  Clean "./videos/a.mp4" = "videos/a.mp4" ∧ Clean "a//b/./c/.." = "a/b"
  ∧ Clean "/../a" = "/a" ∧ Clean "../../a" = "../../a" ∧ Clean "" = "."
  ∧ Clean "a/../.." = "..".
Proof. by split_and!. Qed.
