(* ===== verification/Discovery.v ===== *)
(** * Discovery: [getUnprocessedVideos] and the walk of the file system

    [getUnprocessedVideos] ([src/backend/main.go], lines 108-143) walks the
    directory [./videos] with [filepath.Walk], collects the paths of the
    entries that are not directories and whose extension is [".mp4"], and
    answers with one [Video] for every collected path that the membership
    cache does not hold; [getFileSize] (lines 145-151) reads the size of a
    file and gives 0 when it cannot.

    The file system is a tree of [node]s seen from the working directory of
    the process. [Walk] and [walk] follow the Go library: lexical order, the
    callback called on every entry, on a directory before its entries, with
    the error of a failed [Lstat] or of a directory that cannot be read. The
    callback [walkFn] is the function literal of lines 114-122; its captured
    variable [videoPaths] is the state the walk threads through the calls.

    The handler is compared with a specification on the tree, [discovered]:
    the leaves of the tree with the paths ["videos/<name>/.../<name>"]. *)

From S2P Require Import Prelude Paths Store Cache Handlers.

#[local] Open Scope Z_scope.

(** ** The file system *)

#[local] Unset Elimination Schemes.

Inductive node : Type :=
| File (size : Z)
    (** a regular file *)
| Special (stat : option Z)
    (** neither a directory nor a regular file for [Lstat]: a symbolic
        link, a device, a socket. [stat] is the size [os.Stat] reports after
        following a link, if it succeeds. *)
| Dir (entries : list (string * node))
    (** a directory, its entries in the order [readDirNames] returns them *)
| Unreadable
    (** a directory whose entries cannot be read *)
| Broken.
    (** an entry on which [Lstat] fails *)

#[local] Set Elimination Schemes.

(** What the program reads of an [os.FileInfo]. *)
Record FileInfo : Type := mkFileInfo {
  IsDir : bool;
  Size : Z;
}.

(** The errors of a walk: the two sentinels of [path/filepath] and the
    errors of the file system, which carry the path. *)
Inductive walk_error : Type :=
| SkipDir
| SkipAll
| FsError (path : string).

#[export] Instance walk_error_eq_dec : EqDecision walk_error.
Proof. solve_decision. Defined.

#[export] Instance FileInfo_eq_dec : EqDecision FileInfo.
Proof. solve_decision. Defined.

Definition is_dir (n : node) : bool :=
  match n with
  | Dir _ | Unreadable => true
  | _ => false
  end.

(** [os.Lstat] on an entry: the link itself, not its target. The size of a
    directory or of a special file is not modelled; the program reads the
    size only through [os.Stat]. *)
Definition Lstat (path : string) (n : node) : result walk_error FileInfo :=
  match n with
  | File size => Ok (mkFileInfo false size)
  | Special _ => Ok (mkFileInfo false 0)
  | Dir _ | Unreadable => Ok (mkFileInfo true 0)
  | Broken => Err (FsError path)
  end.

(** The entry of a name in a directory listing. *)
Fixpoint entry (name : string) (entries : list (string * node)) : option node :=
  match entries with
  | [] => None
  | (name', n) :: entries' =>
      if decide (name' = name) then Some n else entry name entries'
  end.

(** Path resolution from a node, element by element. Empty elements and
    ["."] stay in place; every other element is looked up in the
    directory. *)
Fixpoint resolve (n : node) (elements : list string) : option node :=
  match elements with
  | [] => Some n
  | name :: elements' =>
      if decide (name = "" ∨ name = ".") then resolve n elements'
      else
        match n with
        | Dir entries =>
            match entry name entries with
            | Some child => resolve child elements'
            | None => None
            end
        | _ => None
        end
  end.

(** [os.Stat] of a path relative to the working directory [cwd]. *)
Definition Stat (cwd : node) (path : string) : result walk_error FileInfo :=
  match resolve cwd (split_sep path) with
  | Some (File size) => Ok (mkFileInfo false size)
  | Some (Special (Some size)) => Ok (mkFileInfo false size)
  | Some (Dir _) | Some Unreadable => Ok (mkFileInfo true 0)
  | Some (Special None) | Some Broken | None => Err (FsError path)
  end.

(** ** [filepath.Walk] *)

(** The type [filepath.WalkFunc], with the state [S] of the variables the
    function literal captures. *)
Definition WalkFunc (S : Type) : Type :=
  string → option FileInfo → option walk_error → S → S * option walk_error.

Section walk.
Context {S : Type} (walkFn : WalkFunc S).

(** The loop of [walk] over the names of a directory; [rec] is [walk]
    itself. An error of the callback or of the walk of an entry ends the
    loop, except [SkipDir] from a directory. *)
Fixpoint walk_entries (rec : string → node → S → S * option walk_error)
    (path : string) (entries : list (string * node)) (s : S) :
    S * option walk_error :=
  match entries with
  | [] => (s, None)
  | (name, child) :: entries' =>
      let filename := Join path name in
      match Lstat filename child with
      | Err err =>
          match walkFn filename None (Some err) s with
          | (s', Some e) =>
              if decide (e = SkipDir) then walk_entries rec path entries' s'
              else (s', Some e)
          | (s', None) => walk_entries rec path entries' s'
          end
      | Ok fileInfo =>
          match rec filename child s with
          | (s', Some e) =>
              if negb (IsDir fileInfo) || negb (bool_decide (e = SkipDir))
              then (s', Some e)
              else walk_entries rec path entries' s'
          | (s', None) => walk_entries rec path entries' s'
          end
      end
  end.

(** [walk]: the callback on the entry; for a directory, then the entries. *)
Fixpoint walk (path : string) (n : node) (s : S) {struct n} :
    S * option walk_error :=
  match n with
  | File size => walkFn path (Some (mkFileInfo false size)) None s
  | Special _ => walkFn path (Some (mkFileInfo false 0)) None s
  | Unreadable =>
      walkFn path (Some (mkFileInfo true 0)) (Some (FsError path)) s
  | Broken => walkFn path None (Some (FsError path)) s
  | Dir entries =>
      match walkFn path (Some (mkFileInfo true 0)) None s with
      | (s1, Some e) => (s1, Some e)
      | (s1, None) =>
          walk_entries (λ filename child s, walk filename child s)
            path entries s1
      end
  end.

(** [Walk]: [Lstat] on the root, then [walk]; the two sentinels are not
    errors of the walk as a whole. *)
Definition Walk (root : string) (n : node) (s : S) : S * option walk_error :=
  let '(s', err) :=
    match Lstat root n with
    | Err err => walkFn root None (Some err) s
    | Ok info => walk root n s
    end in
  match err with
  | Some SkipDir | Some SkipAll => (s', None)
  | _ => (s', err)
  end.
End walk.

(** ** The handler *)

(** The function literal passed to [Walk] (lines 114-122); the state is the
    slice [videoPaths]. An error is returned as it is; a directory or a path
    with another extension is passed over. [Walk] never calls it without
    both an [info] and an error. *)
Definition walkFn : WalkFunc (list string) :=
  λ path info err videoPaths,
    match err with
    | Some e => (videoPaths, Some e)
    | None =>
        match info with
        | Some info =>
            if negb (IsDir info) && bool_decide (Ext path = ".mp4")
            then (videoPaths ++ [path], None)
            else (videoPaths, None)
        | None => (videoPaths, None)
        end
    end.

(** [getFileSize]: the size [os.Stat] reports, 0 if it fails. *)
Definition getFileSize (cwd : node) (path : string) : Z :=
  match Stat cwd path with
  | Err _ => 0
  | Ok info => Size info
  end.

Definition videosDir : string := "./videos".

(** What the path [videosDir] names in the working directory; an entry on
    which [Lstat] fails if there is none. *)
Definition videos_root (cwd : node) : node :=
  default Broken (resolve cwd (split_sep videosDir)).

(** The video of a path that is not in the cache (lines 132-137). The two
    fields the literal does not set are empty strings. *)
Definition unprocessed_video (cwd : node) (path : string) : Video.t :=
  Video.mk (Base path) path "" "" "unprocessed" (getFileSize cwd path).

(** One iteration of the loop over [videoPaths] (lines 130-140). *)
Definition filter_step (processedPaths : gmap string bool) (cwd : node)
    (videos : list Video.t) (path : string) : list Video.t :=
  if negb (cache_get processedPaths path)
  then videos ++ [unprocessed_video cwd path]
  else videos.

(** [getUnprocessedVideos]: the walk of [./videos], 500 with its error if
    it fails, else the videos of the paths the cache does not hold. *)
Definition getUnprocessedVideos (s : Server) (cwd : node) :
    response walk_error (list Video.t) :=
  match Walk walkFn videosDir (videos_root cwd) [] with
  | (_, Some err) => StatusInternalServerError err
  | (videoPaths, None) =>
      StatusOK (foldl (filter_step (processedPaths s) cwd) [] videoPaths)
  end.

(** ** Reference definitions the handler is compared with *)

(** A tree that a walk reads to its end: no directory that cannot be read,
    no entry on which [Lstat] fails. *)
Fixpoint readable (n : node) : bool :=
  match n with
  | Dir entries => forallb (λ e, readable e.2) entries
  | Unreadable | Broken => false
  | File _ | Special _ => true
  end.

(** The names in every directory are names of entries, and distinct. *)
Fixpoint names_ok (n : node) : bool :=
  match n with
  | Dir entries =>
      bool_decide (Forall valid_name entries.*1)
      && bool_decide (NoDup entries.*1)
      && forallb (λ e, names_ok e.2) entries
  | _ => true
  end.

(** The entries of a tree that are not directories, each with its path
    under [path], in lexical order. *)
Fixpoint leaves (path : string) (n : node) : list (string * node) :=
  match n with
  | Dir entries =>
      concat ((λ e, leaves (path +:+ "/" +:+ e.1) e.2) <$> entries)
  | File _ | Special _ => [(path, n)]
  | Unreadable | Broken => []
  end.

(** The specification of the walk: the paths under ["videos"] of the
    entries that are not directories and whose extension is [".mp4"]. *)
Definition is_video (path : string) : Prop := Ext path = ".mp4".

#[export] Instance is_video_dec path : Decision (is_video path).
Proof. unfold is_video. apply _. Defined.

Definition video_paths (path : string) (n : node) : list string :=
  filter is_video (leaves path n).*1.

Definition discovered (cwd : node) : list string :=
  match videos_root cwd with
  | Dir entries =>
      concat ((λ e, video_paths ("videos" +:+ "/" +:+ e.1) e.2) <$> entries)
  | _ => []
  end.

(** The size [os.Stat] reports for a node; 0 where [getFileSize] gives 0. *)
Definition size_of (n : node) : Z :=
  match n with
  | File size | Special (Some size) => size
  | _ => 0
  end.

(** The specification of the handler: a video for every discovered path
    that the cache does not hold. *)
Definition spec_unprocessed (processedPaths : gmap string bool) (cwd : node) :
    list Video.t :=
  unprocessed_video cwd <$>
    filter (λ path, cache_get processedPaths path = false) (discovered cwd).

(** The tree of the specification's scenario, with a subdirectory, a file
    that is no video and a link whose target is missing. *)
Definition demo_fs : node :=
  Dir [("main.go", File 7424);
       ("videos",
        Dir [("a.mp4", File 1048576);
             ("b.mp4", File 2097152);
             ("notes.txt", File 12);
             ("old", Dir [("a.mp4", File 4096); ("link.mp4", Special None)])])].

(** ** Induction on trees *)

Section node_ind.
Context (P : node → Prop).
Context (HFile : ∀ size, P (File size)).
Context (HSpecial : ∀ stat, P (Special stat)).
Context (HDir : ∀ entries, Forall (λ e, P e.2) entries → P (Dir entries)).
Context (HUnreadable : P Unreadable).
Context (HBroken : P Broken).

Fixpoint node_ind (n : node) : P n :=
  match n with
  | File size => HFile size
  | Special stat => HSpecial stat
  | Dir entries =>
      HDir entries
        ((fix all (es : list (string * node)) : Forall (λ e, P e.2) es :=
            match es with
            | [] => List.Forall_nil (λ e, P e.2)
            | (name, child) :: es' =>
                @List.Forall_cons _ (λ e, P e.2) (name, child) es'
                  (node_ind child) (all es')
            end) entries)
  | Unreadable => HUnreadable
  | Broken => HBroken
  end.
End node_ind.

(** ** The callback *)

Section callback.
Implicit Types (path : string) (acc videoPaths : list string) (n : node).

Lemma walkFn_err path info e acc : walkFn path info (Some e) acc = (acc, Some e).
Proof. done. Qed.

Lemma walkFn_dir path size acc :
  walkFn path (Some (mkFileInfo true size)) None acc = (acc, None).
Proof. done. Qed.

Lemma walkFn_file path size acc :
  walkFn path (Some (mkFileInfo false size)) None acc
  = (acc ++ filter is_video [path], None).
Proof.
  unfold walkFn. simpl. rewrite filter_cons, filter_nil. unfold is_video.
  case_bool_decide; case_decide; try done. by rewrite app_nil_r.
Qed.

(** The callback returns the error it is given and no other: it never asks
    the walk to skip a directory. *)
Lemma walkFn_error path info err acc acc' e :
  walkFn path info err acc = (acc', Some e) → err = Some e ∧ acc' = acc.
Proof.
  unfold walkFn. destruct err as [e'|]; [by intros [= -> ->]|].
  destruct info as [info|]; [|done]. by case_match.
Qed.

(** The callback only appends, and only videos. *)
Lemma walkFn_appends path info err acc :
  ∃ new, (walkFn path info err acc).1 = acc ++ new ∧ Forall is_video new.
Proof.
  unfold walkFn. destruct err as [e|]; [by exists []; rewrite app_nil_r|].
  destruct info as [info|]; [|by exists []; rewrite app_nil_r].
  destruct (IsDir info); simpl; [by exists []; rewrite app_nil_r|].
  case_bool_decide; simpl; [|by exists []; rewrite app_nil_r].
  exists [path]. split; [done|]. by constructor.
Qed.

Lemma walkFn_videos path info err acc :
  Forall is_video acc → Forall is_video (walkFn path info err acc).1.
Proof.
  intros Hacc. destruct (walkFn_appends path info err acc) as (new & -> & Hnew).
  by apply Forall_app.
Qed.
End callback.

(** ** [Walk] and its callback

    Two facts about [Walk] that hold for every callback of a kind, proved
    once: an invariant of the callback's state is an invariant of the walk,
    and under a callback that hands back the errors it is given ([Propagating])
    the walk succeeds exactly on a readable tree. *)

Class Propagating {S : Type} (fn : WalkFunc S) : Prop := {
  propagates_error path info e s : (fn path info (Some e) s).2 = Some e;
  propagates_ok path info s : (fn path (Some info) None s).2 = None;
}.

(** The outcome of a walk on a tree: no error if it is readable, an error of
    the file system if not. *)
Definition walk_outcome (readable : bool) (err : option walk_error) : Prop :=
  if readable then err = None else ∃ path, err = Some (FsError path).

Section walk_lemmas.
Context {S : Type} (fn : WalkFunc S).
Implicit Types (path : string) (n : node) (s : S)
  (entries : list (string * node)).

Notation walk_rec := (λ filename child s, walk fn filename child s).

Section invariant.
Context (I : S → Prop).
Context (fn_preserves : ∀ path info err s, I s → I (fn path info err s).1).

Lemma walk_entries_preserves path entries s :
  Forall (λ e, ∀ path s, I s → I (walk fn path e.2 s).1) entries →
  I s → I (walk_entries fn walk_rec path entries s).1.
Proof.
  intros Hall. revert s.
  induction Hall as [|[name child] entries Hc _ IH]; intros s Hs; [done|].
  simpl in *. destruct (Lstat _ child) as [info|err].
  - specialize (Hc (Join path name) s Hs).
    destruct (walk fn _ child s) as [s' [e|]]; [case_match|]; auto.
  - pose proof (fn_preserves (Join path name) None (Some err) s Hs) as Hf.
    destruct (fn _ _ _ s) as [s' [e|]]; [case_decide|]; auto.
Qed.

Lemma walk_preserves path n s : I s → I (walk fn path n s).1.
Proof.
  revert path s. induction n as [size|stat|entries IH| |] using node_ind;
    intros path s Hs; simpl; try by apply fn_preserves.
  pose proof (fn_preserves path (Some (mkFileInfo true 0)) None s Hs) as Hf.
  destruct (fn path _ _ s) as [s1 [e|]]; [done|].
  by apply walk_entries_preserves.
Qed.

Lemma Walk_preserves root n s : I s → I (Walk fn root n s).1.
Proof.
  intros Hs. unfold Walk.
  assert (I (match Lstat root n with
             | Err err => fn root None (Some err) s
             | Ok _ => walk fn root n s
             end).1) as H.
  { destruct (Lstat root n); [by apply walk_preserves|by apply fn_preserves]. }
  destruct (match Lstat root n with Err _ => _ | Ok _ => _ end) as [s' [[]|]];
    done.
Qed.
End invariant.

Section outcome.
Context `{!Propagating fn}.

Lemma walk_entries_outcome path entries s :
  Forall (λ e, ∀ path s, walk_outcome (readable e.2) (walk fn path e.2 s).2)
    entries →
  walk_outcome (forallb (λ e, readable e.2) entries)
    (walk_entries fn walk_rec path entries s).2.
Proof.
  intros Hall. revert s.
  induction Hall as [|[name child] entries Hc _ IH]; intros s; [done|].
  simpl in *. destruct (Lstat _ child) as [info|err] eqn:El.
  - specialize (Hc (Join path name) s).
    destruct (walk fn _ child s) as [s' [e|]], (readable child); simpl in *.
    + done.
    + destruct Hc as [p [= ->]]. rewrite orb_true_r. by exists p.
    + apply IH.
    + by destruct Hc.
  - destruct child; simplify_eq/=.
    pose proof (propagates_error (Join path name) None
                  (FsError (Join path name)) s) as He.
    destruct (fn _ _ _ s) as [s' [e|]]; simplify_eq/=. eexists; reflexivity.
Qed.

(** The walk ends without an error exactly on a readable tree, and with an
    error of the file system otherwise. *)
Lemma walk_outcome_readable path n s :
  walk_outcome (readable n) (walk fn path n s).2.
Proof.
  revert path s. induction n as [size|stat|entries IH| |] using node_ind;
    intros path s; simpl; try apply propagates_ok.
  - pose proof (propagates_ok path (mkFileInfo true 0) s) as Hd.
    destruct (fn path _ _ s) as [s1 [e|]]; [done|].
    by apply walk_entries_outcome.
  - exists path. apply propagates_error.
  - exists path. apply propagates_error.
Qed.

Lemma Walk_outcome root n s :
  walk_outcome (readable n) (Walk fn root n s).2.
Proof.
  unfold Walk.
  assert (walk_outcome (readable n)
            (match Lstat root n with
             | Err err => fn root None (Some err) s
             | Ok _ => walk fn root n s
             end).2) as H.
  { destruct n; try apply (walk_outcome_readable root _ s).
    exists root. apply propagates_error. }
  destruct (match Lstat root n with Err _ => _ | Ok _ => _ end) as [s' err].
  unfold walk_outcome in *. destruct (readable n); simpl in H.
  - by subst.
  - destruct H as [p ->]. by exists p.
Qed.
End outcome.
End walk_lemmas.

#[export] Instance walkFn_propagating : Propagating walkFn.
Proof. split; intros; unfold walkFn; simpl; [done|by case_match]. Qed.

(** ** What the walk collects *)

Section collect.
Implicit Types (path base : string) (acc : list string) (n : node)
  (entries : list (string * node)).

Notation walk_rec := (λ filename child s, walk walkFn filename child s).

Lemma video_paths_Dir path entries :
  video_paths path (Dir entries)
  = concat ((λ e, video_paths (path +:+ "/" +:+ e.1) e.2) <$> entries).
Proof.
  unfold video_paths. simpl.
  rewrite fmap_concat, filter_concat, <-!list_fmap_compose. done.
Qed.

Lemma video_paths_leaf path n :
  is_dir n = false → n ≠ Broken → video_paths path n = filter is_video [path].
Proof. by destruct n. Qed.

Lemma names_ok_Dir entries :
  names_ok (Dir entries) = true ↔
  Forall valid_name entries.*1 ∧ NoDup entries.*1
  ∧ Forall (λ e, names_ok e.2 = true) entries.
Proof.
  simpl. rewrite !andb_true_iff, !bool_decide_eq_true, forallb_Forall.
  naive_solver.
Qed.

Lemma readable_Dir entries :
  readable (Dir entries) = true ↔ Forall (λ e, readable e.2 = true) entries.
Proof.
  apply forallb_Forall.
Qed.

(** The loop over a directory whose entries get the path [base/name]. *)
Lemma walk_entries_collect path base entries acc :
  Forall (λ e, Join path e.1 = base +:+ "/" +:+ e.1 ∧ e.2 ≠ Broken
               ∧ ∀ acc, walk walkFn (base +:+ "/" +:+ e.1) e.2 acc
                        = (acc ++ video_paths (base +:+ "/" +:+ e.1) e.2, None))
    entries →
  walk_entries walkFn walk_rec path entries acc
  = (acc ++ concat ((λ e, video_paths (base +:+ "/" +:+ e.1) e.2) <$> entries),
     None).
Proof.
  intros Hall. revert acc.
  induction Hall as [|[name child] entries (HJ & Hb & Hc) _ IH]; intros acc.
  { by rewrite app_nil_r. }
  simpl in *. rewrite HJ, Hc.
  destruct child; try done; by rewrite IH, app_assoc.
Qed.

(** On a readable tree with proper names, under a clean path, the walk
    collects the videos among the leaves, in order. *)
Lemma walk_collects path n acc :
  clean_rel path → names_ok n = true → readable n = true →
  walk walkFn path n acc = (acc ++ video_paths path n, None).
Proof.
  revert path acc. induction n as [size|stat|entries IH| |] using node_ind;
    intros path acc Hp Hn Hr; try done; try apply walkFn_file.
  rewrite video_paths_Dir. simpl walk.
  apply names_ok_Dir in Hn as (Hv & _ & Hn). apply readable_Dir in Hr.
  apply walk_entries_collect. rewrite Forall_fmap in Hv.
  rewrite Forall_forall in *. intros e He.
  pose proof (Hv e He) as Hve. pose proof (Hr e He) as Hre. simpl in Hve.
  split_and!; [by apply Join_clean_rel|by destruct (e.2)|].
  intros acc'. apply (IH e He); auto with vq.
Qed.

(** The same from the root [./videos]: its entries get paths that start
    with ["videos/"]. *)
Lemma Walk_collects entries :
  names_ok (Dir entries) = true → readable (Dir entries) = true →
  Walk walkFn videosDir (Dir entries) []
  = (concat ((λ e, video_paths ("videos" +:+ "/" +:+ e.1) e.2) <$> entries),
     None).
Proof.
  intros (Hv & _ & Hn)%names_ok_Dir Hr%readable_Dir.
  assert (clean_rel "videos") as Hvideos.
  { apply clean_rel_name. by apply (bool_decide_unpack _). }
  unfold Walk. simpl.
  rewrite (walk_entries_collect videosDir "videos" entries []); [done|].
  rewrite Forall_fmap in Hv. rewrite Forall_forall in *. intros e He.
  pose proof (Hv e He) as Hve. pose proof (Hr e He) as Hre. simpl in Hve.
  split_and!; [by apply (Join_dot_slash "videos")|by destruct (e.2)|].
  intros acc. apply walk_collects; auto with vq.
Qed.
End collect.

(** ** Paths and nodes: what the leaves are *)

Definition is_leaf (n : node) : bool :=
  match n with
  | File _ | Special _ => true
  | _ => false
  end.

Section resolve.
Implicit Types (path name : string) (names pre : list string) (n leaf : node)
  (entries : list (string * node)).

Lemma entry_Some name entries n :
  entry name entries = Some n → (name, n) ∈ entries.
Proof.
  induction entries as [|[name' n'] entries IH]; simpl; [done|].
  case_decide; [intros [= ->]; subst; left|right; auto].
Qed.

Lemma entry_NoDup name entries n :
  NoDup entries.*1 → (name, n) ∈ entries → entry name entries = Some n.
Proof.
  induction entries as [|[name' n'] entries IH]; simpl.
  { by intros _ ?%elem_of_nil. }
  intros [Hnotin Hnd]%NoDup_cons [[= -> ->]|Hin]%elem_of_cons.
  - by rewrite decide_True.
  - rewrite decide_False; [auto|]. intros ->. apply Hnotin.
    apply list_elem_of_fmap. by exists (name, n).
Qed.

Lemma resolve_valid entries name names :
  valid_name name →
  resolve (Dir entries) (name :: names)
  = n ← entry name entries; resolve n names.
Proof.
  intros (? & ? & _). simpl. rewrite decide_False by (by intros [?|?]).
  by destruct (entry name entries).
Qed.

Lemma resolve_leaf_valid n name names leaf :
  valid_name name → resolve n (name :: names) = Some leaf →
  ∃ entries child, n = Dir entries ∧ entry name entries = Some child
    ∧ resolve child names = Some leaf.
Proof.
  intros Hv H. destruct n as [| |entries| |];
    try (by destruct Hv as (? & ? & _); simpl in H;
            rewrite decide_False in H by (by intros [?|?])).
  rewrite resolve_valid in H by done.
  destruct (entry name entries) as [child|] eqn:E; [|done]. eauto.
Qed.

Lemma resolve_not_dir n names leaf :
  (∀ entries, n ≠ Dir entries) → Forall valid_name names →
  resolve n names = Some leaf → names = [] ∧ leaf = n.
Proof.
  intros Hn Hv Hr. destruct names as [|name names]; [by simplify_eq/=|].
  inversion Hv; subst.
  apply resolve_leaf_valid in Hr as (entries & ? & -> & _); [|done].
  by destruct (Hn entries).
Qed.

Lemma elem_of_leaves_not_dir pre n path leaf :
  (∀ entries, n ≠ Dir entries) →
  (path, leaf) ∈ (if is_leaf n then [(join_sep pre, n)] else []) ↔
  ∃ names, Forall valid_name names ∧ path = join_sep (pre ++ names)
    ∧ resolve n names = Some leaf ∧ is_leaf leaf = true.
Proof.
  intros Hn. split.
  - destruct (is_leaf n) eqn:El; [|by intros ?%elem_of_nil].
    intros [= -> ->]%list_elem_of_singleton. exists [].
    by rewrite app_nil_r.
  - intros (names & Hv & -> & Hr & Hl).
    apply resolve_not_dir in Hr as [-> ->]; [|done..].
    rewrite Hl, app_nil_r. by apply list_elem_of_singleton.
Qed.

(** The leaves of a tree are the nodes its paths resolve to. *)
Lemma elem_of_leaves pre n path leaf :
  names_ok n = true → pre ≠ [] →
  (path, leaf) ∈ leaves (join_sep pre) n ↔
  ∃ names, Forall valid_name names ∧ path = join_sep (pre ++ names)
    ∧ resolve n names = Some leaf ∧ is_leaf leaf = true.
Proof.
  revert pre. induction n as [size|stat|entries IH| |] using node_ind;
    intros pre Hn Hpre;
    try (match goal with
         | |- context [leaves _ ?n] =>
             by apply (elem_of_leaves_not_dir pre n path leaf)
         end).
  simpl leaves.
  apply names_ok_Dir in Hn as (Hv & Hnd & Hn). rewrite Forall_fmap in Hv.
  rewrite Forall_forall in IH, Hv, Hn. rewrite elem_of_concat. split.
  - intros (l & (e & -> & He)%list_elem_of_fmap & Hin).
    rewrite <-join_sep_snoc in Hin by done.
    apply IH in Hin as (names & Hnames & -> & Hr & Hl);
      [|done|by apply Hn|by destruct pre].
    exists (e.1 :: names). split_and!; [|by rewrite <-app_assoc| |done].
    + constructor; [by apply Hv|done].
    + rewrite resolve_valid by by apply Hv.
      rewrite (entry_NoDup e.1 entries e.2); [done|done|by destruct e].
  - intros ([|name names] & Hnames & -> & Hr & Hl); [by simplify_eq/=|].
    inversion Hnames; subst. rewrite resolve_valid in Hr by done.
    destruct (entry name entries) as [child|] eqn:E; [|done]. simpl in Hr.
    apply entry_Some in E. eexists. split.
    { apply list_elem_of_fmap. by exists (name, child). }
    simpl. rewrite <-join_sep_snoc by done.
    apply (IH (name, child)); [done|by apply (Hn (name, child))|by destruct pre|].
    exists names. by rewrite <-app_assoc.
Qed.
End resolve.

(** ** The handler *)

Section handler.
Implicit Types (s : Server) (cwd root leaf : node) (path : string)
  (paths : list string) (videos : list Video.t).

Lemma foldl_filter_step processedPaths cwd videos paths :
  foldl (filter_step processedPaths cwd) videos paths
  = videos ++ (unprocessed_video cwd <$>
                 filter (λ path, cache_get processedPaths path = false) paths).
Proof.
  revert videos. induction paths as [|path paths IH]; intros videos; simpl.
  { by rewrite app_nil_r. }
  rewrite IH, filter_cons. unfold filter_step.
  destruct (cache_get processedPaths path); simpl; [done|].
  by rewrite <-app_assoc.
Qed.

Lemma getUnprocessedVideos_Walk s cwd paths :
  Walk walkFn videosDir (videos_root cwd) [] = (paths, None) →
  getUnprocessedVideos s cwd
  = StatusOK (unprocessed_video cwd <$>
      filter (λ path, cache_get (processedPaths s) path = false) paths).
Proof.
  intros H. unfold getUnprocessedVideos. by rewrite H, foldl_filter_step.
Qed.

Lemma videos_root_entry cwd :
  videos_root cwd
  = match cwd with
    | Dir entries => default Broken (entry "videos" entries)
    | _ => Broken
    end.
Proof.
  unfold videos_root. destruct cwd as [| |entries| |]; try done.
  change (split_sep videosDir) with ["."; "videos"]. simpl.
  by destruct (entry "videos" entries).
Qed.

Lemma videos_root_resolve cwd names :
  videos_root cwd ≠ Broken →
  resolve cwd ("videos" :: names) = resolve (videos_root cwd) names.
Proof.
  rewrite videos_root_entry. destruct cwd as [| |entries| |]; try done.
  simpl. by destruct (entry "videos" entries).
Qed.

Lemma discovered_video_paths cwd :
  discovered cwd
  = if is_dir (videos_root cwd) then video_paths "videos" (videos_root cwd)
    else [].
Proof.
  unfold discovered. destruct (videos_root cwd); try done.
  by rewrite video_paths_Dir.
Qed.

(** The walk from [./videos] collects the discovered paths. *)
Lemma Walk_discovered cwd :
  names_ok (videos_root cwd) = true → readable (videos_root cwd) = true →
  Walk walkFn videosDir (videos_root cwd) [] = (discovered cwd, None).
Proof.
  intros Hn Hr. unfold discovered.
  destruct (videos_root cwd) as [| |entries| |]; try done.
  by apply Walk_collects.
Qed.

(** The discovered paths are the paths of videos, whatever the tree. *)
Lemma Walk_videos root paths err :
  Walk walkFn videosDir root [] = (paths, err) → Forall is_video paths.
Proof.
  intros H.
  pose proof (Walk_preserves walkFn (Forall is_video) walkFn_videos
                videosDir root [] (Forall_nil_2 _)) as Hw.
  by rewrite H in Hw.
Qed.

Lemma elem_of_discovered cwd path :
  names_ok (videos_root cwd) = true →
  path ∈ discovered cwd ↔
  ∃ names leaf, names ≠ [] ∧ Forall valid_name names
    ∧ path = join_sep ("videos" :: names)
    ∧ resolve (videos_root cwd) names = Some leaf
    ∧ is_leaf leaf = true ∧ is_video path.
Proof.
  intros Hn. rewrite discovered_video_paths. unfold video_paths.
  destruct (is_dir (videos_root cwd)) eqn:Ed.
  - rewrite list_elem_of_filter, list_elem_of_fmap. split.
    + intros (Hv & [p leaf] & -> & Hin).
      apply (elem_of_leaves ["videos"]) in Hin as (names & ? & -> & Hr & Hl);
        [|done..].
      exists names, leaf. split_and!; try done.
      intros ->. simplify_eq/=. by destruct (videos_root cwd).
    + intros (names & leaf & _ & Hv & -> & Hr & Hl & Hvid). split; [done|].
      exists (join_sep ("videos" :: names), leaf). split; [done|].
      apply (elem_of_leaves ["videos"]); [done..|]. by exists names.
  - split; [by intros ?%elem_of_nil|].
    intros ([|name names] & leaf & Hne & Hv & _ & Hr & _); [done|].
    inversion Hv; subst.
    apply resolve_leaf_valid in Hr as (? & ? & E & _); [|done].
    by rewrite E in Ed.
Qed.
End handler.

(** ** Sizes, and discovery after an enqueue *)

Section sizes.
Implicit Types (s : Server) (cwd leaf : node) (path : string).

Lemma getFileSize_resolve cwd path leaf :
  resolve cwd (split_sep path) = Some leaf → is_leaf leaf = true →
  getFileSize cwd path = size_of leaf.
Proof.
  intros Hr Hl. unfold getFileSize, Stat. rewrite Hr.
  by destruct leaf as [|[]| | |].
Qed.

(** A discovered path names a leaf of the tree, and [getFileSize] reads
    its size. *)
Lemma discovered_size cwd path :
  names_ok (videos_root cwd) = true → path ∈ discovered cwd →
  ∃ leaf, resolve cwd (split_sep path) = Some leaf ∧ is_leaf leaf = true
    ∧ getFileSize cwd path = size_of leaf.
Proof.
  intros Hn (names & leaf & Hne & Hv & -> & Hr & Hl & _)%elem_of_discovered;
    [|done].
  assert (resolve cwd (split_sep (join_sep ("videos" :: names))) = Some leaf).
  { rewrite split_join; [|done|].
    - rewrite videos_root_resolve; [done|].
      intros E. rewrite E in Hr. destruct names as [|name names]; [done|].
      inversion Hv; subst.
      by apply resolve_leaf_valid in Hr as (? & ? & ? & _).
    - constructor; [by apply (bool_decide_unpack _)|].
      by eapply Forall_impl, valid_name_sep_free. }
  exists leaf. split_and!; [done..|]. by apply getFileSize_resolve.
Qed.

Lemma getUnprocessedVideos_Ok_inv s cwd videos :
  getUnprocessedVideos s cwd = StatusOK videos →
  ∃ paths, Walk walkFn videosDir (videos_root cwd) [] = (paths, None)
    ∧ videos = unprocessed_video cwd <$>
        filter (λ path, cache_get (processedPaths s) path = false) paths.
Proof.
  unfold getUnprocessedVideos.
  destruct (Walk _ _ _ _) as [paths [e|]] eqn:E; [done|].
  intros [= <-]. exists paths. by rewrite foldl_filter_step.
Qed.

(** A path the cache holds is not among the unprocessed videos. *)
Lemma cached_not_discovered s cwd videos path :
  cache_get (processedPaths s) path = true →
  getUnprocessedVideos s cwd = StatusOK videos →
  path ∉ Video.Path <$> videos.
Proof.
  intros Hp (paths & _ & ->)%getUnprocessedVideos_Ok_inv.
  rewrite <-list_fmap_compose.
  intros (path' & -> & [Hc _]%list_elem_of_filter)%list_elem_of_fmap.
  simpl in Hp. congruence.
Qed.

(** After a successful enqueue the path is not discovered again. *)
Lemma enqueue_then_discover s video s' v cwd videos :
  addToQueue s (Some video) = (s', StatusOK v) →
  getUnprocessedVideos s' cwd = StatusOK videos →
  Video.Path video ∉ Video.Path <$> videos.
Proof.
  intros (t & _ & _ & _ & ->)%addToQueue_Ok. apply cached_not_discovered.
  simpl. rewrite cache_get_add. by rewrite decide_True.
Qed.
End sizes.

(** ** Theorems *)

(** The callback of the walk: an error is handed back and the list
    left alone; without an error, the path is appended exactly when the
    entry is not a directory and the path ends in [".mp4"]. *)
Theorem walkFn_spec path info acc :
  (∀ info' e, walkFn path info' (Some e) acc = (acc, Some e))
  ∧ (IsDir info = false ∧ (∃ stem, path = stem +:+ ".mp4") →
     walkFn path (Some info) None acc = (acc ++ [path], None))
  ∧ (¬ (IsDir info = false ∧ ∃ stem, path = stem +:+ ".mp4") →
     walkFn path (Some info) None acc = (acc, None)).
Proof.
  unfold walkFn. rewrite <-Ext_mp4. split_and!; [done|..]; intros Hv;
    destruct (IsDir info), (decide (Ext path = ".mp4")) as [E|E]; simpl;
    rewrite ?(bool_decide_eq_true_2 _ E), ?(bool_decide_eq_false_2 _ E);
    naive_solver.
Qed.

(** C4. On a tree that can be read and whose directories hold proper,
    distinct names, [getUnprocessedVideos] answers 200 with exactly the
    videos of the specification: one for every discovered path that the
    cache does not hold, in the order of the walk. *)
Theorem getUnprocessedVideos_refines_spec s cwd :
  names_ok (videos_root cwd) = true → readable (videos_root cwd) = true →
  getUnprocessedVideos s cwd
  = StatusOK (spec_unprocessed (processedPaths s) cwd).
Proof. intros. by apply getUnprocessedVideos_Walk, Walk_discovered. Qed.

Lemma getUnprocessedVideos_refines_spec_witness :
  getUnprocessedVideos demo_server demo_fs
  = StatusOK (spec_unprocessed (processedPaths demo_server) demo_fs).
Proof.
  apply (getUnprocessedVideos_refines_spec demo_server demo_fs); reflexivity.
Defined.



(** C22. A file system error anywhere under [./videos] fails the whole
    request: the answer is 200 exactly when every directory of the tree can
    be read and [Lstat] succeeds on every entry, and 500 with the error of
    the file system otherwise. No partial list is returned. *)
Theorem getUnprocessedVideos_outcome s cwd :
  match getUnprocessedVideos s cwd with
  | StatusOK _ => readable (videos_root cwd) = true
  | StatusInternalServerError e =>
      readable (videos_root cwd) = false ∧ ∃ path, e = FsError path
  | StatusBadRequest => False
  end.
Proof.
  pose proof (Walk_outcome walkFn videosDir (videos_root cwd) []) as H.
  unfold getUnprocessedVideos.
  destruct (Walk _ _ _ _) as [paths [e|]], (readable (videos_root cwd));
    simpl in H; try done; destruct H as [p [= ->]]; eauto.
Qed.

(** Every video of a 200 response is marked ["unprocessed"], has the
    last element of its path as id, a path with the extension [".mp4"] that
    the cache does not hold, no resolution and no bitrate, and the size
    [getFileSize] read. This holds for every tree. *)
Theorem getUnprocessedVideos_videos s cwd videos :
  getUnprocessedVideos s cwd = StatusOK videos →
  Forall (λ v, Video.Status v = "unprocessed"
             ∧ Video.ID v = Base (Video.Path v)
             ∧ Ext (Video.Path v) = ".mp4"
             ∧ cache_get (processedPaths s) (Video.Path v) = false
             ∧ Video.Resolution v = "" ∧ Video.Bitrate v = ""
             ∧ Video.OriginalSize v = getFileSize cwd (Video.Path v)) videos.
Proof.
  intros (paths & Hw%Walk_videos & ->)%getUnprocessedVideos_Ok_inv.
  rewrite Forall_fmap, Forall_forall. intros path [Hc Hin]%list_elem_of_filter.
  rewrite Forall_forall in Hw. split_and!; try done. by apply Hw.
Qed.

Lemma getUnprocessedVideos_videos_witness :
  Forall (λ v, Video.Status v = "unprocessed"
             ∧ Video.ID v = Base (Video.Path v)
             ∧ Ext (Video.Path v) = ".mp4"
             ∧ cache_get (processedPaths demo_server) (Video.Path v) = false
             ∧ Video.Resolution v = "" ∧ Video.Bitrate v = ""
             ∧ Video.OriginalSize v = getFileSize demo_fs (Video.Path v))
    (spec_unprocessed (processedPaths demo_server) demo_fs).
Proof.
  apply (getUnprocessedVideos_videos demo_server demo_fs). reflexivity.
Defined.

(** C39. The size reported for a video is the size of the file at its
    path: on a tree with proper names, the path of every video of a 200
    response resolves from the working directory to an entry that is not a
    directory, and [originalSize] is the size [os.Stat] gives for it, 0 when
    it gives none. *)
Theorem getUnprocessedVideos_sizes s cwd videos v :
  names_ok (videos_root cwd) = true →
  getUnprocessedVideos s cwd = StatusOK videos → v ∈ videos →
  ∃ leaf, resolve cwd (split_sep (Video.Path v)) = Some leaf
    ∧ is_leaf leaf = true ∧ Video.OriginalSize v = size_of leaf.
Proof.
  intros Hn H Hv. pose proof (getUnprocessedVideos_outcome s cwd) as Hr.
  rewrite H in Hr.
  rewrite getUnprocessedVideos_refines_spec in H by done. injection H as <-.
  apply list_elem_of_fmap in Hv as (path & -> & [_ Hin]%list_elem_of_filter).
  by apply discovered_size.
Qed.

Lemma getUnprocessedVideos_sizes_witness :
  ∃ leaf, resolve demo_fs (split_sep "videos/old/a.mp4") = Some leaf
    ∧ is_leaf leaf = true ∧ 4096 = size_of leaf.
Proof.
  apply (getUnprocessedVideos_sizes demo_server demo_fs
           (spec_unprocessed (processedPaths demo_server) demo_fs)
           (unprocessed_video demo_fs "videos/old/a.mp4")); [reflexivity..|].
  apply (bool_decide_unpack _). vm_compute. exact I.
Defined.

(** ** Scenarios *)

(** The scenario of the specification: the directory holds [a.mp4] and
    [b.mp4], the table a record for [a.mp4]; the response is exactly
    [b.mp4]. *)
Example scenario_discovery :
  let d := mkDB true (Some [demo_row "a.mp4" "pending"]) in
  let cwd := Dir [("videos", Dir [("a.mp4", File 10); ("b.mp4", File 20)])] in
  getUnprocessedVideos (mkServer d (refreshProcessedPathsCache d)) cwd
  = StatusOK [Video.mk "b.mp4" "videos/b.mp4" "" "" "unprocessed" 20].
Proof. reflexivity. Qed.

(** Two files of the same name in different directories are given the same
    id, and an entry that is no regular file is reported, with size 0 when
    its target is missing. *)
Example scenario_same_name :
  getUnprocessedVideos (mkServer demo_db ∅) demo_fs
  = StatusOK
      [Video.mk "a.mp4" "videos/a.mp4" "" "" "unprocessed" 1048576;
       Video.mk "b.mp4" "videos/b.mp4" "" "" "unprocessed" 2097152;
       Video.mk "a.mp4" "videos/old/a.mp4" "" "" "unprocessed" 4096;
       Video.mk "link.mp4" "videos/old/link.mp4" "" "" "unprocessed" 0].
Proof. reflexivity. Qed.

(** A directory that cannot be read, however deep, fails the request. *)
Example scenario_unreadable :
  getUnprocessedVideos demo_server
    (Dir [("videos", Dir [("a.mp4", File 10); ("private", Unreadable)])])
  = StatusInternalServerError (FsError "videos/private").
Proof. reflexivity. Qed.
