(* ===== verification/System.v ===== *)
(** * The server as a whole: routes, requests and runs

    [main] ([src/backend/main.go], lines 294-316) initialises the database
    and the cache with [initDB] and registers the four handlers (lines
    310-313). This file puts the handlers of the other files behind the
    router and lets the server run: a _world_ is the state of the server
    with the file system it sees, a _step_ is one request served, a change
    of the connection to the database, or a change of the files; a _run_ is
    a sequence of steps.

    The theorems are about runs: what holds in every state the server can
    reach, and how requests served at different times relate. The server is
    the only writer of the table. *)

From S2P Require Import Prelude GoInt Sql Store QueueView Cache Handlers.
From S2P Require Import Paths Discovery.

#[local] Open Scope Z_scope.

(** ** Routes *)

Inductive method : Type := GET | POST | PUT | PATCH | DELETE | OPTIONS.

#[export] Instance method_eq_dec : EqDecision method.
Proof. solve_decision. Defined.

(** The handler a route names, with the value of its parameter. *)
Inductive handler : Type :=
| UnprocessedVideos
| Queue
| Process
| VideoStatus (id : string).

#[export] Instance handler_eq_dec : EqDecision handler.
Proof. solve_decision. Defined.

(** The four routes (lines 310-313). A path is matched element by element;
    the parameter [:id] matches one element, which the router does not
    require to hold a character: [/api/videos//status] reaches the handler
    with an empty id. [None] is a request that no handler of the program
    serves. *)
Definition route (m : method) (path : string) : option handler :=
  let elements := split_sep path in
  match m with
  | GET =>
      if decide (elements = [""; "api"; "videos"; "unprocessed"])
      then Some UnprocessedVideos
      else if decide (elements = [""; "api"; "queue"]) then Some Queue
      else None
  | POST =>
      if decide (elements = [""; "api"; "videos"; "process"])
      then Some Process else None
  | PATCH =>
      match elements with
      | [root; api; videos; id; status] =>
          if decide (root = "" ∧ api = "api" ∧ videos = "videos"
                     ∧ status = "status")
          then Some (VideoStatus id) else None
      | _ => None
      end
  | _ => None
  end.

(** ** Requests and replies *)

(** A request as the handlers read it: method and path, and what the
    framework binds from the query string and from the body, [None] where
    binding fails. *)
Record request : Type := mkRequest {
  req_method : method;
  req_path : string;
  req_query : option PaginationParams.t;
  req_video : option Video.t;
  req_status : option string;
}.

Inductive reply : Type :=
| Videos (r : response walk_error (list Video.t))
| QueuePage (r : option (response db_error QueueBody))
| Enqueued (r : response db_error Video.t)
| Updated (r : response db_error string)
| NoRoute.

(** One request served: the router, then the handler. *)
Definition handle `{QueryEngine} (s : Server) (cwd : node) (req : request) :
    Server * reply :=
  match route (req_method req) (req_path req) with
  | Some UnprocessedVideos => (s, Videos (getUnprocessedVideos s cwd))
  | Some Queue => (s, QueuePage (getQueue (db s) (req_query req)))
  | Some Process =>
      let '(s', r) := addToQueue s (req_video req) in (s', Enqueued r)
  | Some (VideoStatus id) =>
      let '(s', r) := updateVideoStatus s id (req_status req) in (s', Updated r)
  | None => (s, NoRoute)
  end.

(** The requests a client of the interface sends. *)
Definition get_unprocessed : request :=
  mkRequest GET "/api/videos/unprocessed" None None None.

Definition get_queue (params : PaginationParams.t) : request :=
  mkRequest GET "/api/queue" (Some params) None None.

Definition post_process (video : Video.t) : request :=
  mkRequest POST "/api/videos/process" None (Some video) None.

Definition patch_status (id status : string) : request :=
  mkRequest PATCH ("/api/videos/" +:+ id +:+ "/status") None None (Some status).

(** ** Worlds, steps and runs *)

Record world : Type := mkWorld {
  server : Server;
  files : node;
}.

(** The connection to the database comes and goes. *)
Definition set_up (s : Server) (up : bool) : Server :=
  mkServer (mkDB up (db_videos (db s))) (processedPaths s).

(** What happens to a running server. *)
Inductive input : Type :=
| Receive (req : request)
| Connectivity (up : bool)
| Files (cwd : node).

(** An input with the reply it got, if it was a request. *)
Inductive event : Type :=
| Served (req : request) (rep : reply)
| Connected (up : bool)
| Changed (cwd : node).

Definition next `{QueryEngine} (w : world) (i : input) : world * event :=
  match i with
  | Receive req =>
      let '(s', rep) := handle (server w) (files w) req in
      (mkWorld s' (files w), Served req rep)
  | Connectivity up => (mkWorld (set_up (server w) up) (files w), Connected up)
  | Files cwd => (mkWorld (server w) cwd, Changed cwd)
  end.

(** The server run on a sequence of inputs: the events and the last world. *)
Fixpoint exec `{QueryEngine} (w : world) (inputs : list input) :
    list event * world :=
  match inputs with
  | [] => ([], w)
  | i :: inputs' =>
      let '(w1, ev) := next w i in
      let '(evs, w') := exec w1 inputs' in
      (ev :: evs, w')
  end.

Section runs.
Context `{QueryEngine}.

Inductive step : world → event → world → Prop :=
| step_served w req s' rep :
    handle (server w) (files w) req = (s', rep) →
    step w (Served req rep) (mkWorld s' (files w))
| step_connected w up :
    step w (Connected up) (mkWorld (set_up (server w) up) (files w))
| step_changed w cwd :
    step w (Changed cwd) (mkWorld (server w) cwd).

Inductive run : world → list event → world → Prop :=
| run_nil w : run w [] w
| run_cons w ev w1 evs w' :
    step w ev w1 → run w1 evs w' → run w (ev :: evs) w'.

(** [main]: the world after [initDB], if the process is not ended. *)
Definition main (d : DB) (cwd : node) : option world :=
  s ← initDB d; Some (mkWorld s cwd).

(** The worlds a server started on a database with a sound table can be
    in. *)
Definition reachable (w : world) : Prop :=
  ∃ d cwd w0 evs, db_wf d ∧ main d cwd = Some w0 ∧ run w0 evs w.
End runs.

(** ** Reference definitions *)

(** The rows of the table of a server, and of a world. *)
Definition rows (s : Server) : list row := default [] (db_videos (db s)).

Definition table (w : world) : list row := rows (server w).

(** The input of an event. *)
Definition input_of (ev : event) : input :=
  match ev with
  | Served req _ => Receive req
  | Connected up => Connectivity up
  | Changed cwd => Files cwd
  end.

(** The identity of a row: what no request changes. *)
Definition row_key (r : row) : string * string := (row_id r, row_path r).

(** The status a status update of the trace sends, if the event is one. *)
Definition status_sent (ev : event) : option string :=
  match ev with
  | Served req (Updated _) => req_status req
  | _ => None
  end.

(** A trace whose status updates send recognised statuses only. *)
Definition polite (evs : list event) : Prop :=
  Forall (λ ev, from_option recognised True (status_sent ev)) evs.

(** A table as the interface leaves it when used as meant. *)
Definition clean_table (t : list row) : Prop :=
  no_nulls t ∧ Forall (λ r, recognised (row_status r)) t.

(** An example world: the example table, the example tree. *)
Definition demo_world : world := mkWorld demo_server demo_fs.

(** What a step does to the server: nothing, a change of the connection,
    one row appended with its path cached, or the status of the rows of an
    id replaced. *)
Inductive change (s : Server) : event → Server → Prop :=
| change_none ev : change s ev s
| change_connected up : change s (Connected up) (set_up s up)
| change_added req video t :
    req_video req = Some video →
    table_of (db s) = Ok t → Video.ID video ∉ row_id <$> t →
    change s (Served req (Enqueued (StatusOK video)))
      (mkServer (set_table (db s) (t ++ [pending_row video]))
                (cache_add (processedPaths s) (Video.Path video)))
| change_updated req id status t :
    req_status req = Some status →
    route (req_method req) (req_path req) = Some (VideoStatus id) →
    table_of (db s) = Ok t →
    change s (Served req (Updated (StatusOK "updated")))
      (mkServer (set_table (db s) (set_status status id <$> t))
                (processedPaths s)).

(** ** Routes *)

Section routes.
Implicit Types (id : string).

Lemma split_sep_status_path id :
  sep_free id →
  split_sep ("/api/videos/" +:+ id +:+ "/status")
  = [""; "api"; "videos"; id; "status"].
Proof.
  intros Hid.
  change ("/api/videos/" +:+ id +:+ "/status")
    with ("" +:+ "/" +:+ "api" +:+ "/" +:+ "videos" +:+ "/" +:+ id
             +:+ "/" +:+ "status").
  rewrite !split_sep_app, (split_sep_sep_free id) by done. done.
Qed.

Lemma route_patch_status id :
  sep_free id →
  route PATCH ("/api/videos/" +:+ id +:+ "/status") = Some (VideoStatus id).
Proof.
  intros Hid. unfold route. rewrite split_sep_status_path by done.
  by rewrite decide_True.
Qed.

(** Only [PATCH] reaches the status handler. *)
Lemma route_status_id m path id :
  route m path = Some (VideoStatus id) → m = PATCH.
Proof.
  unfold route. destruct m; try done; by repeat case_decide.
Qed.
End routes.

(** ** Steps *)

Section steps.
Context `{QueryEngine}.
Implicit Types (w : world) (s : Server) (ev : event) (evs : list event).

Lemma handle_change s cwd req s' rep :
  handle s cwd req = (s', rep) → change s (Served req rep) s'.
Proof.
  unfold handle. destruct (route _ _) as [[| | |id]|] eqn:Er;
    try (intros [= <- <-]; constructor).
  - destruct (addToQueue s (req_video req)) as [s1 r] eqn:E. intros [= <- <-].
    apply addToQueue_unchanged_or_added in E
      as [->|(video & t & ? & -> & ? & ? & ->)]; by econstructor.
  - destruct (updateVideoStatus s id (req_status req)) as [s1 r] eqn:E.
    intros [= <- <-].
    apply updateVideoStatus_unchanged_or_updated in E
      as [->|(status & t & ? & -> & ? & ->)]; by econstructor.
Qed.

Lemma step_change w ev w' : step w ev w' → change (server w) ev (server w').
Proof.
  destruct 1; simpl; [by eapply handle_change|constructor..].
Qed.

Lemma run_app w evs1 evs2 w' :
  run w (evs1 ++ evs2) w' ↔ ∃ w1, run w evs1 w1 ∧ run w1 evs2 w'.
Proof.
  revert w. induction evs1 as [|ev evs1 IH]; intros w; simpl.
  - split; [intros; eexists; split; [constructor|done]|].
    by intros (w1 & Hr & ?); inversion Hr; subst.
  - split.
    + inversion 1 as [|? ? w1 ? ? Hs Hr]; subst.
      apply IH in Hr as (w2 & ? & ?). exists w2. split; [by econstructor|done].
    + intros (w1 & Hr & ?). inversion Hr; subst. econstructor; [done|].
      apply IH. eauto.
Qed.

Lemma run_singleton w ev w' : run w [ev] w' ↔ step w ev w'.
Proof.
  split.
  - inversion 1 as [|? ? ? ? ? ? Hr]; subst. by inversion Hr; subst.
  - intros. econstructor; [done|constructor].
Qed.

(** A relation on servers that every change respects holds along runs. *)
Lemma run_relates (R : Server → Server → Prop) `{!PreOrder R} w evs w' :
  (∀ s ev s', change s ev s' → R s s') →
  run w evs w' → R (server w) (server w').
Proof.
  intros HR. induction 1 as [|w ev w1 evs w' Hs _ IH]; [done|].
  etrans; [|done]. by eapply HR, step_change.
Qed.

(** The server is total and deterministic: a sequence of inputs has one
    run. *)
Lemma next_step w i : step w (next w i).2 (next w i).1.
Proof.
  destruct i as [req|up|cwd]; simpl; [|constructor..].
  destruct (handle _ _ req) as [s' rep] eqn:E. by constructor.
Qed.

Lemma exec_run w inputs : run w (exec w inputs).1 (exec w inputs).2.
Proof.
  revert w. induction inputs as [|i inputs IH]; intros w; simpl; [constructor|].
  pose proof (next_step w i) as Hs. destruct (next w i) as [w1 ev].
  specialize (IH w1). destruct (exec w1 inputs) as [evs w'].
  by econstructor.
Qed.
End steps.

(** ** What a change does to the table and to the cache *)

Section effects.
Implicit Types (s : Server) (ev : event) (t : list row) (p : string).

Lemma rows_table_of s t : table_of (db s) = Ok t → rows s = t.
Proof. intros [_ Ht]%table_of_Ok. unfold rows. by rewrite Ht. Qed.

Lemma stored_paths_rows s : stored_paths s = row_path <$> rows s.
Proof. done. Qed.

(** The three effects of a change: none, an insert, an update. *)
Lemma change_effect s ev s' :
  change s ev s' →
  (rows s' = rows s ∧ processedPaths s' = processedPaths s)
  ∨ (∃ req video,
       ev = Served req (Enqueued (StatusOK video))
       ∧ rows s' = rows s ++ [pending_row video]
       ∧ (Video.ID video ∉ row_id <$> rows s)
       ∧ processedPaths s' = cache_add (processedPaths s) (Video.Path video))
  ∨ (∃ id status,
       status_sent ev = Some status
       ∧ rows s' = set_status status id <$> rows s
       ∧ processedPaths s' = processedPaths s).
Proof.
  destruct 1 as [ev|up|req video t Hv Ht Hid|req id status t Hs Hr Ht].
  - by left.
  - by left.
  - right; left. exists req, video. by rewrite (rows_table_of s t).
  - right; right. exists id, status. by rewrite (rows_table_of s t).
Qed.

Lemma change_has_table s ev s' :
  change s ev s' → is_Some (db_videos (db s)) → is_Some (db_videos (db s')).
Proof. destruct 1; simpl; eauto. Qed.

Lemma change_inv s ev s' : change s ev s' → server_inv s → server_inv s'.
Proof.
  destruct 1; intros Hinv; [done|by destruct Hinv|auto with vq..].
Qed.

Lemma change_exact s ev s' : change s ev s' → cache_exact s → cache_exact s'.
Proof.
  intros Hc Hex p. specialize (Hex p). rewrite stored_paths_rows in *.
  destruct (change_effect s ev s' Hc)
    as [[-> ->]|[(req & video & _ & -> & _ & ->)|(id & st & _ & -> & ->)]].
  - done.
  - rewrite cache_get_add, fmap_app, elem_of_app, <-Hex. simpl.
    rewrite list_elem_of_singleton. case_decide; naive_solver.
  - by rewrite set_status_paths.
Qed.

(** The cache only grows. *)
Lemma change_cache_mono s ev s' p :
  change s ev s' →
  cache_get (processedPaths s) p = true → cache_get (processedPaths s') p = true.
Proof.
  intros Hc Hp.
  destruct (change_effect s ev s' Hc)
    as [[_ ->]|[(req & video & _ & _ & _ & ->)|(id & st & _ & _ & ->)]];
    [done| |done].
  rewrite cache_get_add. by case_decide.
Qed.

(** Rows are only appended, and keep their id and path. *)
Lemma change_keys s ev s' :
  change s ev s' → (row_key <$> rows s) `prefix_of` (row_key <$> rows s').
Proof.
  intros Hc.
  destruct (change_effect s ev s' Hc)
    as [[-> _]|[(req & video & _ & -> & _)|(id & st & _ & -> & _)]].
  - done.
  - rewrite fmap_app. by apply prefix_app_r.
  - rewrite <-list_fmap_compose.
    erewrite list_fmap_ext; [done|]. intros i r _. unfold row_key. simpl.
    by rewrite set_status_id, set_status_path.
Qed.

(** A polite change keeps the table clean. *)
Lemma change_clean s ev s' :
  change s ev s' → from_option recognised True (status_sent ev) →
  clean_table (rows s) → clean_table (rows s').
Proof.
  intros Hc Hp [Hnn Hrec].
  destruct (change_effect s ev s' Hc)
    as [[-> _]|[(req & video & _ & -> & _)|(id & st & E & -> & _)]].
  - done.
  - split; [by apply no_nulls_insert|].
    apply Forall_app. split; [done|]. repeat constructor.
  - rewrite E in Hp. split; [by apply no_nulls_set_status|].
    rewrite Forall_fmap. eapply Forall_impl; [done|]. intros r Hr. simpl.
    rewrite set_status_status. by case_decide.
Qed.
End effects.

(** ** Runs *)

Section run_lemmas.
Context `{QueryEngine}.
Implicit Types (w : world) (ev : event) (evs : list event) (p : string).

#[local] Instance cache_mono_preorder :
  PreOrder (λ s s' : Server, ∀ p, cache_get (processedPaths s) p = true →
                                  cache_get (processedPaths s') p = true).
Proof. split; [by intros s p|intros s1 s2 s3 H12 H23 p ?; auto]. Qed.

#[local] Instance keys_preorder :
  PreOrder (λ s s' : Server,
              (row_key <$> rows s) `prefix_of` (row_key <$> rows s')).
Proof. split; [by intros s|intros s1 s2 s3 ? ?; by etrans]. Qed.

#[local] Instance implies_preorder (P : Server → Prop) :
  PreOrder (λ s s' : Server, P s → P s').
Proof. split; [by intros s|intros s1 s2 s3 H12 H23 ?; auto]. Qed.

Lemma run_cache_mono w evs w' p :
  run w evs w' →
  cache_get (processedPaths (server w)) p = true →
  cache_get (processedPaths (server w')) p = true.
Proof.
  intros Hr. revert p.
  apply (run_relates (λ s s', ∀ p, cache_get (processedPaths s) p = true →
                                   cache_get (processedPaths s') p = true)
           w evs w'); [|done].
  intros s ev s' Hc p. by apply (change_cache_mono s ev).
Qed.

Lemma run_keys w evs w' :
  run w evs w' → (row_key <$> table w) `prefix_of` (row_key <$> table w').
Proof.
  apply (run_relates (λ s s', (row_key <$> rows s) `prefix_of`
                              (row_key <$> rows s'))).
  apply change_keys.
Qed.

Lemma run_inv w evs w' :
  run w evs w' → server_inv (server w) ∧ cache_exact (server w) →
  server_inv (server w') ∧ cache_exact (server w').
Proof.
  apply (run_relates (λ s s', server_inv s ∧ cache_exact s →
                              server_inv s' ∧ cache_exact s')).
  intros s ev s' Hc [? ?]. split; [by eapply change_inv|by eapply change_exact].
Qed.

Lemma run_clean w evs w' :
  run w evs w' → polite evs → clean_table (table w) → clean_table (table w').
Proof.
  induction 1 as [|w ev w1 evs w' Hs _ IH]; [done|].
  intros [Hev Hevs]%Forall_cons Hc. apply IH; [done|].
  by eapply change_clean; [apply step_change|..].
Qed.

(** The ids of the table stay. *)
Lemma run_ids w evs w' id :
  run w evs w' → id ∈ row_id <$> table w → id ∈ row_id <$> table w'.
Proof.
  intros [k Hk]%run_keys Hid.
  assert (∀ t, row_id <$> t = (row_key <$> t).*1) as Hfst
    by (intros t; by rewrite <-list_fmap_compose).
  rewrite Hfst, Hk, fmap_app, elem_of_app, <-Hfst. by left.
Qed.

Lemma main_Some d cwd w :
  main d cwd = Some w ↔ ∃ s, initDB d = Some s ∧ w = mkWorld s cwd.
Proof.
  unfold main. destruct (initDB d) as [s|]; simpl; [|naive_solver].
  split; [intros [= <-]; eauto|by intros (s' & [= <-] & ->)].
Qed.

Lemma reachable_server_inv w :
  reachable w → server_inv (server w) ∧ cache_exact (server w).
Proof.
  intros (d & cwd & w0 & evs & Hwf & (s & Hs & ->)%main_Some & Hr).
  eapply run_inv; [done|]. by apply initDB_inv with d.
Qed.

(** Handlers behind the router. *)
Lemma handle_post_process s cwd video :
  handle s cwd (post_process video)
  = ((addToQueue s (Some video)).1, Enqueued (addToQueue s (Some video)).2).
Proof.
  unfold handle. change (route _ _) with (Some Process).
  cbn [post_process req_video]. by destruct (addToQueue s (Some video)).
Qed.

Lemma handle_get_unprocessed s cwd :
  handle s cwd get_unprocessed = (s, Videos (getUnprocessedVideos s cwd)).
Proof. done. Qed.

Lemma handle_get_queue s cwd params :
  handle s cwd (get_queue params)
  = (s, QueuePage (getQueue (db s) (Some params))).
Proof. done. Qed.

(** A reply of the discovery handler is the handler's response on the
    state of the step. *)
Lemma step_videos w req r w' :
  step w (Served req (Videos r)) w' →
  r = getUnprocessedVideos (server w) (files w).
Proof.
  inversion 1 as [? ? s' ? Hh| |]; subst. unfold handle in Hh.
  destruct (route _ _) as [[| | |id]|]; simplify_eq/=; [done|..].
  - by destruct (addToQueue _ _).
  - by destruct (updateVideoStatus _ _ _).
Qed.

(** A successful reply of the enqueue handler: the request carried the
    video, and the next state holds its path in the cache. *)
Lemma step_enqueued w req video w' :
  step w (Served req (Enqueued (StatusOK video))) w' →
  req_video req = Some video
  ∧ addToQueue (server w) (Some video) = (server w', StatusOK video).
Proof.
  inversion 1 as [? ? s' ? Hh| |]; subst. unfold handle in Hh.
  destruct (route _ _) as [[| | |id]|]; simplify_eq/=.
  - destruct (req_video req) as [v|] eqn:Ev; [|done].
    destruct (addToQueue _ _) as [s1 r] eqn:E. simplify_eq/=.
    pose proof E as (t & _ & _ & -> & _)%addToQueue_Ok. done.
  - by destruct (updateVideoStatus _ _ _).
Qed.
End run_lemmas.

(** ** Theorems *)

Section theorems.
Context `{QueryEngine}.
Implicit Types (w : world) (ev : event) (evs : list event).

(** C3. Dedup invariant: once a video is enqueued with success, no later
    discovery lists its path, whatever happens in between and whatever the
    directory then holds. *)
Theorem dedup_invariant w evs1 req1 video evs2 req2 videos evs3 w' :
  run w (evs1 ++ Served req1 (Enqueued (StatusOK video)) :: evs2
              ++ Served req2 (Videos (StatusOK videos)) :: evs3) w' →
  Video.Path video ∉ Video.Path <$> videos.
Proof.
  intros (w1 & _ & Hr)%run_app.
  inversion Hr as [|? ? w2 ? ? Hs1 Hr2]; subst.
  apply run_app in Hr2 as (w3 & Hr2 & Hr3).
  inversion Hr3 as [|? ? w4 ? ? Hs2 _]; subst.
  apply step_enqueued in Hs1 as [_ (t & _ & _ & _ & Hw2)%addToQueue_Ok].
  apply step_videos in Hs2. symmetry in Hs2.
  eapply cached_not_discovered; [|done].
  eapply run_cache_mono; [done|]. rewrite Hw2. simpl.
  rewrite cache_get_add. by rewrite decide_True.
Qed.

(** C8. In every state the server reaches from a table that respects its
    primary key, the table exists and respects the key, and the cache holds
    exactly the paths of the table: a path reads [true] if and only if a
    row has it. *)
Theorem reachable_consistent w :
  reachable w →
  is_Some (db_videos (db (server w)))
  ∧ ids_unique (table w)
  ∧ cache_wf (processedPaths (server w))
  ∧ ∀ p, cache_get (processedPaths (server w)) p = true
         ↔ p ∈ row_path <$> table w.
Proof. intros [[? ? ? ?] ?]%reachable_server_inv. by split_and!. Qed.

(** C28. The table is append-only and the identity of a row is immutable:
    along any run the ids and paths of the rows at the start are, in order,
    the ids and paths of the first rows at the end. No request deletes a
    row, moves it, or changes its id or its path. *)
Theorem table_append_only w evs w' :
  run w evs w' → (row_key <$> table w) `prefix_of` (row_key <$> table w').
Proof. apply run_keys. Qed.

(** C29. If the table held no NULL and recognised statuses only when the
    server started, and every status update since sent a recognised status,
    then no row is hidden from the queue view: the pages of [getQueue]
    show every selected row exactly once. *)
Theorem polite_run_pages_tile w evs w' params :
  run w evs w' → polite evs → clean_table (table w) →
  db_up (db (server w')) = true → is_Some (db_videos (db (server w'))) →
  table_fits (table w') →
  quote_free (PaginationParams.Status params) = true → valid_params params →
  concat ((λ i, response_videos
                  (getQueue (db (server w'))
                     (Some (with_page params (Z.of_nat i + 1)))))
            <$> seq 0 (page_requests (table w') params))
  = video_of_row <$> selected (PaginationParams.Status params) (table w').
Proof.
  intros Hr Hp Hc Hup [t Ht] Hfit Hq Hv.
  destruct (run_clean w evs w' Hr Hp Hc) as [Hnn Hrec].
  apply getQueue_tile; try done.
  apply table_of_Ok. split; [done|]. unfold table, rows. by rewrite Ht.
Qed.

(** C31. An id that is stored blocks every later enqueue under it: the
    answer is 500 and the state does not change. A file that shares its
    name with a stored one, and so its id, cannot be enqueued as it was
    discovered. *)
Theorem taken_id_blocks_enqueue w evs w' video :
  run w evs w' → Video.ID video ∈ row_id <$> table w →
  ∃ e, handle (server w') (files w') (post_process video)
       = (server w', Enqueued (StatusInternalServerError e)).
Proof.
  intros Hr Hid%(run_ids w evs w' _ Hr). rewrite handle_post_process.
  destruct (table_of (db (server w'))) as [t|e] eqn:Et.
  - exists UniqueViolation.
    rewrite (proj2 (addToQueue_Err (server w') video (server w') UniqueViolation));
      [done|].
    split; [done|]. right. exists t. split_and!; [done| |done].
    by rewrite <-(rows_table_of _ t Et).
  - exists e.
    rewrite (proj2 (addToQueue_Err (server w') video (server w') e)); [done|].
    split; [done|]. by left.
Qed.

(** C30. An enqueued video is listed: after a successful enqueue into a
    clean table, some page of the pending queue shows the video, with the
    fields of the request and the status ["pending"], in the pending
    bucket. *)
Theorem enqueued_video_listed w req video w' pageSize :
  step w (Served req (Enqueued (StatusOK video))) w' →
  clean_table (table w) → table_fits (table w') → 1 ≤ pageSize ≤ 100 →
  ∃ i body,
    handle (server w') (files w')
      (get_queue (PaginationParams.mk i pageSize "pending"))
    = (server w', QueuePage (Some (StatusOK body)))
    ∧ video_of_row (pending_row video) ∈ VideoQueue.Pending (queue body).
Proof.
  intros Hs Hc Hfit Hps. pose proof Hs as Hs'.
  apply step_enqueued in Hs as [_ (t & Ht & _ & _ & Hw')%addToQueue_Ok].
  assert (table w = t) as Hwt by by apply rows_table_of.
  assert (table w' = t ++ [pending_row video]) as Hw't
    by (unfold table; by rewrite Hw').
  assert (table_of (db (server w')) = Ok (table w')) as Ht'.
  { rewrite Hw't, Hw'. apply table_of_Ok in Ht as [Hup _].
    by apply table_of_set_table. }
  destruct (change_clean _ _ _ (step_change _ _ _ Hs') I Hc) as [Hnn Hrec].
  set (params := PaginationParams.mk 1 pageSize "pending").
  pose proof (getQueue_tile _ _ params Ht' Hfit Hnn Hrec eq_refl) as Htile.
  assert (video_of_row (pending_row video)
          ∈ video_of_row <$> selected (PaginationParams.Status params)
                               (table w')) as Hin.
  { apply list_elem_of_fmap. exists (pending_row video). split; [done|].
    apply selected_elem. rewrite Hw't. split; [|done].
    apply elem_of_app. right. by left. }
  rewrite <-Htile in Hin by (split; simpl; lia).
  apply elem_of_concat in Hin as (l & (i & -> & _)%list_elem_of_fmap & Hin).
  change (with_page params (Z.of_nat i + 1))
    with (PaginationParams.mk (Z.of_nat i + 1) pageSize "pending") in Hin.
  destruct (getQueue (db (server w')) _) as [[body| |e]|] eqn:Eg;
    try (by apply elem_of_nil in Hin).
  exists (Z.of_nat i + 1), body. rewrite handle_get_queue, Eg. split; [done|].
  by eapply getQueue_pending_bucket.
Qed.

(** The server is total and deterministic: every sequence of inputs
    has a run, the one [exec] computes, and no other. *)
Theorem run_exec_iff w evs w' :
  run w evs w' ↔ exec w (input_of <$> evs) = (evs, w').
Proof.
  split.
  - induction 1 as [|w ev w1 evs w' Hs _ IH]; [done|].
    assert (next w (input_of ev) = (w1, ev)) as Hn.
    { destruct Hs as [w req s' rep Hh| |]; simpl; [|done..]. by rewrite Hh. }
    rewrite fmap_cons. cbn [exec]. by rewrite Hn, IH.
  - intros He. pose proof (exec_run w (input_of <$> evs)) as Hr.
    by rewrite He in Hr.
Qed.
End theorems.

(** ** Example runs *)

#[export] Instance clean_table_dec t : Decision (clean_table t).
Proof. unfold clean_table. apply _. Defined.

(** A run computed by [exec] is a run. *)
Lemma exec_run_eq `{QueryEngine} w inputs evs w' :
  exec w inputs = (evs, w') → run w evs w'.
Proof.
  intros He. pose proof (exec_run w inputs) as Hr. by rewrite He in Hr.
Qed.

(** The world after the example video is enqueued in the example world. *)
Definition demo_enqueued : world :=
  mkWorld (addToQueue demo_server (Some demo_video)).1 demo_fs.

Lemma demo_step :
  @step merge_engine demo_world
    (Served (post_process demo_video) (Enqueued (StatusOK demo_video)))
    demo_enqueued.
Proof. apply (@step_served merge_engine demo_world). reflexivity. Qed.

Lemma demo_reachable : @reachable merge_engine demo_world.
Proof.
  exists demo_db, demo_fs, demo_world, [].
  split_and!; [|reflexivity|constructor].
  apply (bool_decide_unpack _). vm_compute. exact I.
Qed.

Lemma dedup_invariant_witness :
  Video.Path demo_video
  ∉ Video.Path <$>
      [Video.mk "a.mp4" "videos/old/a.mp4" "" "" "unprocessed" 4096;
       Video.mk "link.mp4" "videos/old/link.mp4" "" "" "unprocessed" 0].
Proof.
  apply (@dedup_invariant merge_engine demo_world []
           (post_process demo_video) demo_video [] get_unprocessed _ []
           demo_enqueued).
  apply (exec_run_eq demo_world
           [Receive (post_process demo_video); Receive get_unprocessed]).
  vm_compute. reflexivity.
Defined.

Lemma reachable_consistent_witness :
  is_Some (db_videos (db (server demo_world)))
  ∧ ids_unique (table demo_world)
  ∧ cache_wf (processedPaths (server demo_world))
  ∧ ∀ p, cache_get (processedPaths (server demo_world)) p = true
         ↔ p ∈ row_path <$> table demo_world.
Proof. apply (@reachable_consistent merge_engine), demo_reachable. Defined.

Lemma table_append_only_witness :
  (row_key <$> table demo_world) `prefix_of` (row_key <$> table demo_enqueued).
Proof.
  apply (@table_append_only merge_engine demo_world
           [Served (post_process demo_video) (Enqueued (StatusOK demo_video))]).
  apply run_singleton, demo_step.
Defined.

Lemma polite_run_pages_tile_witness :
  concat ((λ i, response_videos
                  (getQueue (db (server demo_enqueued))
                     (Some (with_page demo_params (Z.of_nat i + 1)))))
            <$> seq 0 (page_requests (table demo_enqueued) demo_params))
  = video_of_row <$> selected (PaginationParams.Status demo_params)
                       (table demo_enqueued).
Proof.
  apply (@polite_run_pages_tile merge_engine demo_world
           [Served (post_process demo_video) (Enqueued (StatusOK demo_video))]
           demo_enqueued demo_params).
  - apply run_singleton, demo_step.
  - by repeat constructor.
  - apply (bool_decide_unpack _). vm_compute. exact I.
  - reflexivity.
  - by eexists.
  - unfold table_fits. vm_compute. congruence.
  - reflexivity.
  - apply (bool_decide_unpack _). vm_compute. exact I.
Defined.

Lemma taken_id_blocks_enqueue_witness :
  ∃ e, @handle merge_engine (server demo_enqueued) (files demo_enqueued)
         (post_process demo_twin)
       = (server demo_enqueued, Enqueued (StatusInternalServerError e)).
Proof.
  apply (@taken_id_blocks_enqueue merge_engine demo_world
           [Served (post_process demo_video) (Enqueued (StatusOK demo_video))]
           demo_enqueued demo_twin).
  - apply run_singleton, demo_step.
  - apply (bool_decide_unpack _). vm_compute. exact I.
Defined.

Lemma enqueued_video_listed_witness :
  ∃ i body,
    @handle merge_engine (server demo_enqueued) (files demo_enqueued)
      (get_queue (PaginationParams.mk i 2 "pending"))
    = (server demo_enqueued, QueuePage (Some (StatusOK body)))
    ∧ video_of_row (pending_row demo_video) ∈ VideoQueue.Pending (queue body).
Proof.
  apply (@enqueued_video_listed merge_engine demo_world
           (post_process demo_video) demo_video demo_enqueued 2).
  - apply demo_step.
  - apply (bool_decide_unpack _). vm_compute. exact I.
  - unfold table_fits. vm_compute. congruence.
  - lia.
Defined.

(** The path of a row is not a key: a state with two rows of the same
    path is reachable, by enqueueing a stored path under a fresh id. *)
Theorem duplicate_path_reachable :
  ∃ w, @reachable merge_engine w ∧ ¬ NoDup (row_path <$> table w).
Proof.
  exists (mkWorld (addToQueue demo_server (Some demo_alias)).1 demo_fs). split.
  - exists demo_db, demo_fs, demo_world,
      [Served (post_process demo_alias) (Enqueued (StatusOK demo_alias))].
    split_and!; [|reflexivity|].
    + apply (bool_decide_unpack _). vm_compute. exact I.
    + apply run_singleton, (@step_served merge_engine demo_world). reflexivity.
  - apply (bool_decide_unpack _). vm_compute. exact I.
Qed.

(** A session: the twin of a stored file is discovered, cannot be enqueued
    under its id, and is discovered again; a status the view does not know
    hides a row that the total still counts. *)
Example scenario_session :
  let inputs :=
    [Receive get_unprocessed; Receive (post_process demo_twin);
     Receive get_unprocessed; Receive (patch_status "b.mp4" "failed");
     Receive (get_queue (PaginationParams.mk 1 10 ""))] in
  let twin := Video.mk "a.mp4" "videos/old/a.mp4" "" "" "unprocessed" 4096 in
  let link := Video.mk "link.mp4" "videos/old/link.mp4" "" "" "unprocessed" 0 in
  ∃ body w',
    @exec merge_engine demo_world inputs
    = ([Served get_unprocessed (Videos (StatusOK [twin; link]));
        Served (post_process demo_twin)
          (Enqueued (StatusInternalServerError UniqueViolation));
        Served get_unprocessed (Videos (StatusOK [twin; link]));
        Served (patch_status "b.mp4" "failed") (Updated (StatusOK "updated"));
        Served (get_queue (PaginationParams.mk 1 10 ""))
          (QueuePage (Some (StatusOK body)))], w')
    ∧ Video.ID <$> queue_videos (queue body)
      = ["d.mp4"; "e.mp4"; "c.mp4"; "f.mp4"; "a.mp4"]
    ∧ total (pagination body) = 6.
Proof. vm_compute. eexists _, _. done. Qed.
