(* ===== verification/Wire.v ===== *)
(** * The server on the wire: CORS, binding, handler, encoding

    [main] ([src/backend/main.go], lines 299-315) builds the engine with
    [gin.Default()], installs the CORS middleware with the configuration of
    lines 302-305 and registers the four routes. A request therefore passes
    the middleware, then the router, then the binding of the handler it
    reaches, and the reply of the handler is written as a status code with
    a JSON body.

    File [System] starts from bound requests. This file adds the two ends:
    [receive] binds the query and the body of an HTTP request ([Binding]),
    [respond] encodes a reply, [applyCors] is the middleware, and [serve]
    is their composition around [handle].

    The text of an error message is not modelled: [message] is a parameter
    of the section, and every error body is [{"error": message ...}]. *)

From S2P Require Import Prelude GoInt Decimal Sql Store QueueView Binding.
From S2P Require Import Cache Handlers Paths Discovery System.

#[local] Open Scope Z_scope.

(** ** Requests and responses *)

Record http_request : Type := mkHttp {
  h_method : method;
  h_path : string;
  h_origin : option string;     (* the header Origin *)
  h_host : string;              (* the header Host *)
  h_query : form;
  h_body : option json;
}.

(** The headers the middleware adds. *)
Inductive header : Type :=
| AllowOrigin (origin : string)
| AllowMethods (methods : list method)
| AllowHeaders (names : list string)
| MaxAge (seconds : Z)
| Location (path : string).

Record http_response : Type := mkResponse {
  code : Z;
  headers : list header;
  payload : option json;
}.

(** ** The CORS middleware *)

Record cors_config : Type := mkCors {
  cfg_AllowOrigins : list string;
  cfg_AllowMethods : list method;
  cfg_AllowHeaders : list string;
  cfg_MaxAge : Z;
}.

(** The configuration of the program (lines 302-305) over
    [cors.DefaultConfig()], whose [MaxAge] is twelve hours. *)
Definition config : cors_config :=
  mkCors ["*"] [GET; POST; PUT; PATCH; DELETE; OPTIONS]
         ["Origin"; "Content-Type"] 43200.

Inductive cors_outcome : Type :=
| NotCors                             (* the request goes on unchanged *)
| Forbidden                           (* 403, the request goes no further *)
| Preflight (hs : list header)        (* 204, the request goes no further *)
| Normal (hs : list header).          (* the request goes on, headers added *)

Definition allow_all (cfg : cors_config) : bool :=
  bool_decide ("*" ∈ cfg_AllowOrigins cfg).

Definition origin_valid (cfg : cors_config) (origin : string) : bool :=
  allow_all cfg || bool_decide (origin ∈ cfg_AllowOrigins cfg).

Definition normal_headers (cfg : cors_config) (origin : string) : list header :=
  [AllowOrigin (if allow_all cfg then "*" else origin)].

Definition preflight_headers (cfg : cors_config) (origin : string) :
    list header :=
  [AllowMethods (cfg_AllowMethods cfg); AllowHeaders (cfg_AllowHeaders cfg);
   MaxAge (cfg_MaxAge cfg); AllowOrigin (if allow_all cfg then "*" else origin)].

(** [applyCors] of the middleware: a request without [Origin], or whose
    origin is its own host, is no CORS request; an origin that is not
    allowed is refused; [OPTIONS] is answered by the middleware. *)
Definition applyCors (cfg : cors_config) (origin : option string)
    (host : string) (m : method) : cors_outcome :=
  match origin with
  | None => NotCors
  | Some o =>
      if decide (o = "") then NotCors
      else if decide (o = "http://" +:+ host ∨ o = "https://" +:+ host)
      then NotCors
      else if negb (origin_valid cfg o) then Forbidden
      else if decide (m = OPTIONS) then Preflight (preflight_headers cfg o)
      else Normal (normal_headers cfg o)
  end.

(** ** Redirection of a trailing slash *)

(** [path] without its last character, when that is a separator. *)
Definition trailing_slash (path : string) : option string :=
  match reverse (chars path) with
  | c :: rest =>
      if decide (c = Separator) then Some (str (reverse rest)) else None
  | [] => None
  end.

(** The engine's [RedirectTrailingSlash], which [gin.Default()] (line 299)
    leaves on: a path that no route matches and that is a route followed
    by a slash is answered with a redirection to that route, 301 for [GET]
    and 307 for the other methods. *)
Definition redirect (m : method) (path : string) : option (Z * string) :=
  match route m path, trailing_slash path with
  | None, Some p =>
      match route m p with
      | Some _ => Some (if decide (m = GET) then 301 else 307, p)
      | None => None
      end
  | _, _ => None
  end.

(** ** Binding and encoding around the handlers *)

(** What an error body reports. *)
Inductive failure : Type :=
| BindFailure
| StoreFailure (e : db_error)
| WalkFailure (e : walk_error).

Section wire.
Context (empty_default : bool) (message : failure → string).
Context `{QueryEngine}.

(** The request as the handlers read it. *)
Definition receive (h : http_request) : request :=
  mkRequest (h_method h) (h_path h)
    (match ShouldBindQuery empty_default (h_query h) with
     | Ok params => Some params
     | Err _ => None
     end)
    (ShouldBindJSON_Video (h_body h))
    (ShouldBindJSON_statusUpdate (h_body h)).

(** [c.JSON(status, body)]. *)
Definition written {E A} (hs : list header) (fail : E → failure)
    (enc : A → json) (r : response E A) : http_response :=
  mkResponse (status_code r) hs
    (Some match r with
          | StatusOK body => enc body
          | StatusBadRequest => error_json (message BindFailure)
          | StatusInternalServerError e => error_json (message (fail e))
          end).

(** The reply of a handler on the wire; a request that reaches no handler
    is answered 404 without a JSON body. *)
Definition respond (hs : list header) (rep : reply) : option http_response :=
  match rep with
  | Videos r => Some (written hs WalkFailure videos_to_json r)
  | QueuePage r => written hs StoreFailure QueueBody_to_json <$> r
  | Enqueued r => Some (written hs StoreFailure Video_to_json r)
  | Updated r =>
      Some (written hs StoreFailure (λ s, JObject [("status", JString s)]) r)
  | NoRoute => Some (mkResponse 404 hs None)
  end.

(** One HTTP request served (lines 299-313): a redirection, or the
    middleware and then the router and the handler. *)
Definition serve (s : Server) (cwd : node) (h : http_request) :
    Server * option http_response :=
  let dispatch hs :=
    let '(s', rep) := handle s cwd (receive h) in (s', respond hs rep) in
  match redirect (h_method h) (h_path h) with
  | Some (c, p) => (s, Some (mkResponse c [Location p] None))
  | None =>
      match applyCors config (h_origin h) (h_host h) (h_method h) with
      | NotCors => dispatch []
      | Normal hs => dispatch hs
      | Forbidden => (s, Some (mkResponse 403 [] None))
      | Preflight hs => (s, Some (mkResponse 204 hs None))
      end
  end.

(** ** Reference definitions *)

(** The binding the handler of a request performs fails. *)
Definition bind_fails (h : http_request) : Prop :=
  match route (h_method h) (h_path h) with
  | Some Queue => req_query (receive h) = None
  | Some Process => req_video (receive h) = None
  | Some (VideoStatus _) => req_status (receive h) = None
  | Some UnprocessedVideos | None => False
  end.

End wire.

(** A request of the program's own pages: no CORS headers are involved. *)
Definition same_origin (m : method) (path : string) (query : form)
    (body : option json) : http_request :=
  mkHttp m path None "localhost:8080" query body.

(** ** The middleware under the program's configuration *)

Lemma applyCors_config origin host m :
  applyCors config origin host m ≠ Forbidden.
Proof. unfold applyCors. repeat case_match; done. Qed.

Lemma applyCors_OPTIONS origin host :
  applyCors config origin host OPTIONS = NotCors
  ∨ ∃ hs, applyCors config origin host OPTIONS = Preflight hs.
Proof. unfold applyCors. repeat case_match; eauto; done. Qed.

Lemma route_OPTIONS path : route OPTIONS path = None.
Proof. done. Qed.

(** ** Redirections *)

Lemma redirect_Some m path c p :
  redirect m path = Some (c, p) →
  route m path = None ∧ trailing_slash path = Some p ∧ is_Some (route m p)
  ∧ c = (if decide (m = GET) then 301 else 307).
Proof.
  unfold redirect. intros Hr.
  destruct (route m path), (trailing_slash path) as [p'|]; try done.
  destruct (route m p') eqn:Hp; simplify_eq. eauto.
Qed.

Lemma redirect_routed m path : is_Some (route m path) → redirect m path = None.
Proof. unfold redirect. by intros [hd ->]. Qed.

Lemma trailing_slash_app p : trailing_slash (p +:+ "/") = Some p.
Proof.
  unfold trailing_slash. rewrite chars_app, reverse_app. simpl.
  by rewrite reverse_involutive, str_chars.
Qed.

(** ** Status codes *)

Section wire_lemmas.
Context (empty_default : bool) (message : failure → string).
Context `{QueryEngine}.
Implicit Types (s : Server) (h : http_request) (r : http_response).

#[local] Notation serve := (serve empty_default message).
#[local] Notation receive := (receive empty_default).
#[local] Notation respond := (respond message).

Lemma code_written {E A} hs (fail : E → failure) (enc : A → json)
    (x : response E A) :
  code (written message hs fail enc x) = status_code x.
Proof. done. Qed.

(** The codes of a reply. *)
Lemma respond_code hs rep r :
  respond hs rep = Some r →
  match rep with
  | Videos x => code r = status_code x
  | QueuePage x => ∃ y, x = Some y ∧ code r = status_code y
  | Enqueued x | Updated x => code r = status_code x
  | NoRoute => code r = 404
  end.
Proof.
  destruct rep as [x|[x|]|x|x|]; intros; simplify_eq/=; eauto.
Qed.

(** A handler answers 400 exactly when it was given no bound value, and
    then it leaves the state alone. *)
Lemma handle_bad_request s cwd req s' rep hs r :
  handle s cwd req = (s', rep) → respond hs rep = Some r →
  (code r = 400 ↔
   match route (req_method req) (req_path req) with
   | Some Queue => req_query req = None
   | Some Process => req_video req = None
   | Some (VideoStatus _) => req_status req = None
   | Some UnprocessedVideos | None => False
   end)
  ∧ (code r = 400 → s' = s).
Proof.
  unfold handle, getUnprocessedVideos, getQueue, addToQueue, updateVideoStatus.
  intros Hh Hr.
  destruct (route _ _) as [[| | |id]|]; simplify_eq/=;
    repeat (case_match; simplify_eq/=); split; intros; simplify_eq; done.
Qed.

Lemma serve_bad_request_iff s cwd h s' r :
  serve s cwd h = (s', Some r) →
  (code r = 400 ↔ bind_fails empty_default h) ∧ (code r = 400 → s' = s).
Proof.
  unfold serve, bind_fails. intros Hs.
  destruct (redirect _ _) as [[c p]|] eqn:Hd.
  { apply redirect_Some in Hd as (-> & _ & _ & ->). simplify_eq/=.
    case_decide; (split; [split|]); done. }
  destruct (applyCors _ _ _ _) eqn:Hc.
  1, 4: destruct (handle s cwd (receive h)) as [s1 rep] eqn:Hh;
        injection Hs as -> Hr;
        exact (handle_bad_request _ _ (receive h) _ _ _ _ Hh Hr).
  - by apply applyCors_config in Hc.
  - assert (h_method h = OPTIONS) as ->
      by (unfold applyCors in Hc; repeat case_match; by simplify_eq).
    simplify_eq/=. split; [split|]; done.
Qed.

(** ** Encoded requests *)

Lemma serve_same_origin s cwd m path query body :
  is_Some (route m path) →
  serve s cwd (same_origin m path query body)
  = let '(s', rep) := handle s cwd (receive (same_origin m path query body)) in
    (s', respond [] rep).
Proof. intros Hr. unfold serve. simpl. by rewrite redirect_routed. Qed.

Lemma receive_query m path params body :
  in_int (PaginationParams.Page params) →
  in_int (PaginationParams.PageSize params) →
  req_query (receive (same_origin m path (query_of params) body)) = Some params.
Proof. intros HP HS. simpl. by rewrite ShouldBindQuery_query. Qed.

Lemma receive_video m path query video :
  in_int (Video.OriginalSize video) →
  req_video (receive (same_origin m path query (Some (Video_to_json video))))
  = Some video.
Proof.
  intros Hv. cbn [receive req_video same_origin h_body].
  unfold ShouldBindJSON_Video. cbn [mbind option_bind].
  by apply Unmarshal_Video_to_json.
Qed.

Lemma receive_status m path query status :
  req_status (receive (same_origin m path query
                (Some (JObject [("status", JString status)]))))
  = Some status.
Proof. done. Qed.

Lemma serve_process s cwd query video :
  in_int (Video.OriginalSize video) →
  serve s cwd (same_origin POST "/api/videos/process" query
                 (Some (Video_to_json video)))
  = ((addToQueue s (Some video)).1,
     respond [] (Enqueued (addToQueue s (Some video)).2)).
Proof.
  intros Hv. rewrite serve_same_origin by done. unfold handle.
  change (route _ _) with (Some Process).
  rewrite receive_video by done. by destruct (addToQueue s (Some video)).
Qed.

Lemma serve_queue s cwd params body :
  in_int (PaginationParams.Page params) →
  in_int (PaginationParams.PageSize params) →
  serve s cwd (same_origin GET "/api/queue" (query_of params) body)
  = (s, respond [] (QueuePage (getQueue (db s) (Some params)))).
Proof.
  intros HP HS. rewrite serve_same_origin by done. unfold handle.
  change (route _ _) with (Some Queue). by rewrite receive_query.
Qed.

Lemma serve_status s cwd query id status :
  sep_free id →
  serve s cwd (same_origin PATCH ("/api/videos/" +:+ id +:+ "/status") query
                 (Some (JObject [("status", JString status)])))
  = ((updateVideoStatus s id (Some status)).1,
     respond [] (Updated (updateVideoStatus s id (Some status)).2)).
Proof.
  intros Hid.
  rewrite serve_same_origin by (by rewrite route_patch_status).
  unfold handle.
  cbn [receive req_method req_path same_origin h_method h_path].
  rewrite route_patch_status by done. rewrite receive_status.
  by destruct (updateVideoStatus s id (Some status)).
Qed.

Lemma serve_zero_video s cwd query body t :
  body = JNull ∨ body = JObject [] →
  table_of (db s) = Ok t → ("" ∉ row_id <$> t) →
  serve s cwd (same_origin POST "/api/videos/process" query (Some body))
  = (mkServer (set_table (db s) (t ++ [pending_row zero_Video]))
              (cache_add (processedPaths s) ""),
     Some (mkResponse 200 [] (Some (Video_to_json zero_Video)))).
Proof.
  intros Hb Ht Hid. rewrite serve_same_origin by done. unfold handle.
  change (route _ _) with (Some Process).
  assert (req_video (receive (same_origin POST "/api/videos/process" query
                                (Some body))) = Some zero_Video) as ->
    by (by destruct Hb as [-> | ->]).
  by rewrite (proj2 (addToQueue_Ok s zero_Video _ zero_Video))
    by (exists t; done).
Qed.

(** A method without a route: the request changes nothing and is answered
    by the middleware or with 404. *)
Lemma serve_unrouted s cwd h :
  (∀ path, route (h_method h) path = None) →
  ∃ r, serve s cwd h = (s, Some r) ∧ (code r = 204 ∨ code r = 404)
       ∧ payload r = None.
Proof.
  intros Hm. unfold serve, redirect, handle. simpl. rewrite !Hm.
  destruct (trailing_slash _); [rewrite Hm|];
    (destruct (applyCors _ _ _ _) eqn:Hc;
       [| by apply applyCors_config in Hc |..]; eauto).
Qed.

End wire_lemmas.

(** ** Theorems *)

Section wire_theorems.
Context (empty_default : bool) (message : failure → string).
Context `{QueryEngine}.
Implicit Types (s : Server) (h : http_request) (r : http_response).

#[local] Notation serve := (serve empty_default message).
#[local] Notation respond := (respond message).

(** C18. A request is answered 400 exactly when the binding of the handler
    it is routed to fails, and such a request leaves the state of the
    server as it was. *)
Theorem serve_bad_request s cwd h s' r :
  serve s cwd h = (s', Some r) →
  (code r = 400 ↔ bind_fails empty_default h) ∧ (code r = 400 → s' = s).
Proof. apply serve_bad_request_iff. Qed.

(** Binding reads back what a client encodes: a video posted as the
    JSON object of its fields, the parameters of a page written as decimal
    numbers into the query, and a status sent as [{"status": ...}] reach
    the handlers as the values they encode, and the responses are the
    encodings of the handlers' replies. *)
Theorem serve_encoded s cwd :
  (∀ query video,
     in_int (Video.OriginalSize video) →
     serve s cwd (same_origin POST "/api/videos/process" query
                    (Some (Video_to_json video)))
     = ((addToQueue s (Some video)).1,
        respond [] (Enqueued (addToQueue s (Some video)).2)))
  ∧ (∀ params body,
       in_int (PaginationParams.Page params) →
       in_int (PaginationParams.PageSize params) →
       serve s cwd (same_origin GET "/api/queue" (query_of params) body)
       = (s, respond [] (QueuePage (getQueue (db s) (Some params)))))
  ∧ (∀ query id status,
       sep_free id →
       serve s cwd (same_origin PATCH ("/api/videos/" +:+ id +:+ "/status")
                      query (Some (JObject [("status", JString status)])))
       = ((updateVideoStatus s id (Some status)).1,
          respond [] (Updated (updateVideoStatus s id (Some status)).2))).
Proof.
  split_and!; intros.
  - by apply serve_process.
  - by apply serve_queue.
  - by apply serve_status.
Qed.

(** The middleware advertises [PUT], [DELETE] and [OPTIONS] among the
    allowed methods, and the program routes none of them: such a request
    changes nothing and is answered 204 by the middleware or 404, without
    a body. *)
Theorem unrouted_methods s cwd h :
  h_method h ∈ [PUT; DELETE; OPTIONS] →
  h_method h ∈ cfg_AllowMethods config
  ∧ ∃ r, serve s cwd h = (s, Some r) ∧ (code r = 204 ∨ code r = 404)
         ∧ payload r = None.
Proof.
  intros Hm. split; [set_solver|]. apply serve_unrouted.
  intros path. set_unfold.
  destruct_or!; try done; by match goal with E : _ = _ |- _ => rewrite E end.
Qed.

(** C27. A body that is [null] or the empty object passes the binding:
    the handler stores a row whose id and path are empty and answers 200
    with the zero video. *)
Theorem null_body_is_enqueued s cwd query body t :
  body = JNull ∨ body = JObject [] →
  table_of (db s) = Ok t → ("" ∉ row_id <$> t) →
  ∃ s', serve s cwd (same_origin POST "/api/videos/process" query (Some body))
        = (s', Some (mkResponse 200 [] (Some (Video_to_json zero_Video))))
        ∧ rows s' = t ++ [pending_row zero_Video]
        ∧ cache_get (processedPaths s') "" = true.
Proof.
  intros Hb Ht Hid. eexists. split; [by eapply serve_zero_video|].
  split.
  - apply rows_table_of. apply table_of_set_table.
    by apply table_of_Ok in Ht as [? _].
  - apply cache_get_add.
Qed.

End wire_theorems.

(** A path that is a route followed by a slash is redirected, without a
    look at the body and without the headers of the middleware. *)
Theorem trailing_slash_redirected `{QueryEngine} ed message s cwd h p :
  h_path h = p +:+ "/" → is_Some (route (h_method h) p) →
  route (h_method h) (h_path h) = None →
  serve ed message s cwd h
  = (s, Some (mkResponse (if decide (h_method h = GET) then 301 else 307)
                [Location p] None)).
Proof.
  intros Hp [hd Hr] Hn. unfold serve, redirect.
  by rewrite Hn, Hp, trailing_slash_app, Hr.
Qed.

(** ** Witnesses and scenarios *)

(** The texts of the examples. *)
Definition demo_message (f : failure) : string :=
  match f with
  | BindFailure => "invalid request"
  | StoreFailure _ => "store error"
  | WalkFailure _ => "walk error"
  end.

Lemma serve_bad_request_witness :
  let h := same_origin GET "/api/queue" [("page", "two")] None in
  let r := mkResponse 400 [] (Some (error_json "invalid request")) in
  (code r = 400 ↔ bind_fails false h) ∧ (code r = 400 → demo_server = demo_server).
Proof.
  apply (@serve_bad_request false demo_message merge_engine demo_server demo_fs).
  vm_compute. reflexivity.
Defined.

Lemma unrouted_methods_witness :
  let h := mkHttp OPTIONS "/api/queue" (Some "http://localhost:3000")
             "localhost:8080" [] None in
  h_method h ∈ cfg_AllowMethods config
  ∧ ∃ r, serve false demo_message demo_server demo_fs h = (demo_server, Some r)
         ∧ (code r = 204 ∨ code r = 404) ∧ payload r = None.
Proof.
  apply (@unrouted_methods false demo_message merge_engine demo_server demo_fs).
  set_solver.
Defined.

Lemma null_body_is_enqueued_witness :
  ∃ s', serve false demo_message demo_server demo_fs
          (same_origin POST "/api/videos/process" [] (Some JNull))
        = (s', Some (mkResponse 200 [] (Some (Video_to_json zero_Video))))
        ∧ rows s' = demo_table ++ [pending_row zero_Video]
        ∧ cache_get (processedPaths s') "" = true.
Proof.
  apply (@null_body_is_enqueued false demo_message merge_engine demo_server
           demo_fs [] JNull demo_table).
  - by left.
  - reflexivity.
  - apply (bool_decide_unpack _). vm_compute. exact I.
Defined.

(** A session on the wire: a page of the queue, a slash too many, a
    preflight from another origin, a status update for the empty id. *)
Example scenario_wire :
  let serve := serve false demo_message demo_server demo_fs in
  (serve (same_origin GET "/api/queue" [("pageSize", "2")] None)).2
  = respond demo_message []
      (QueuePage (getQueue (db demo_server) (Some (PaginationParams.mk 1 2 ""))))
  ∧ (serve (same_origin GET "/api/queue/" [] None)).2
    = Some (mkResponse 301 [Location "/api/queue"] None)
  ∧ (serve (mkHttp OPTIONS "/api/videos/process" (Some "http://localhost:3000")
              "localhost:8080" [] None)).2
    = Some (mkResponse 204
              [AllowMethods [GET; POST; PUT; PATCH; DELETE; OPTIONS];
               AllowHeaders ["Origin"; "Content-Type"]; MaxAge 43200;
               AllowOrigin "*"] None)
  ∧ (serve (same_origin PATCH "/api/videos//status" []
              (Some (JObject [("status", JString "completed")])))).2
    = Some (mkResponse 200 [] (Some updated_json)).
Proof. by vm_compute. Qed.
