(* ===== verification/Concurrency.v ===== *)
(** * Requests served concurrently

    [net/http] runs the handler of every request in a goroutine of its own,
    and the handlers of [src/backend/main.go] share two things: the database
    (each statement is atomic there) and the map [processedPaths] (line 39),
    which they read (line 131) and write (line 268) without a lock.

    This file splits every handler at the points where it touches the
    shared state and lets a scheduler interleave the pieces. A [thread] is a
    handler at one of these points, with its local variables; [thread_step]
    runs it to the next point. The Go map is modelled with the flag its
    runtime keeps while a write is in progress: a write is two steps, and a
    second write that finds the flag set ends the process ("fatal error:
    concurrent map writes"), and so does a read, which looks at the flag
    when the map holds an entry ("concurrent map read and map write").

    The theorems say which guarantees of the atomic model of file [System]
    survive an arbitrary schedule, and exhibit schedules under which the
    others fail. *)

From S2P Require Import Prelude GoInt Sql Store QueueView Cache Handlers.
From S2P Require Import Paths Discovery System.

#[local] Open Scope Z_scope.

(** ** Shared state and threads *)

Record shared : Type := mkShared {
  sh_db : DB;
  sh_cache : gmap string bool;
  sh_writing : bool;
}.

(** A handler between two accesses to the shared state. *)
Inductive thread : Type :=
| Enqueue (video : Video.t)
    (** [addToQueue] before the [INSERT] (line 257) *)
| EnqueueInserted (video : Video.t)
    (** after the [INSERT], before the map write (line 268) *)
| EnqueueWriting (video : Video.t)
    (** in the map write *)
| Discover
    (** [getUnprocessedVideos] before the walk (line 114) *)
| DiscoverFilter (todo : list string) (videos : list Video.t)
    (** in the loop over [videoPaths] (line 130) *)
| View (params : PaginationParams.t)
    (** [getQueue] with validated parameters, before the count (line 181) *)
| ViewCounted (params : PaginationParams.t) (total : Z)
    (** after the count, before the page query (line 196) *)
| SetStatus (id status : string)
    (** [updateVideoStatus] before the [UPDATE] (line 285) *)
| Finished (rep : reply).
    (** the response is written *)

(** The thread of a request: the router and the binding, which touch no
    shared state. *)
Definition spawn (req : request) : thread :=
  match route (req_method req) (req_path req) with
  | Some UnprocessedVideos => Discover
  | Some Queue =>
      match req_query req with
      | Some params => View (validate params)
      | None => Finished (QueuePage (Some StatusBadRequest))
      end
  | Some Process =>
      match req_video req with
      | Some video => Enqueue video
      | None => Finished (Enqueued StatusBadRequest)
      end
  | Some (VideoStatus id) =>
      match req_status req with
      | Some status => SetStatus id status
      | None => Finished (Updated StatusBadRequest)
      end
  | None => Finished NoRoute
  end.

(** What one step of a thread leads to. *)
Inductive outcome : Type :=
| Next (sh : shared) (t : thread)
| Fatal.

(** The response of [getQueue] once both queries have answered. *)
Definition view_body (params : PaginationParams.t) (total : Z)
    (rows : list row) : QueueBody :=
  {| queue := group_videos total (scanVideoRows rows);
     pagination :=
       {| page := PaginationParams.Page params;
          pageSize := PaginationParams.PageSize params;
          total := total;
          pages := page_count total (PaginationParams.PageSize params) |} |}.

(** One step of a thread on the shared state; [None] for a thread that has
    finished. *)
Definition thread_step `{QueryEngine} (cwd : node) (sh : shared) (t : thread) :
    option outcome :=
  match t with
  | Enqueue video =>
      match exec_insert (sh_db sh) (Video.ID video) (Video.Path video)
              (Video.Resolution video) (Video.Bitrate video) "pending"
              (Video.OriginalSize video) with
      | Err e => Some (Next sh (Finished (Enqueued (StatusInternalServerError e))))
      | Ok d' =>
          Some (Next (mkShared d' (sh_cache sh) (sh_writing sh))
                     (EnqueueInserted video))
      end
  | EnqueueInserted video =>
      if sh_writing sh then Some Fatal
      else Some (Next (mkShared (sh_db sh) (sh_cache sh) true)
                      (EnqueueWriting video))
  | EnqueueWriting video =>
      Some (Next (mkShared (sh_db sh)
                    (cache_add (sh_cache sh) (Video.Path video)) false)
                 (Finished (Enqueued (StatusOK video))))
  | Discover =>
      match Walk walkFn videosDir (videos_root cwd) [] with
      | (_, Some err) =>
          Some (Next sh (Finished (Videos (StatusInternalServerError err))))
      | (videoPaths, None) => Some (Next sh (DiscoverFilter videoPaths []))
      end
  | DiscoverFilter [] videos =>
      Some (Next sh (Finished (Videos (StatusOK videos))))
  | DiscoverFilter (path :: todo) videos =>
      if sh_writing sh && bool_decide (sh_cache sh ≠ ∅) then Some Fatal
      else Some (Next sh (DiscoverFilter todo
                            (filter_step (sh_cache sh) cwd videos path)))
  | View params =>
      match query_count (sh_db sh)
              (whereClause (PaginationParams.Status params)) with
      | None => Some (Next sh (Finished (QueuePage None)))
      | Some (Err e) =>
          Some (Next sh (Finished (QueuePage (Some (StatusInternalServerError e)))))
      | Some (Ok total) => Some (Next sh (ViewCounted params total))
      end
  | ViewCounted params total =>
      match query_page (sh_db sh)
              (whereClause (PaginationParams.Status params))
              (PaginationParams.PageSize params) (offset_of params) with
      | None => Some (Next sh (Finished (QueuePage None)))
      | Some (Err e) =>
          Some (Next sh (Finished (QueuePage (Some (StatusInternalServerError e)))))
      | Some (Ok rows) =>
          Some (Next sh (Finished
                  (QueuePage (Some (StatusOK (view_body params total rows))))))
      end
  | SetStatus id status =>
      match exec_update_status (sh_db sh) status id with
      | Err e => Some (Next sh (Finished (Updated (StatusInternalServerError e))))
      | Ok d' =>
          Some (Next (mkShared d' (sh_cache sh) (sh_writing sh))
                     (Finished (Updated (StatusOK "updated"))))
      end
  | Finished _ => None
  end.

(** ** Schedules *)

(** The process: running with its threads, or ended by a fatal error. *)
Inductive process : Type :=
| Running (sh : shared) (threads : list thread)
| Crashed.

(** The scheduler gives the next step to thread [i]. A thread that has
    finished, or that does not exist, lets the step pass. *)
Definition sched_step `{QueryEngine} (cwd : node) (p : process) (i : nat) :
    process :=
  match p with
  | Crashed => Crashed
  | Running sh threads =>
      match threads !! i with
      | None => p
      | Some t =>
          match thread_step cwd sh t with
          | None => p
          | Some Fatal => Crashed
          | Some (Next sh' t') => Running sh' (<[i := t']> threads)
          end
      end
  end.

Definition sched_run `{QueryEngine} (cwd : node) (p : process)
    (schedule : list nat) : process :=
  foldl (sched_step cwd) p schedule.

(** A thread run alone, for at most [fuel] steps. *)
Fixpoint run_alone `{QueryEngine} (cwd : node) (fuel : nat) (sh : shared)
    (t : thread) : option (shared * thread) :=
  match fuel with
  | O => Some (sh, t)
  | S fuel' =>
      match thread_step cwd sh t with
      | None => Some (sh, t)
      | Some Fatal => None
      | Some (Next sh' t') => run_alone cwd fuel' sh' t'
      end
  end.

(** The steps a thread has left when it runs alone: an upper bound that
    does not depend on the shared state. *)
Definition steps_left (cwd : node) (t : thread) : nat :=
  match t with
  | Enqueue _ => 3
  | EnqueueInserted _ => 2
  | EnqueueWriting _ => 1
  | Discover => 2 + length (Walk walkFn videosDir (videos_root cwd) []).1
  | DiscoverFilter todo _ => 1 + length todo
  | View _ => 2
  | ViewCounted _ _ => 1
  | SetStatus _ _ => 1
  | Finished _ => 0
  end.

(** ** Reference definitions *)

(** The shared state of a server of the atomic model, and back. *)
Definition share (s : Server) : shared :=
  mkShared (db s) (processedPaths s) false.

Definition unshare (sh : shared) : Server :=
  mkServer (sh_db sh) (sh_cache sh).

(** The video whose row a thread has inserted and not yet cached. *)
Definition pending_insert (t : thread) : option Video.t :=
  match t with
  | EnqueueInserted video | EnqueueWriting video => Some video
  | _ => None
  end.

Definition finished (t : thread) : Prop :=
  match t with Finished _ => True | _ => False end.

#[export] Instance finished_dec t : Decision (finished t).
Proof. destruct t; simpl; apply _. Defined.

(** The invariant of the shared state under any schedule: the primary key
    holds, the cache claims stored paths only, a thread between its insert
    and its map write has its row in the table, and a stored path that the
    cache does not hold yet belongs to such a thread. *)
Record shared_inv (sh : shared) (threads : list thread) : Prop := mkSharedInv {
  sinv_ids : ids_unique (rows (unshare sh));
  sinv_wf : cache_wf (sh_cache sh);
  sinv_sound : ∀ p, cache_get (sh_cache sh) p = true →
                    p ∈ row_path <$> rows (unshare sh);
  sinv_inserted : ∀ j t video,
    threads !! j = Some t → pending_insert t = Some video →
    Video.Path video ∈ row_path <$> rows (unshare sh);
  sinv_pending : ∀ p,
    p ∈ row_path <$> rows (unshare sh) →
    cache_get (sh_cache sh) p = true
    ∨ ∃ j t video, threads !! j = Some t ∧ pending_insert t = Some video
                   ∧ Video.Path video = p;
}.

(** The steps the threads of a process have left, and a process in which
    no thread has a step left. *)
Definition work (cwd : node) (p : process) : nat :=
  match p with
  | Crashed => 0%nat
  | Running _ threads => sum_list (steps_left cwd <$> threads)
  end.

Definition quiescent (p : process) : Prop :=
  match p with
  | Crashed => True
  | Running _ threads => Forall finished threads
  end.

#[export] Instance quiescent_dec p : Decision (quiescent p).
Proof. destruct p; simpl; apply _. Defined.

(** The schedule that gives each of [n] threads a turn, [rounds] times. *)
Definition round_robin (rounds n : nat) : list nat :=
  concat (replicate rounds (seq 0 n)).

(** Example: a new file and the request that enqueues it. *)
Definition demo_new : Video.t :=
  Video.mk "n.mp4" "videos/new/n.mp4" "1280x720" "2500k" "" 512.

Definition demo_new_fs : node :=
  Dir [("videos", Dir [("new", Dir [("n.mp4", File 512)])])].

(** ** A thread alone is the atomic handler *)

Section alone.
Context `{QueryEngine}.
Implicit Types (s : Server) (sh : shared) (t : thread) (cwd : node).

Lemma run_alone_S cwd fuel sh t :
  run_alone cwd (S fuel) sh t
  = match thread_step cwd sh t with
    | None => Some (sh, t)
    | Some Fatal => None
    | Some (Next sh' t') => run_alone cwd fuel sh' t'
    end.
Proof. done. Qed.

Lemma run_alone_finished cwd fuel sh rep :
  run_alone cwd fuel sh (Finished rep) = Some (sh, Finished rep).
Proof. by destruct fuel. Qed.

(** The loop of discovery, run without interference. *)
Lemma run_alone_filter cwd sh todo videos :
  sh_writing sh = false →
  run_alone cwd (1 + length todo) sh (DiscoverFilter todo videos)
  = Some (sh, Finished (Videos (StatusOK
            (foldl (filter_step (sh_cache sh) cwd) videos todo)))).
Proof.
  intros Hw. revert videos.
  induction todo as [|path todo IH]; intros videos; [done|].
  cbn [length Nat.add run_alone thread_step]. rewrite Hw. apply IH.
Qed.

Lemma run_alone_enqueue cwd s video :
  run_alone cwd 3 (share s) (Enqueue video)
  = Some (share (addToQueue s (Some video)).1,
          Finished (Enqueued (addToQueue s (Some video)).2)).
Proof.
  unfold addToQueue. cbn [run_alone thread_step share sh_db sh_cache sh_writing].
  by destruct (exec_insert _ _ _ _ _ _ _).
Qed.

Lemma run_alone_status cwd s id status :
  run_alone cwd 1 (share s) (SetStatus id status)
  = Some (share (updateVideoStatus s id (Some status)).1,
          Finished (Updated (updateVideoStatus s id (Some status)).2)).
Proof.
  unfold updateVideoStatus. cbn [run_alone thread_step share sh_db].
  by destruct (exec_update_status _ _ _).
Qed.

Lemma run_alone_view cwd s params :
  run_alone cwd 2 (share s) (View (validate params))
  = Some (share s, Finished (QueuePage (getQueue (db s) (Some params)))).
Proof.
  unfold getQueue. cbn [run_alone thread_step share sh_db].
  destruct (query_count _ _) as [[total|e]|]; try done.
  cbn [thread_step sh_db]. by destruct (query_page _ _ _ _) as [[rows|e]|].
Qed.

Lemma run_alone_discover cwd s :
  run_alone cwd (steps_left cwd Discover) (share s) Discover
  = Some (share s, Finished (Videos (getUnprocessedVideos s cwd))).
Proof.
  unfold getUnprocessedVideos, steps_left.
  destruct (Walk walkFn videosDir (videos_root cwd) []) as [paths [err|]] eqn:E;
    simpl fst; change (2 + length paths)%nat with (S (S (length paths)));
    rewrite run_alone_S; cbn [thread_step]; rewrite E.
  - apply run_alone_finished.
  - by apply (run_alone_filter cwd (share s) paths []).
Qed.
End alone.

(** ** The invariant under a schedule *)

Section invariant.
Context `{QueryEngine}.
Implicit Types (sh : shared) (t : thread) (threads : list thread) (cwd : node).

Lemma rows_unshare_insert sh d' id path res bit st sz :
  exec_insert (sh_db sh) id path res bit st sz = Ok d' →
  (id ∉ row_id <$> rows (unshare sh))
  ∧ rows (mkServer d' (sh_cache sh))
    = rows (unshare sh) ++ [mkRow id path (Some res) (Some bit) st sz].
Proof.
  intros (tbl & Ht & Hid & ->)%exec_insert_Ok.
  by rewrite (rows_table_of (unshare sh) tbl Ht).
Qed.

Lemma exec_insert_fresh d tbl video :
  table_of d = Ok tbl → Video.ID video ∉ row_id <$> tbl →
  exec_insert d (Video.ID video) (Video.Path video) (Video.Resolution video)
    (Video.Bitrate video) "pending" (Video.OriginalSize video)
  = Ok (set_table d (tbl ++ [pending_row video])).
Proof. intros Ht Hid. apply exec_insert_Ok. eauto. Qed.

Lemma rows_unshare_update sh d' status id :
  exec_update_status (sh_db sh) status id = Ok d' →
  rows (mkServer d' (sh_cache sh)) = set_status status id <$> rows (unshare sh).
Proof.
  intros (tbl & Ht & ->)%exec_update_status_Ok.
  by rewrite (rows_table_of (unshare sh) tbl Ht).
Qed.

(** A thread that keeps what it has inserted and not cached keeps the
    invariant of an unchanged shared state. *)
Lemma shared_inv_thread sh sh' threads i t t' :
  threads !! i = Some t →
  row_id <$> rows (unshare sh') = row_id <$> rows (unshare sh) →
  row_path <$> rows (unshare sh') = row_path <$> rows (unshare sh) →
  sh_cache sh' = sh_cache sh →
  pending_insert t' = pending_insert t →
  shared_inv sh threads → shared_inv sh' (<[i := t']> threads).
Proof.
  intros Hi Hri Hr Hc Hp [Hids Hwf Hsound Hins Hpend].
  assert (∀ j tj video, <[i := t']> threads !! j = Some tj →
            pending_insert tj = Some video →
            ∃ tj', threads !! j = Some tj' ∧ pending_insert tj' = Some video)
    as Hold.
  { intros j tj video Hj Hv. destruct (decide (i = j)) as [->|Hne].
    - rewrite list_lookup_insert_eq in Hj by by eapply lookup_lt_Some.
      injection Hj as <-. exists t. by rewrite <-Hp.
    - rewrite list_lookup_insert_ne in Hj by done. eauto. }
  split; unfold ids_unique; rewrite ?Hri, ?Hr, ?Hc; try done.
  - intros j tj video Hj Hv.
    destruct (Hold j tj video Hj Hv) as (tj' & ? & ?). eauto.
  - intros p Hin. destruct (Hpend p Hin) as [?|(j & tj & video & Hj & Hv & <-)];
      [by left|right].
    destruct (decide (i = j)) as [->|Hne].
    + exists j, t', video. rewrite list_lookup_insert_eq by by eapply lookup_lt_Some.
      simplify_eq. by rewrite Hp.
    + exists j, tj, video. by rewrite list_lookup_insert_ne.
Qed.

(** The insert: a new row, whose thread now holds it as not yet cached. *)
Lemma shared_inv_insert sh d' threads i video :
  threads !! i = Some (Enqueue video) →
  exec_insert (sh_db sh) (Video.ID video) (Video.Path video)
    (Video.Resolution video) (Video.Bitrate video) "pending"
    (Video.OriginalSize video) = Ok d' →
  shared_inv sh threads →
  shared_inv (mkShared d' (sh_cache sh) (sh_writing sh))
    (<[i := EnqueueInserted video]> threads).
Proof.
  intros Hi [Hid Hrows]%rows_unshare_insert [Hids Hwf Hsound Hins Hpend].
  pose proof (lookup_lt_Some _ _ _ Hi) as Hlt.
  split; unfold unshare; simpl; rewrite ?Hrows, ?fmap_app; simpl.
  - by apply ids_unique_insert.
  - done.
  - intros p Hp. apply elem_of_app. left. by apply Hsound.
  - intros j tj v Hj Hv. apply elem_of_app.
    destruct (decide (i = j)) as [->|Hne].
    + rewrite list_lookup_insert_eq in Hj by done. simplify_eq/=.
      right. by left.
    + rewrite list_lookup_insert_ne in Hj by done. left. by eapply Hins.
  - intros p [Hp|Hp%list_elem_of_singleton]%elem_of_app.
    + destruct (Hpend p Hp) as [?|(j & tj & v & Hj & Hv & <-)]; [by left|right].
      exists j, tj, v. rewrite list_lookup_insert_ne; [done|].
      intros ->. by simplify_eq.
    + right. exists i, (EnqueueInserted video), video.
      by rewrite list_lookup_insert_eq.
Qed.

(** The end of the map write: the path of the inserted row is cached. *)
Lemma shared_inv_cached sh threads i video rep :
  threads !! i = Some (EnqueueWriting video) →
  shared_inv sh threads →
  shared_inv (mkShared (sh_db sh) (cache_add (sh_cache sh) (Video.Path video))
                false)
    (<[i := Finished rep]> threads).
Proof.
  intros Hi [Hids Hwf Hsound Hins Hpend].
  pose proof (lookup_lt_Some _ _ _ Hi) as Hlt.
  split; unfold unshare in *; simpl in *.
  - done.
  - by apply cache_wf_add.
  - intros p. rewrite cache_get_add. case_decide; [|by apply Hsound].
    subst. intros _. by eapply (Hins i).
  - intros j tj v Hj Hv. destruct (decide (i = j)) as [->|Hne].
    + rewrite list_lookup_insert_eq in Hj by done. by simplify_eq/=.
    + rewrite list_lookup_insert_ne in Hj by done. by eapply Hins.
  - intros p Hp. rewrite cache_get_add. case_decide; [by left|].
    destruct (Hpend p Hp) as [?|(j & tj & v & Hj & Hv & <-)]; [by left|right].
    exists j, tj, v. rewrite list_lookup_insert_ne; [done|].
    intros ->. by simplify_eq/=.
Qed.

(** Every step of every thread keeps the invariant. *)
Lemma thread_step_inv cwd sh threads i t sh' t' :
  threads !! i = Some t → thread_step cwd sh t = Some (Next sh' t') →
  shared_inv sh threads → shared_inv sh' (<[i := t']> threads).
Proof.
  intros Hi Hstep Hinv.
  assert (∀ sh1 t1,
            row_id <$> rows (unshare sh1) = row_id <$> rows (unshare sh) →
            row_path <$> rows (unshare sh1) = row_path <$> rows (unshare sh) →
            sh_cache sh1 = sh_cache sh → pending_insert t1 = pending_insert t →
            shared_inv sh1 (<[i := t1]> threads)) as Hsame
    by (intros; by eapply shared_inv_thread).
  destruct t as [video|video|video| |todo videos|params|params total|id status|rep];
    simpl in Hstep.
  - destruct (exec_insert _ _ _ _ _ _ _) as [d'|e] eqn:E; simplify_eq.
    + by apply shared_inv_insert.
    + by apply Hsame.
  - destruct (sh_writing sh); simplify_eq. by apply Hsame.
  - simplify_eq. by apply shared_inv_cached.
  - destruct (Walk _ _ _ _) as [paths [err|]]; simplify_eq; by apply Hsame.
  - destruct todo as [|path todo]; [|destruct (_ && _)]; simplify_eq;
      by apply Hsame.
  - destruct (query_count _ _) as [[n|e]|]; simplify_eq; by apply Hsame.
  - destruct (query_page _ _ _ _) as [[l|e]|]; simplify_eq; by apply Hsame.
  - destruct (exec_update_status _ _ _) as [d'|e] eqn:E; simplify_eq;
      [|by apply Hsame].
    apply rows_unshare_update in E.
    apply Hsame; unfold unshare; simpl; rewrite ?E; try done.
    + apply set_status_ids.
    + apply set_status_paths.
  - done.
Qed.

(** The outcome of a schedule: the process ended by a fatal error, or
    still running with the invariant. *)
Definition process_inv (p : process) : Prop :=
  match p with
  | Crashed => True
  | Running sh threads => shared_inv sh threads
  end.

Lemma sched_step_inv cwd p i : process_inv p → process_inv (sched_step cwd p i).
Proof.
  destruct p as [sh threads|]; [|done]. intros Hinv. simpl.
  destruct (threads !! i) as [t|] eqn:Hi; [|done].
  destruct (thread_step cwd sh t) as [[sh' t'|]|] eqn:Hs; [|done..].
  by eapply thread_step_inv.
Qed.

Lemma sched_run_inv cwd p schedule :
  process_inv p → process_inv (sched_run cwd p schedule).
Proof.
  revert p. induction schedule as [|i schedule IH]; intros p Hp; [done|].
  apply IH. by apply sched_step_inv.
Qed.

(** The threads of new requests hold no insert. *)
Lemma spawn_pending req : pending_insert (spawn req) = None.
Proof. unfold spawn. by repeat case_match. Qed.

Lemma shared_inv_spawn s reqs :
  server_inv s → cache_exact s → shared_inv (share s) (spawn <$> reqs).
Proof.
  intros [_ Hids Hwf Hsound] Hex. split; try done.
  - intros j t video Hj Hv. apply list_lookup_fmap_Some in Hj as (req & -> & _).
    by rewrite spawn_pending in Hv.
  - intros p Hp. left. by apply Hex.
Qed.

(** When every thread has finished, the cache is exact again. *)
Lemma shared_inv_quiescent sh threads :
  shared_inv sh threads → Forall finished threads → cache_exact (unshare sh).
Proof.
  intros [_ _ Hsound _ Hpend] Hfin p. split; [apply Hsound|].
  intros Hp. destruct (Hpend p Hp) as [?|(j & t & v & Hj & Hv & _)]; [done|].
  rewrite Forall_lookup in Hfin. specialize (Hfin j t Hj). by destruct t.
Qed.
End invariant.

(** ** Every goroutine comes to an end *)

Section termination.
Context `{QueryEngine}.
Implicit Types (sh : shared) (t : thread) (threads : list thread) (cwd : node).
Implicit Types (p : process) (i j : nat) (schedule : list nat).

Lemma steps_left_finished cwd t : steps_left cwd t = 0%nat ↔ finished t.
Proof. by destruct t. Qed.

(** No thread waits for another: a thread that has not finished can take
    its next step in every shared state. *)
Lemma thread_step_None cwd sh t : thread_step cwd sh t = None ↔ finished t.
Proof.
  destruct t as [| | | |[|? ?] ?| | | |]; simpl; repeat case_match; done.
Qed.

(** Every step of a thread takes it closer to its end. *)
Lemma thread_step_decreases cwd sh t sh' t' :
  thread_step cwd sh t = Some (Next sh' t') →
  (steps_left cwd t' < steps_left cwd t)%nat.
Proof.
  destruct t as [| | | |[|? ?] ?| | | |]; simpl; intros;
    repeat case_match; simplify_eq/=; lia.
Qed.

Lemma sum_list_insert (f : thread → nat) threads i t t' :
  threads !! i = Some t →
  (sum_list (f <$> <[i := t']> threads) + f t
   = sum_list (f <$> threads) + f t')%nat.
Proof.
  revert i. induction threads as [|t0 threads IH]; intros [|i] Hi;
    simplify_eq/=; [lia|]. specialize (IH i Hi). lia.
Qed.

Lemma sum_list_lookup_le (f : thread → nat) threads i t :
  threads !! i = Some t → (f t ≤ sum_list (f <$> threads))%nat.
Proof.
  revert i. induction threads as [|t0 threads IH]; intros [|i] Hi;
    simplify_eq/=; [lia|]. specialize (IH i Hi). lia.
Qed.

(** A turn changes nothing, or takes work off the process. *)
Lemma sched_step_work cwd p i :
  sched_step cwd p i = p ∨ (work cwd (sched_step cwd p i) < work cwd p)%nat.
Proof.
  destruct p as [sh threads|]; [|by left]. simpl.
  destruct (threads !! i) as [t|] eqn:Hi; [|by left].
  destruct (thread_step cwd sh t) as [[sh' t'|]|] eqn:Hs; [| |by left]; right.
  - apply thread_step_decreases in Hs. simpl.
    pose proof (sum_list_insert (steps_left cwd) threads i t t' Hi). lia.
  - assert (¬ finished t) as Hf
      by (rewrite <-thread_step_None; by rewrite Hs).
    rewrite <-(steps_left_finished cwd) in Hf. simpl.
    pose proof (sum_list_lookup_le (steps_left cwd) threads i t Hi). lia.
Qed.

Lemma sched_step_work_le cwd p i :
  (work cwd (sched_step cwd p i) ≤ work cwd p)%nat.
Proof. destruct (sched_step_work cwd p i) as [-> | ?]; lia. Qed.

(** The turn of a thread that has not finished takes work off. *)
Lemma sched_step_work_lt cwd sh threads i t :
  threads !! i = Some t → ¬ finished t →
  (work cwd (sched_step cwd (Running sh threads) i)
   < work cwd (Running sh threads))%nat.
Proof.
  intros Hi Hf. destruct (sched_step_work cwd (Running sh threads) i) as [E|?];
    [|done]. exfalso. simpl in E. rewrite Hi in E.
  destruct (thread_step cwd sh t) as [[sh' t'|]|] eqn:Hs; simplify_eq.
  - apply thread_step_decreases in Hs.
    assert (<[i := t']> threads !! i = Some t') as Hi'
      by (apply list_lookup_insert_eq; by eapply lookup_lt_Some).
    match goal with E : <[_ := _]> _ = _ |- _ => rewrite E in Hi' end.
    simplify_eq. lia.
  - apply Hf. by apply (thread_step_None cwd sh).
Qed.

Lemma sched_run_work_le cwd p schedule :
  (work cwd (sched_run cwd p schedule) ≤ work cwd p)%nat.
Proof.
  revert p. induction schedule as [|i schedule IH]; intros p; simpl; [done|].
  etransitivity; [apply IH|apply sched_step_work_le].
Qed.

(** A schedule in which a thread that has not finished gets a turn takes
    work off the process. *)
Lemma sched_run_work_lt cwd sh threads schedule i t :
  threads !! i = Some t → ¬ finished t → i ∈ schedule →
  (work cwd (sched_run cwd (Running sh threads) schedule)
   < work cwd (Running sh threads))%nat.
Proof.
  intros Hi Hf. revert sh threads Hi.
  induction schedule as [|j schedule IH]; intros sh threads Hi Hin;
    [by apply elem_of_nil in Hin|].
  cbn [sched_run foldl]. fold (sched_run cwd).
  destruct (decide (j = i)) as [->|Hne].
  { eapply Nat.le_lt_trans; [apply sched_run_work_le|].
    by eapply sched_step_work_lt. }
  apply elem_of_cons in Hin as [->|Hin]; [done|].
  pose proof (sched_step_work_le cwd (Running sh threads) j) as Hle.
  assert (0 < steps_left cwd t)%nat as Hpos
    by (rewrite <-(steps_left_finished cwd) in Hf; lia).
  pose proof (sum_list_lookup_le (steps_left cwd) threads i t Hi) as Hsum.
  destruct (sched_step cwd (Running sh threads) j) as [sh1 threads1|] eqn:Hs.
  - eapply Nat.lt_le_trans; [apply IH; [|done]|done].
    simpl in Hs. repeat case_match; simplify_eq; [|done..].
    by rewrite list_lookup_insert_ne.
  - eapply Nat.le_lt_trans; [apply sched_run_work_le|]. simpl in *. lia.
Qed.

(** A process without work is at rest, and a process at rest stays as it
    is. *)
Lemma work_0_quiescent cwd p : work cwd p = 0%nat → quiescent p.
Proof.
  destruct p as [sh threads|]; [|done]. simpl.
  induction threads as [|t threads IH]; intros Hw; simplify_eq/=; [done|].
  constructor; [apply (steps_left_finished cwd); lia|apply IH; lia].
Qed.

Lemma quiescent_step cwd p i : quiescent p → sched_step cwd p i = p.
Proof.
  destruct p as [sh threads|]; [|done]. simpl. intros Hq.
  destruct (threads !! i) as [t|] eqn:Hi; [|done].
  rewrite Forall_lookup in Hq.
  by rewrite (proj2 (thread_step_None cwd sh t) (Hq i t Hi)).
Qed.

Lemma quiescent_run cwd p schedule : quiescent p → sched_run cwd p schedule = p.
Proof.
  intros Hq. induction schedule as [|i schedule IH]; [done|].
  cbn [sched_run foldl]. by rewrite quiescent_step.
Qed.

(** The number of threads of a running process does not change. *)
Definition width (p : process) (n : nat) : Prop :=
  match p with Crashed => True | Running _ threads => length threads = n end.

Lemma sched_run_width cwd p schedule n :
  width p n → width (sched_run cwd p schedule) n.
Proof.
  revert p. induction schedule as [|i schedule IH]; intros p Hp; [done|].
  apply IH. destruct p as [sh threads|]; [|done]. simpl.
  repeat case_match; try done. simpl. by rewrite length_insert.
Qed.

(** One round takes work off a process that is not at rest. *)
Lemma round_work cwd p n :
  width p n → ¬ quiescent p →
  (work cwd (sched_run cwd p (seq 0 n)) < work cwd p)%nat.
Proof.
  destruct p as [sh threads|]; [|intros _ Hq; by destruct Hq].
  simpl. intros <- Hq.
  apply not_Forall_Exists in Hq; [|apply _].
  apply Exists_exists in Hq as (t & [i Hi]%list_elem_of_lookup & Hf).
  apply (sched_run_work_lt cwd sh threads _ i t Hi Hf).
  apply elem_of_seq. apply lookup_lt_Some in Hi. lia.
Qed.

Lemma sched_run_app cwd p schedule1 schedule2 :
  sched_run cwd p (schedule1 ++ schedule2)
  = sched_run cwd (sched_run cwd p schedule1) schedule2.
Proof. apply foldl_app. Qed.

Lemma round_robin_S (k n : nat) :
  round_robin (S k) n = seq 0 n ++ round_robin k n.
Proof. done. Qed.

Lemma round_robin_quiescent cwd (k : nat) p n :
  width p n → (work cwd p ≤ k)%nat →
  quiescent (sched_run cwd p (round_robin k n)).
Proof.
  revert p. induction k as [|k IH]; intros p Hn Hw.
  { apply (work_0_quiescent cwd). simpl. lia. }
  rewrite round_robin_S, sched_run_app.
  destruct (decide (quiescent p)) as [Hq|Hq].
  - by rewrite !(quiescent_run cwd p).
  - apply IH; [by apply sched_run_width|].
    pose proof (round_work cwd p n Hn Hq). lia.
Qed.

End termination.

(** ** Theorems *)

Section theorems.
Context `{QueryEngine}.
Implicit Types (s : Server) (cwd : node) (video : Video.t).

(** C12. Refinement: a request whose thread runs without interference is
    served as the atomic handler serves it. Within the number of steps
    [steps_left] gives, the thread of the request finishes with the reply
    and the state of [handle]. *)
Theorem thread_alone_is_handler s cwd req :
  run_alone cwd (steps_left cwd (spawn req)) (share s) (spawn req)
  = Some (share (handle s cwd req).1, Finished (handle s cwd req).2).
Proof.
  unfold spawn, handle. destruct (route _ _) as [[| | |id]|]; [..|done].
  - by rewrite run_alone_discover.
  - destruct (req_query req) as [params|]; [|done]. apply run_alone_view.
  - destruct (req_video req) as [video|]; [|done].
    rewrite (run_alone_enqueue cwd s video).
    by destruct (addToQueue s (Some video)).
  - destruct (req_status req) as [status|]; [|done].
    rewrite (run_alone_status cwd s id status).
    by destruct (updateVideoStatus s id (Some status)).
Qed.

(** C11. Under every schedule of the threads of any requests, the process
    either ends by a fatal error or keeps the primary key and a cache that
    claims stored paths only; and once every thread has finished the cache
    holds exactly the stored paths. *)
Theorem schedule_invariant s cwd reqs schedule :
  server_inv s → cache_exact s →
  match sched_run cwd (Running (share s) (spawn <$> reqs)) schedule with
  | Crashed => True
  | Running sh threads =>
      ids_unique (rows (unshare sh))
      ∧ (∀ p, cache_get (sh_cache sh) p = true →
              p ∈ row_path <$> rows (unshare sh))
      ∧ (Forall finished threads → cache_exact (unshare sh))
  end.
Proof.
  intros Hinv Hex.
  pose proof (sched_run_inv cwd (Running (share s) (spawn <$> reqs)) schedule
                (shared_inv_spawn s reqs Hinv Hex)) as Hp.
  destruct (sched_run _ _ _) as [sh threads|]; [|done]. simpl in Hp.
  split_and!; [by destruct Hp..|]. by apply shared_inv_quiescent.
Qed.

(** C14. The map is not synchronised: two enqueues that both pass their
    insert can be scheduled so that the second map write begins while the
    first is in progress, and so can a discovery that finds a file while an
    enqueue writes a map that already holds a path. The Go runtime ends the
    process in both cases. *)
Theorem unsynchronised_map_is_fatal s cwd tbl video1 video2 :
  table_of (db s) = Ok tbl →
  Video.ID video1 ∉ row_id <$> tbl → Video.ID video2 ∉ row_id <$> tbl →
  Video.ID video1 ≠ Video.ID video2 →
  sched_run cwd (Running (share s) [Enqueue video1; Enqueue video2])
    [0; 1; 0; 1]%nat = Crashed
  ∧ (∀ path paths,
       Walk walkFn videosDir (videos_root cwd) [] = (path :: paths, None) →
       processedPaths s ≠ ∅ →
       sched_run cwd (Running (share s) [Enqueue video1; Discover])
         [0; 0; 1; 1]%nat = Crashed).
Proof.
  intros Ht Hid1 Hid2 Hne.
  pose proof (exec_insert_fresh (db s) tbl video1 Ht Hid1) as Hins1.
  split.
  - unfold sched_run. simpl. rewrite Hins1. simpl.
    rewrite (exec_insert_fresh _ (tbl ++ [pending_row video1]) video2); [done|..].
    + apply table_of_set_table. by apply table_of_Ok in Ht as [? _].
    + rewrite fmap_app, not_elem_of_app. split; [done|].
      by intros ?%list_elem_of_singleton.
  - intros path paths Hw Hne'. unfold sched_run. simpl.
    rewrite Hins1. simpl. rewrite Hw. simpl. by rewrite bool_decide_true.
Qed.

(** C15. The cache is written after the insert, in a later step: a
    discovery that starts when the row is already stored, and before the
    map write, still lists the path as unprocessed. *)
Theorem discovery_races_with_enqueue s cwd tbl video :
  table_of (db s) = Ok tbl → Video.ID video ∉ row_id <$> tbl →
  cache_get (processedPaths s) (Video.Path video) = false →
  Walk walkFn videosDir (videos_root cwd) [] = ([Video.Path video], None) →
  ∃ sh,
    sched_run cwd (Running (share s) [Enqueue video; Discover]) [0]%nat
    = Running sh [EnqueueInserted video; Discover]
    ∧ Video.Path video ∈ row_path <$> rows (unshare sh)
    ∧ sched_run cwd (Running sh [EnqueueInserted video; Discover])
        [1; 1; 1]%nat
      = Running sh
          [EnqueueInserted video;
           Finished (Videos (StatusOK
             [unprocessed_video cwd (Video.Path video)]))].
Proof.
  intros Ht Hid Hc Hw. eexists. unfold sched_run. simpl.
  rewrite (exec_insert_fresh (db s) tbl video Ht Hid). simpl.
  split_and!; [done|..].
  - unfold rows. simpl. rewrite fmap_app. apply elem_of_app. right. by left.
  - rewrite Hw. simpl. unfold filter_step. simpl. by rewrite Hc.
Qed.
(** C13. Termination: no goroutine runs forever and none waits for
    another. A turn given to a thread does nothing, when the thread has
    finished, or takes at least one step off the finite work of the
    process; and when every thread is given a turn in every round, after
    as many rounds as there was work at the start every request has its
    reply, or the process has died of a fatal error. *)
Theorem round_robin_terminates s cwd reqs :
  let p := Running (share s) (spawn <$> reqs) in
  (∀ schedule i,
     let q := sched_run cwd p schedule in
     sched_step cwd q i = q ∨ (work cwd (sched_step cwd q i) < work cwd q)%nat)
  ∧ quiescent (sched_run cwd p (round_robin (work cwd p) (length reqs))).
Proof.
  split; [intros; apply sched_step_work|].
  apply round_robin_quiescent; [|done]. simpl. by rewrite length_fmap.
Qed.

End theorems.

(** ** Example schedules *)

Lemma demo_server_inv : server_inv demo_server ∧ cache_exact demo_server.
Proof.
  apply (initDB_inv demo_db); [|reflexivity].
  apply (bool_decide_unpack _). vm_compute. exact I.
Qed.

Lemma schedule_invariant_witness :
  match @sched_run merge_engine demo_new_fs
          (Running (share demo_server)
             (spawn <$> [post_process demo_new; get_unprocessed]))
          [0; 1; 1; 0; 1; 0]%nat with
  | Crashed => True
  | Running sh threads =>
      ids_unique (rows (unshare sh))
      ∧ (∀ p, cache_get (sh_cache sh) p = true →
              p ∈ row_path <$> rows (unshare sh))
      ∧ (Forall finished threads → cache_exact (unshare sh))
  end.
Proof.
  apply (@schedule_invariant merge_engine demo_server demo_new_fs
           [post_process demo_new; get_unprocessed] [0; 1; 1; 0; 1; 0]%nat);
    apply demo_server_inv.
Defined.

Lemma unsynchronised_map_is_fatal_witness :
  @sched_run merge_engine demo_new_fs
    (Running (share demo_server) [Enqueue demo_new; Enqueue demo_video])
    [0; 1; 0; 1]%nat = Crashed
  ∧ @sched_run merge_engine demo_new_fs
      (Running (share demo_server) [Enqueue demo_new; Discover])
      [0; 0; 1; 1]%nat = Crashed.
Proof.
  destruct (@unsynchronised_map_is_fatal merge_engine demo_server demo_new_fs
              demo_table demo_new demo_video) as [Hww Hrw].
  - reflexivity.
  - apply (bool_decide_unpack _). vm_compute. exact I.
  - apply (bool_decide_unpack _). vm_compute. exact I.
  - apply (bool_decide_unpack _). vm_compute. exact I.
  - split; [exact Hww|]. eapply Hrw.
    + vm_compute. reflexivity.
    + apply (bool_decide_unpack _). vm_compute. exact I.
Defined.

Lemma discovery_races_with_enqueue_witness :
  ∃ sh,
    @sched_run merge_engine demo_new_fs
      (Running (share demo_server) [Enqueue demo_new; Discover]) [0]%nat
    = Running sh [EnqueueInserted demo_new; Discover]
    ∧ Video.Path demo_new ∈ row_path <$> rows (unshare sh)
    ∧ @sched_run merge_engine demo_new_fs
        (Running sh [EnqueueInserted demo_new; Discover]) [1; 1; 1]%nat
      = Running sh
          [EnqueueInserted demo_new;
           Finished (Videos (StatusOK
             [unprocessed_video demo_new_fs (Video.Path demo_new)]))].
Proof.
  apply (@discovery_races_with_enqueue merge_engine demo_server demo_new_fs
           demo_table demo_new).
  - reflexivity.
  - apply (bool_decide_unpack _). vm_compute. exact I.
  - reflexivity.
  - reflexivity.
Defined.

(** The two queries of [getQueue] are not one snapshot: an insert between
    the count and the page query gives a response that shows seven videos
    and says there are six. *)
Example snapshot_gap :
  ∃ sh body,
    @sched_run merge_engine demo_fs
      (Running (share demo_server)
         (spawn <$> [get_queue (PaginationParams.mk 1 10 "");
                     post_process demo_video]))
      [0; 1; 0]%nat
    = Running sh [Finished (QueuePage (Some (StatusOK body)));
                  EnqueueInserted demo_video]
    ∧ length (queue_videos (queue body)) = 7%nat
    ∧ total (pagination body) = 6.
Proof. vm_compute. eexists _, _. done. Qed.

(** Three requests under round robin: all are answered after three
    rounds. The same schedule for an enqueue and a discovery ends in the
    fatal error of the map. *)
Example round_robin_session :
  let reqs := [get_unprocessed; patch_status "a.mp4" "completed";
               get_queue PaginationParams.default] in
  let p := Running (share demo_server) (spawn <$> reqs) in
  work demo_new_fs p = 6%nat
  ∧ (∃ sh rep1 rep2 rep3,
       @sched_run merge_engine demo_new_fs p (round_robin 3 3)
       = Running sh [Finished rep1; Finished rep2; Finished rep3])
  ∧ @sched_run merge_engine demo_new_fs
      (Running (share demo_server)
         (spawn <$> [post_process demo_new; get_unprocessed]))
      (round_robin 2 2) = Crashed.
Proof.
  split; [by vm_compute|]. split; [|by vm_compute].
  eexists _, _, _, _. vm_compute. reflexivity.
Qed.
